(** * fireplace/actions.py: the action-resolution engine

    A shallow embedding of the parts of [fireplace/actions.py] that the
    specification makes claims about, and the proofs of those claims.

    Python objects are mutable and shared, so Action instances live in a
    store ([gmap positive ActionObj]) and are named by their address;
    reference identity ([is]) is equality of addresses.  Game entities
    (cards, characters, players) are named the same way and their
    attributes are read from and written to a store of records. *)

From Stdlib Require Import ZArith Lia.
From stdpp Require Import gmap strings list functions.

Open Scope Z_scope.

(** ** Values *)

(** Entities and Action instances are referred to by address. *)
Abbreviation ref := positive (only parsing).
Abbreviation aref := positive (only parsing).

(** dsl Selectors and LazyValues are opaque to this module: they are named
    here, and what they evaluate to is supplied by the collaborator. *)
Abbreviation selector := nat (only parsing).
Abbreviation lazyvalue := nat (only parsing).

(** What an Action argument can hold. *)
Inductive value : Type :=
| VNone
| VEnt (e : ref)
| VInt (n : Z)
| VStr (s : string)
| VSel (s : selector)
| VLazy (l : lazyvalue)
| VAct (a : aref).

#[global] Instance value_eq_dec : EqDecision value.
Proof. solve_decision. Defined.

(** [x is y]: reference identity.  Entities and actions are identical when
    their addresses are; [None] is a singleton.  Numbers and strings
    carry no identity of their own here and are identical when equal. *)
Definition is_ (x y : value) : bool := bool_decide (x = y).

(** The exceptions the module raises (or lets escape). *)
Inductive exn : Type :=
| InvalidAction
| AssertionError
| AttributeError
| TypeError.

Inductive res (A : Type) : Type :=
| Val (a : A)
| Exc (e : exn).
Arguments Val {A} a.
Arguments Exc {A} e.

(** ** The Action classes *)

Inductive ActionClass : Type :=
| Action | GameAction | Attack | BeginTurn | Concede | Deaths | Death
| EndTurn | Joust | GenericChoice | MulliganChoice | Play | Activate
| Overload
| TargetedAction | Buff | Bounce | CopyDeathrattles | Counter | Predamage
| Damage | Deathrattle | Battlecry | Destroy | Discard | Discover | Draw
| Fatigue | ForceDraw | DrawUntil | FullHeal | GainArmor | GainMana
| GainEmptyMana | Give | Hit | Heal | ManaThisTurn | Mill | Morph
| FillMana | Retarget | Reveal | SetCurrentHealth | SetTag | UnsetTag
| Silence | Summon | Shuffle | Swap | SwapHealth | Steal | UnlockOverload.

#[global] Instance ActionClass_eq_dec : EqDecision ActionClass.
Proof. solve_decision. Defined.

(** [issubclass(c, TargetedAction)] *)
Definition is_targeted (c : ActionClass) : bool :=
  match c with
  | Action | GameAction | Attack | BeginTurn | Concede | Deaths | Death
  | EndTurn | Joust | GenericChoice | MulliganChoice | Play | Activate
  | Overload => false
  | _ => true
  end.

(** ** Action instances *)

(** The attributes [Action.__init__] sets, and the two that
    [TargetedAction.__init__] adds ([source], [trigger_index]), absent on
    the other classes. *)
Record ActionObj : Type := mkActionObj {
  cls : ActionClass;
  _args : list value;
  _kwargs : gmap string value;
  callback : list value;
  times : value;
  event_queue : list (value * list value);
  targeted : option (value * Z)
}.

Definition set_callback (v : list value) (o : ActionObj) : ActionObj :=
  mkActionObj (cls o) (_args o) (_kwargs o) v (times o) (event_queue o)
    (targeted o).

Definition set_times (v : value) (o : ActionObj) : ActionObj :=
  mkActionObj (cls o) (_args o) (_kwargs o) (callback o) v (event_queue o)
    (targeted o).

Definition set_targeted (v : option (value * Z)) (o : ActionObj) : ActionObj :=
  mkActionObj (cls o) (_args o) (_kwargs o) (callback o) (times o)
    (event_queue o) v.

(** [Action.__init__(self, *args, **kwargs)] *)
Definition Action__init__ (c : ActionClass) (args : list value)
    (kwargs : gmap string value) : ActionObj :=
  {| cls := c; _args := args; _kwargs := kwargs; callback := [];
     times := VInt 1; event_queue := []; targeted := None |}.

(** [TargetedAction.__init__]: [source] is popped from the keyword
    arguments before the base constructor stores them. *)
Definition TargetedAction__init__ (c : ActionClass) (args : list value)
    (kwargs : gmap string value) : ActionObj :=
  let source := default VNone (kwargs !! "source"%string) in
  let kwargs := delete "source"%string kwargs in
  set_targeted (Some (source, 0)) (Action__init__ c args kwargs).

(** Instantiating class [c] on positional and keyword arguments: only
    [TargetedAction] overrides [__init__]. *)
Definition construct (c : ActionClass) (args : list value)
    (kwargs : gmap string value) : ActionObj :=
  if is_targeted c then TargetedAction__init__ c args kwargs
  else Action__init__ c args kwargs.

(** The store of Action instances. *)
Abbreviation astore := (gmap positive ActionObj) (only parsing).

(** Allocation of a new instance at an unused address. *)
Definition alloc (o : ActionObj) (h : astore) : aref * astore :=
  let l := fresh (dom h) in (l, <[l := o]> h).

(** [Action.then(self, *args)].  [None] only for a dangling [self], which
    Python cannot produce. *)
Definition then_ (self : aref) (args : list value) (h : astore)
    : option (aref * astore) :=
  match h !! self with
  | None => None
  | Some o =>
      let '(ret, h) := alloc (construct (cls o) (_args o) (_kwargs o)) h in
      let h := alter (set_callback args) ret h in
      match h !! self with
      | None => None
      | Some o' => Some (ret, alter (set_times (times o')) ret h)
      end
  end.

(** [TargetedAction.__mul__(self, value)]; the other classes do not define
    the operator and [a * n] is a [TypeError] there. *)
Definition __mul__ (self : aref) (v : value) (h : astore)
    : option (res aref * astore) :=
  match h !! self with
  | None => None
  | Some o =>
      if is_targeted (cls o)
      then Some (Val self, alter (set_times v) self h)
      else Some (Exc TypeError, h)
  end.

(** ** Trigger patterns *)

Section Matching.

(** [selector.eval(pool, source)], from the dsl. *)
Variable sel_eval : selector -> list value -> ref -> list value.

(** The loop of [Action.matches] over [zip(args, self._args)].  A
    pattern argument that is neither [None] nor a Selector has no
    [eval]. *)
Fixpoint matches_loop (source : ref) (pairs : list (value * value))
    : res bool :=
  match pairs with
  | [] => Val true
  | (arg, match_) :: rest =>
      match match_, arg with
      | VNone, _ => matches_loop source rest
      | _, VNone => Val false
      | VSel s, _ =>
          match sel_eval s [arg] source with
          | [] => Val false
          | r0 :: _ =>
              if negb (is_ r0 arg) then Val false
              else matches_loop source rest
          end
      | _, _ => Exc AttributeError
      end
  end.

(** [Action.matches(self, source, args)] *)
Definition matches (self : ActionObj) (source : ref) (args : list value)
    : res bool :=
  matches_loop source (zip args (_args self)).

(** A pattern argument accepts a broadcast argument: it is the wildcard,
    or a selector that, evaluated on that argument alone, gives it
    back. *)
Definition accepts (source : ref) (match_ arg : value) : Prop :=
  match_ = VNone \/
  (arg <> VNone /\
   exists s, match_ = VSel s /\ head (sel_eval s [arg] source) = Some arg).

End Matching.

(** ** Entities and the game *)

(** The members of [hearthstone.enums.Zone] and [CardType]. *)
Inductive Zone : Type :=
| ZONE_INVALID | PLAY | DECK | HAND | GRAVEYARD | REMOVEDFROMGAME
| SETASIDE | SECRET.

Inductive CardType : Type :=
| TYPE_INVALID | GAME | PLAYER | HERO | MINION | SPELL | ENCHANTMENT
| WEAPON | ITEM | TOKEN | HERO_POWER.

#[global] Instance Zone_eq_dec : EqDecision Zone.
Proof. solve_decision. Defined.
#[global] Instance CardType_eq_dec : EqDecision CardType.
Proof. solve_decision. Defined.

(** The attributes of an entity that the modelled actions read or write.
    Python entities are dynamically typed: a card, a character and a
    player are the same kind of object with different attributes in use. *)
Record Entity : Type := mkEntity {
  type : CardType;
  zone : Zone;
  controller : ref;
  atk : Z;
  attack_target : option ref;
  defending : bool;
  num_attacks : Z;
  should_exit_combat : bool;
  predamage : Z;
  incoming_damage_multiplier : Z;
  stealthed : bool;
  hand : list ref;
  deck : list ref;
  max_hand_size : Z;
  choice : option aref;
  fatigue_counter : Z;
  cant_fatigue : bool;
  hero : ref
}.

Definition with_zone (v : Zone) (e : Entity) : Entity :=
  mkEntity (type e) v (controller e) (atk e) (attack_target e) (defending e)
    (num_attacks e) (should_exit_combat e) (predamage e)
    (incoming_damage_multiplier e) (stealthed e) (hand e) (deck e)
    (max_hand_size e) (choice e) (fatigue_counter e) (cant_fatigue e) (hero e).

Definition with_controller (v : ref) (e : Entity) : Entity :=
  mkEntity (type e) (zone e) v (atk e) (attack_target e) (defending e)
    (num_attacks e) (should_exit_combat e) (predamage e)
    (incoming_damage_multiplier e) (stealthed e) (hand e) (deck e)
    (max_hand_size e) (choice e) (fatigue_counter e) (cant_fatigue e) (hero e).

Definition with_attack_target (v : option ref) (e : Entity) : Entity :=
  mkEntity (type e) (zone e) (controller e) (atk e) v (defending e)
    (num_attacks e) (should_exit_combat e) (predamage e)
    (incoming_damage_multiplier e) (stealthed e) (hand e) (deck e)
    (max_hand_size e) (choice e) (fatigue_counter e) (cant_fatigue e) (hero e).

Definition with_defending (v : bool) (e : Entity) : Entity :=
  mkEntity (type e) (zone e) (controller e) (atk e) (attack_target e) v
    (num_attacks e) (should_exit_combat e) (predamage e)
    (incoming_damage_multiplier e) (stealthed e) (hand e) (deck e)
    (max_hand_size e) (choice e) (fatigue_counter e) (cant_fatigue e) (hero e).

Definition with_num_attacks (v : Z) (e : Entity) : Entity :=
  mkEntity (type e) (zone e) (controller e) (atk e) (attack_target e)
    (defending e) v (should_exit_combat e) (predamage e)
    (incoming_damage_multiplier e) (stealthed e) (hand e) (deck e)
    (max_hand_size e) (choice e) (fatigue_counter e) (cant_fatigue e) (hero e).

Definition with_should_exit_combat (v : bool) (e : Entity) : Entity :=
  mkEntity (type e) (zone e) (controller e) (atk e) (attack_target e)
    (defending e) (num_attacks e) v (predamage e)
    (incoming_damage_multiplier e) (stealthed e) (hand e) (deck e)
    (max_hand_size e) (choice e) (fatigue_counter e) (cant_fatigue e) (hero e).

Definition with_predamage (v : Z) (e : Entity) : Entity :=
  mkEntity (type e) (zone e) (controller e) (atk e) (attack_target e)
    (defending e) (num_attacks e) (should_exit_combat e) v
    (incoming_damage_multiplier e) (stealthed e) (hand e) (deck e)
    (max_hand_size e) (choice e) (fatigue_counter e) (cant_fatigue e) (hero e).

Definition with_stealthed (v : bool) (e : Entity) : Entity :=
  mkEntity (type e) (zone e) (controller e) (atk e) (attack_target e)
    (defending e) (num_attacks e) (should_exit_combat e) (predamage e)
    (incoming_damage_multiplier e) v (hand e) (deck e)
    (max_hand_size e) (choice e) (fatigue_counter e) (cant_fatigue e) (hero e).

Definition with_hand (v : list ref) (e : Entity) : Entity :=
  mkEntity (type e) (zone e) (controller e) (atk e) (attack_target e)
    (defending e) (num_attacks e) (should_exit_combat e) (predamage e)
    (incoming_damage_multiplier e) (stealthed e) v (deck e)
    (max_hand_size e) (choice e) (fatigue_counter e) (cant_fatigue e) (hero e).

Definition with_choice (v : option aref) (e : Entity) : Entity :=
  mkEntity (type e) (zone e) (controller e) (atk e) (attack_target e)
    (defending e) (num_attacks e) (should_exit_combat e) (predamage e)
    (incoming_damage_multiplier e) (stealthed e) (hand e) (deck e)
    (max_hand_size e) v (fatigue_counter e) (cant_fatigue e) (hero e).

Definition with_fatigue_counter (v : Z) (e : Entity) : Entity :=
  mkEntity (type e) (zone e) (controller e) (atk e) (attack_target e)
    (defending e) (num_attacks e) (should_exit_combat e) (predamage e)
    (incoming_damage_multiplier e) (stealthed e) (hand e) (deck e)
    (max_hand_size e) (choice e) v (cant_fatigue e) (hero e).

(** The game: the attribute store of its entities and the two attributes
    of the game object that [Attack] uses. *)
Record Game : Type := mkGame {
  ent : ref -> Entity;
  proposed_attacker : option ref;
  proposed_defender : option ref
}.

(** [r.attr = v], for an attribute update [f]. *)
Definition upd (r : ref) (f : Entity -> Entity) (g : Game) : Game :=
  mkGame (alter f r (ent g)) (proposed_attacker g)
    (proposed_defender g).

Arguments upd : simpl never.

Definition set_proposed_attacker (v : option ref) (g : Game) : Game :=
  mkGame (ent g) v (proposed_defender g).

Definition set_proposed_defender (v : option ref) (g : Game) : Game :=
  mkGame (ent g) (proposed_attacker g) v.

(** ** Calls that leave the module *)

(** [EventListener.ON] and [EventListener.AFTER] *)
Inductive Phase : Type := ON | AFTER.

(** Every call the modelled code makes into a collaborator (the queue
    manager, the entity layer, the listeners reached by a broadcast) is
    recorded, in order. *)
Inductive Event : Type :=
| EvBroadcast (c : ActionClass) (source : ref) (at_ : Phase)
    (args : list value)
| EvQueue (source : ref) (actions : list ActionObj)
| EvAction (c : ActionClass) (source : ref) (targets : option (list ref))
    (args : list value)
| EvActionEnd (c : ActionClass) (source : ref) (targets : option (list ref))
    (args : list value)
| EvProcessDeaths
| EvEndTurn
| EvZone (card : ref) (z : Zone)
| EvDiscard (card : ref)
| EvDrawCard (card : ref)
| EvHit (target : ref) (amount : Z).

(** What the collaborators do to the game when called.  The module
    consumes these capabilities and does not implement them.  They are
    taken to return: an exception raised inside a listener's response or
    inside a queued action belongs to that code, not to the action that
    made the call. *)
Record Collab : Type := mkCollab {
  (** the responses of all listeners that a broadcast reaches
      ([entity.trigger_event] for every matching listener) *)
  dispatch : ActionClass -> ref -> Phase -> list value -> Game -> Game;
  (** [game.queue_actions(source, actions)]: the results, per action *)
  queued : ref -> list ActionObj -> Game -> list (list value) * Game;
  (** the setter of the [zone] property *)
  zone_setter : ref -> Zone -> Game -> Game;
  (** [card.discard()] *)
  discard : ref -> Game -> Game;
  (** [card.draw()] *)
  draw : ref -> Game -> Game;
  (** [target._hit(amount)]: the amount that was dealt *)
  _hit : ref -> Z -> Game -> Z * Game;
  (** [game._end_turn()] *)
  _end_turn : Game -> Game;
  (** [game.process_deaths()] *)
  process_deaths : Game -> Game
}.

(** ** The effect monad: game state, the record of calls, exceptions *)

Record State : Type := mkState {
  game : Game;
  trace : list Event
}.

Definition M (A : Type) : Type := State -> res A * State.

Definition ret {A} (a : A) : M A := fun s => (Val a, s).

Definition bind {A B} (m : M A) (k : A -> M B) : M B :=
  fun s =>
    match m s with
    | (Val a, s') => k a s'
    | (Exc e, s') => (Exc e, s')
    end.

Definition raise {A} (e : exn) : M A := fun s => (Exc e, s).

Definition gets {A} (f : Game -> A) : M A := fun s => (Val (f (game s)), s).

Definition modify (f : Game -> Game) : M unit :=
  fun s => (Val tt, mkState (f (game s)) (trace s)).

Definition emit (e : Event) : M unit :=
  fun s => (Val tt, mkState (game s) (trace s ++ [e])).

(** A call whose result the collaborator computes from the game. *)
Definition call {A} (e : Event) (f : Game -> A * Game) : M A :=
  fun s =>
    let '(a, g) := f (game s) in
    (Val a, mkState g (trace s ++ [e])).

#[global] Instance M_ret : MRet M := @ret.
#[global] Instance M_bind : MBind M := fun A B k m => bind m k.

(** [assert b] *)
Definition assert_ (b : bool) : M unit :=
  if b then ret tt else raise AssertionError.

(** Reading an attribute of an entity. *)
Definition attr {A} (r : ref) (f : Entity -> A) : M A :=
  gets (fun g => f (ent g r)).

(** An attribute access on what may be [None]. *)
Definition deref (o : option ref) : M ref :=
  match o with
  | Some r => ret r
  | None => raise AttributeError
  end.

(** Running an action from a state: result, final game, calls made. *)
Definition run {A} (m : M A) (g : Game) : res A * State :=
  m (mkState g []).

(** ** The actions *)

Section Actions.

Variable C : Collab.

(** [self.broadcast(source, at, *args)] on an action of class [c]: the
    listeners of every entity and of every hand are offered the event,
    and those of the right phase whose pattern [matches] respond, through
    [entity.trigger_event].  The responses run in the entity layer and
    the queue manager; what they do to the game is [dispatch]. *)
Definition broadcast (c : ActionClass) (source : ref) (at_ : Phase)
    (args : list value) : M unit :=
  emit (EvBroadcast c source at_ args);;
  modify (dispatch C c source at_ args).

(** [source.game.queue_actions(source, actions)] *)
Definition queue_actions (source : ref) (actions : list ActionObj)
    : M (list (list value)) :=
  call (EvQueue source actions) (queued C source actions).

(** [card.zone = z] *)
Definition set_zone (card : ref) (z : Zone) : M unit :=
  emit (EvZone card z);; modify (zone_setter C card z).

(** [GameAction.trigger], for an action of class [c] whose [get_args]
    gave [args] and whose [do] is [body]. *)
Definition GameAction_trigger (c : ActionClass) (source : ref)
    (args : list value) (body : M unit) : M unit :=
  emit (EvAction c source None args);;
  body;;
  emit (EvActionEnd c source None args);;
  emit EvProcessDeaths;;
  modify (process_deaths C).

(** *** Attack *)

(** [Attack.do(self, source, attacker, defender)] *)
Definition Attack_do (source attacker defender : ref) : M unit :=
  modify (upd attacker (with_attack_target (Some defender)));;
  modify (upd defender (with_defending true));;
  modify (set_proposed_attacker (Some attacker));;
  modify (set_proposed_defender (Some defender));;
  broadcast Attack source ON [VEnt attacker; VEnt defender];;
  defender ← gets proposed_defender;
  modify (set_proposed_attacker None);;
  modify (set_proposed_defender None);;
  exit ← attr attacker should_exit_combat;
  if exit : bool then
    modify (upd attacker (with_attack_target None));;
    defender ← deref defender;
    modify (upd defender (with_defending false))
  else
    assert_ (negb (bool_decide (Some attacker = defender)));;
    defender ← deref defender;
    def_atk ← attr defender atk;
    att_atk ← attr attacker atk;
    queue_actions attacker
      [construct Hit [VEnt defender; VInt att_atk] ∅];;
    (if bool_decide (def_atk ≠ 0)
     then queue_actions defender
            [construct Hit [VEnt attacker; VInt def_atk] ∅];; ret tt
     else ret tt);;
    broadcast Attack source AFTER [VEnt attacker; VEnt defender];;
    modify (upd attacker (with_attack_target None));;
    modify (upd defender (with_defending false));;
    n ← attr attacker num_attacks;
    modify (upd attacker (with_num_attacks (n + 1))).

(** *** EndTurn *)

(** [EndTurn.do(self, source, player)] *)
Definition EndTurn_do (source player : ref) : M unit :=
  c ← attr player choice;
  match c with
  | Some _ => raise InvalidAction
  | None =>
      broadcast EndTurn source ON [VEnt player];;
      emit EvEndTurn;;
      modify (_end_turn C)
  end.

(** [EndTurn(player).trigger(source)] *)
Definition EndTurn_trigger (source player : ref) : M unit :=
  GameAction_trigger EndTurn source [VEnt player]
    (EndTurn_do source player).

(** *** GenericChoice *)

(** [GenericChoice.do]: [self], at address [self_], becomes the open
    choice of [player]; [self.player] and [self.cards] are what
    [choose] is later given. *)
Definition GenericChoice_do (self_ : aref) (source player : ref)
    (cards : list ref) : M unit :=
  modify (upd player (with_choice (Some self_))).

(** The loop of [GenericChoice.choose] over [self.cards]. *)
Fixpoint choose_loop (player : ref) (cards : list ref) (card : ref)
    : M unit :=
  match cards with
  | [] => ret tt
  | _card :: rest =>
      (if bool_decide (_card = card) then
         t ← attr card type;
         if bool_decide (t = HERO_POWER) then set_zone _card PLAY
         else
           h ← attr player hand;
           m ← attr player max_hand_size;
           if bool_decide (Z.of_nat (length h) < m)
           then set_zone _card HAND
           else emit (EvDiscard _card);; modify (discard C _card)
       else emit (EvDiscard _card);; modify (discard C _card));;
      choose_loop player rest card
  end.

(** [GenericChoice.choose(self, card)], with [self.player = player] and
    [self.cards = cards]. *)
Definition GenericChoice_choose (player : ref) (cards : list ref)
    (card : ref) : M unit :=
  choose_loop player cards card;;
  modify (upd player (with_choice None)).

(** *** Bounce *)

(** [Bounce.do(self, source, target)] *)
Definition Bounce_do (source target : ref)
    : M (option (list (list value))) :=
  c ← attr target controller;
  h ← attr c hand;
  m ← attr c max_hand_size;
  if bool_decide (m ≤ Z.of_nat (length h)) then
    r ← queue_actions source [construct Destroy [VEnt target] ∅];
    ret (Some r)
  else
    set_zone target HAND;; ret None.

(** *** Predamage and Damage *)

(** [for i in range(n): amount *= 2] *)
Fixpoint doubled (n : nat) (amount : Z) : Z :=
  match n with
  | O => amount
  | S n => doubled n (amount * 2)
  end.

(** [Damage.get_target_args(self, source, target)] *)
Definition Damage_get_target_args (source target : ref) : M (list Z) :=
  p ← attr target predamage; ret [p].

(** [Damage.do(self, source, target, amount)]; the argument is
    overwritten before it is read. *)
Definition Damage_do (source target : ref) (amount : Z) : M Z :=
  p ← attr target predamage;
  amount ← call (EvHit target p) (_hit C target p);
  modify (upd target (with_predamage 0));;
  t ← attr source type;
  st ← attr source stealthed;
  (if bool_decide (t = MINION) && st
   then modify (upd source (with_stealthed false)) else ret tt);;
  (if bool_decide (amount ≠ 0)
   then broadcast Damage source ON [VEnt target; VInt amount; VEnt source]
   else ret tt);;
  ret amount.

(** [TargetedAction.trigger] on the instance [Damage(target)] that
    [Predamage.do] builds: no [source] redirect, [times] is 1, the target
    argument is an entity, there is no callback and the queue of
    deferred broadcasts is empty. *)
Definition Damage_trigger (source target : ref) : M (list Z) :=
  emit (EvAction Damage source (Some [target]) []);;
  target_args ← Damage_get_target_args source target;
  r ← Damage_do source target (default 0 (head target_args));
  emit (EvActionEnd Damage source (Some [target]) [VEnt target]);;
  ret [r].

(** Modelled from the spec: [game.trigger_actions], of the queue manager,
    which is not part of this module.  It is the synchronous variant of
    [queue_actions]: the action is triggered inline and its results are
    returned, one list per action. *)
Definition trigger_actions_Damage (source target : ref) : M (list (list Z)) :=
  r ← Damage_trigger source target; ret [r].

(** [Predamage.do(self, source, target, amount)] *)
Definition Predamage_do (source target : ref) (amount : Z) : M Z :=
  m ← attr target incoming_damage_multiplier;
  let amount := doubled (Z.to_nat m) amount in
  modify (upd target (with_predamage amount));;
  if bool_decide (amount ≠ 0) then
    broadcast Predamage source ON [VEnt target; VInt amount];;
    r ← trigger_actions_Damage source target;
    match r with
    | (x :: _) :: _ => ret x
    | _ => raise AssertionError
    end
  else ret 0.

(** *** Draw and Fatigue *)

(** [Fatigue.do(self, source, target)] *)
Definition Fatigue_do (source target : ref)
    : M (option (list (list value))) :=
  cf ← attr target cant_fatigue;
  if cf : bool then ret None
  else
    n ← attr target fatigue_counter;
    modify (upd target (with_fatigue_counter (n + 1)));;
    h ← attr target hero;
    n ← attr target fatigue_counter;
    r ← queue_actions source [construct Hit [VEnt h; VInt n] ∅];
    ret (Some r).

(** Modelled from the spec: [Player.fatigue], of the entity layer, which
    is not part of this module.  Drawing from an empty deck triggers
    fatigue: the player runs the [Fatigue] effect on itself. *)
Definition Player_fatigue (player : ref) : M unit :=
  Fatigue_do player player;; ret tt.

(** [Draw.get_target_args(self, source, target)]: the top card of the
    deck is its last element. *)
Definition Draw_get_target_args (source target : ref)
    : M (option ref) :=
  d ← attr target deck;
  match d with
  | [] => ret None
  | _ => ret (list.last d)
  end.

(** [Draw.do(self, source, target, card)] *)
Definition Draw_do (source target : ref) (card : option ref)
    : M (list ref) :=
  match card with
  | None => Player_fatigue target;; ret []
  | Some card =>
      emit (EvDrawCard card);;
      modify (draw C card);;
      broadcast Draw source ON [VEnt target; VEnt card; VEnt source];;
      ret [card]
  end.

(** One pass of [TargetedAction.trigger] over one player target of a
    [Draw]: the target's arguments are resolved, then [do] runs. *)
Definition Draw_target (source target : ref) : M (list ref) :=
  card ← Draw_get_target_args source target;
  Draw_do source target card.

(** [Draw(target) * n], for one player target: the repetitions of
    [TargetedAction.trigger], results in order. *)
Fixpoint Draw_times (n : nat) (source target : ref)
    : M (list (list ref)) :=
  match n with
  | O => ret []
  | S n =>
      r ← Draw_target source target;
      rs ← Draw_times n source target;
      ret (r :: rs)
  end.

(** *** Give *)

(** The [CARD] argument of [Give.do]: a list of cards, or one card. *)
Inductive cards_arg : Type :=
| Cards (l : list ref)
| OneCard (c : ref).

(** The loop of [Give.do] over the cards; [acc] is [ret] so far. *)
Fixpoint Give_loop (target : ref) (cards : list ref) (acc : list ref)
    : M (list ref) :=
  match cards with
  | [] => ret acc
  | card :: rest =>
      h ← attr target hand;
      m ← attr target max_hand_size;
      if bool_decide (m ≤ Z.of_nat (length h)) then
        Give_loop target rest acc
      else
        modify (upd card (with_controller target));;
        set_zone card HAND;;
        Give_loop target rest (acc ++ [card])
  end.

(** [Give.do(self, source, target, cards)] *)
Definition Give_do (source target : ref) (cards : cards_arg)
    : M (list ref) :=
  let cards :=
    match cards with
    | Cards l => l
    | OneCard c => [c]
    end in
  Give_loop target cards [].

End Actions.

(** ** Abbreviations used in the statements *)

(** The game as [Attack.do] leaves it just before its [ON] broadcast. *)
Definition proposed (attacker defender : ref) (g : Game) : Game :=
  set_proposed_defender (Some defender)
    (set_proposed_attacker (Some attacker)
       (upd defender (with_defending true)
          (upd attacker (with_attack_target (Some defender)) g))).

(** [len(player.hand) >= player.max_hand_size] *)
Definition hand_full (player : ref) (g : Game) : Prop :=
  max_hand_size (ent g player) ≤ Z.of_nat (length (hand (ent g player))).

(** The [Hit] that a tick of fatigue queues. *)
Definition fatigue_hit (player hero_ : ref) (n : Z) : Event :=
  EvQueue player [construct Hit [VEnt hero_; VInt n] ∅].

(** The listeners leave the staged damage of [target] alone. *)
Definition keeps_predamage (C : Collab) (target : ref) : Prop :=
  ∀ c source at_ args g,
    predamage (ent (dispatch C c source at_ args g) target) =
    predamage (ent g target).

(** Resolving queued actions leaves the deck and the fatigue attributes of
    [player] alone. *)
Definition keeps_fatigue (C : Collab) (player : ref) : Prop :=
  ∀ source actions g,
    let e' := ent (queued C source actions g).2 player in
    let e := ent g player in
    deck e' = deck e ∧ cant_fatigue e' = cant_fatigue e ∧
    fatigue_counter e' = fatigue_counter e ∧ hero e' = hero e.

(** Whether an event is a [Hit] handed to the queue. *)
Definition queues_hit (e : Event) : Prop :=
  ∃ source o rest, e = EvQueue source (o :: rest) ∧ cls o = Hit.

(** What [choose] does with the chosen card, in the game [g] reached when
    the loop arrives at it. *)
Definition chosen_event (player card : ref) (g : Game) : Event :=
  if bool_decide (type (ent g card) = HERO_POWER) then EvZone card PLAY
  else if bool_decide
            (Z.of_nat (length (hand (ent g player))) <
             max_hand_size (ent g player))
       then EvZone card HAND
       else EvDiscard card.

(** ** A small game to run the actions on *)

Module Sample.

Definition player1 : ref := 1%positive.
Definition hero1 : ref := 2%positive.
Definition minion3 : ref := 3%positive.
Definition minion4 : ref := 4%positive.
Definition card5 : ref := 5%positive.
Definition card6 : ref := 6%positive.
Definition card7 : ref := 7%positive.
Definition card8 : ref := 8%positive.

(** Player 1 with hero 2; minions 3 and 4 in play, 4 taking double
    damage; every other entity is a card set aside. *)
Definition entity_of (r : ref) : Entity :=
  match r with
  | 1%positive => mkEntity PLAYER PLAY 1 0 None false 0 false 0 0 false
                    [] [] 10 None 0 false 2
  | 2%positive => mkEntity HERO PLAY 1 0 None false 0 false 0 0 false
                    [] [] 10 None 0 false 2
  | 3%positive => mkEntity MINION PLAY 1 3 None false 0 false 0 0 false
                    [] [] 10 None 0 false 2
  | 4%positive => mkEntity MINION PLAY 1 2 None false 0 false 0 1 false
                    [] [] 10 None 0 false 2
  | _ => mkEntity SPELL SETASIDE 1 0 None false 0 false 0 0 false
           [] [] 10 None 0 false 2
  end.

Definition table : Game :=
  {| ent := entity_of; proposed_attacker := None;
     proposed_defender := None |}.

(** Modelled from the spec: the setter of the [zone] property, of the
    entity layer, which is not part of this module ("zone assignment,
    readable and settable, triggers externally-defined side effects on
    write"; "hand/deck/field containers with size limits").  The card
    leaves its controller's hand if it was there and joins it when the
    new zone is the hand; only the hand is tracked. *)
Definition move_zone (card : ref) (z : Zone) (g : Game) : Game :=
  let c := controller (ent g card) in
  let without := filter (λ x, x ≠ card) (hand (ent g c)) in
  let h := if bool_decide (z = HAND) then without ++ [card] else without in
  upd card (with_zone z) (upd c (with_hand h) g).

(** No listener responds; queued actions have no effect; a hit deals
    what it is given. *)
Definition quiet : Collab :=
  {| dispatch := λ _ _ _ _ g, g;
     queued := λ _ actions g, ((λ _, []) <$> actions, g);
     zone_setter := move_zone;
     discard := λ card g, move_zone card GRAVEYARD g;
     draw := λ card g, move_zone card HAND g;
     _hit := λ _ amount g, (amount, g);
     _end_turn := λ g, g;
     process_deaths := λ g, g |}.

(** A listener on [Predamage] that caps the staged damage of its
    target at 1; otherwise as [quiet]. *)
Definition capping : Collab :=
  {| dispatch := λ c _ _ args g,
       match c, args with
       | Predamage, VEnt t :: _ =>
           upd t (λ e, with_predamage (Z.min 1 (predamage e)) e) g
       | _, _ => g
       end;
     queued := queued quiet;
     zone_setter := move_zone;
     discard := discard quiet;
     draw := draw quiet;
     _hit := _hit quiet;
     _end_turn := _end_turn quiet;
     process_deaths := process_deaths quiet |}.

(** A listener on [Attack] that takes the attacker out of combat;
    otherwise as [quiet]. *)
Definition ambush : Collab :=
  {| dispatch := λ c _ _ args g,
       match c, args with
       | Attack, VEnt a :: _ => upd a (with_should_exit_combat true) g
       | _, _ => g
       end;
     queued := queued quiet;
     zone_setter := move_zone;
     discard := discard quiet;
     draw := draw quiet;
     _hit := _hit quiet;
     _end_turn := _end_turn quiet;
     process_deaths := process_deaths quiet |}.

(** [table] with [player] holding an open choice at address 9. *)
Definition choosing (player : ref) : Game :=
  upd player (with_choice (Some 9%positive)) table.

(** [table] with player 1 unable to take fatigue damage. *)
Definition tireless : Game :=
  upd 1%positive
    (λ e, mkEntity (type e) (zone e) (controller e) (atk e)
            (attack_target e) (defending e) (num_attacks e)
            (should_exit_combat e) (predamage e)
            (incoming_damage_multiplier e) (stealthed e) (hand e)
            (deck e) (max_hand_size e) (choice e) (fatigue_counter e)
            true (hero e))
    table.

(** [table] with player 1 holding cards 7 and 8, and room for three. *)
Definition crowded : Game :=
  upd player1
    (λ e, mkEntity (type e) (zone e) (controller e) (atk e)
            (attack_target e) (defending e) (num_attacks e)
            (should_exit_combat e) (predamage e)
            (incoming_damage_multiplier e) (stealthed e) [card7; card8]
            (deck e) 3 (choice e) (fatigue_counter e)
            (cant_fatigue e) (hero e))
    table.

(** A stored instance [Hit(TARGET, 2)] to derive from. *)
Definition hit_3_2 : ActionObj := construct Hit [VEnt 3; VInt 2] ∅.
Definition one_action : gmap positive ActionObj := {[ 1%positive := hit_3_2 ]}.

(** Two selectors: 0 selects the source out of the pool, any other
    selects the whole pool. *)
Definition sel (s : selector) (pool : list value) (source : ref)
    : list value :=
  match s with
  | O => filter (λ v, v = VEnt source) pool
  | _ => pool
  end.

End Sample.

(** ** Well-formed instances *)

(** What [__init__] establishes and no method of the module undoes: a
    [TargetedAction] carries [source] and [trigger_index] and its stored
    keyword arguments do not hold [source]; the other classes carry
    neither attribute. *)
Definition constructed (o : ActionObj) : Prop :=
  if is_targeted (cls o)
  then is_Some (targeted o) ∧ _kwargs o !! "source"%string = None
  else targeted o = None.

(** What [a.then(rs)] builds from the instance [o] at [a]: a new
    instance of the class, from the stored arguments, with the callback
    and the repeat count assigned afterwards. *)
Definition derived (o : ActionObj) (rs : list value) : ActionObj :=
  set_times (times o)
    (set_callback rs (construct (cls o) (_args o) (_kwargs o))).

(** What the specification asks [a.then(rs)] to return, for an [a] that
    was built as [c(args, kwargs)] and has the repeat count [t]: an
    instance built from those original arguments, with the callback and
    the repeat count assigned afterwards. *)
Definition rebuilt (c : ActionClass) (args : list value)
    (kwargs : gmap string value) (rs : list value) (t : value) : ActionObj :=
  set_times t (set_callback rs (construct c args kwargs)).

(** ** More of the module *)

(** *** Further exceptions *)

(** Besides the exceptions above: indexing past the end of a sequence, a
    shift by a negative count, a missing script. *)
Inductive error : Type :=
| Known (e : exn)
| IndexError
| ValueError
| NotImplementedError.

Inductive outcome (A : Type) : Type :=
| Done (a : A)
| Raised (e : error).
Arguments Done {A} a.
Arguments Raised {A} e.

Definition of_res {A} (r : res A) : outcome A :=
  match r with
  | Val a => Done a
  | Exc e => Raised (Known e)
  end.

(** *** The class hierarchy and the argument names *)

(** The base class in the [class] statement of each action. *)
Definition parent (c : ActionClass) : option ActionClass :=
  match c with
  | Action => None
  | GameAction | TargetedAction => Some Action
  | _ => if is_targeted c then Some TargetedAction else Some GameAction
  end.

(** [issubclass(c, d)]; the hierarchy is three levels deep. *)
Definition issubclass (c d : ActionClass) : bool :=
  bool_decide (c = d) ||
  match parent c with
  | None => false
  | Some p =>
      bool_decide (p = d) ||
      match parent p with
      | None => false
      | Some q => bool_decide (q = d)
      end
  end.

(** [isinstance(o, c)] *)
Definition isinstance (o : ActionObj) (c : ActionClass) : bool :=
  issubclass (cls o) c.

(** The [ARGS] tuple of each class, its own or the inherited one. *)
Definition ARGS (c : ActionClass) : list string :=
  match c with
  | Action | GameAction | Deaths => []
  | Attack => ["ATTACKER"; "DEFENDER"]
  | BeginTurn | Concede | EndTurn | MulliganChoice => ["PLAYER"]
  | Death => ["ENTITY"]
  | Joust => ["CHALLENGER"; "DEFENDER"]
  | GenericChoice => ["PLAYER"; "CARDS"]
  | Play => ["PLAYER"; "CARD"; "TARGET"; "INDEX"; "CHOOSE"]
  | Activate => ["PLAYER"; "CARD"; "TARGET"]
  | Overload => ["PLAYER"; "AMOUNT"]
  | TargetedAction | Bounce | Counter | Deathrattle | Destroy | Discard
  | Fatigue | ForceDraw | FullHeal | Reveal | Silence | UnlockOverload =>
      ["TARGET"]
  | Buff => ["TARGET"; "BUFF"]
  | CopyDeathrattles => ["TARGET"; "DEATHRATTLES"]
  | Predamage | Damage | DrawUntil | GainArmor | GainMana | GainEmptyMana
  | Hit | Heal | ManaThisTurn | Mill | FillMana | SetCurrentHealth =>
      ["TARGET"; "AMOUNT"]
  | Battlecry => ["CARD"; "TARGET"]
  | Discover => ["TARGET"; "CARDS"]
  | Draw | Give | Morph | Retarget | Summon | Shuffle => ["TARGET"; "CARD"]
  | SetTag | UnsetTag => ["TARGET"; "TAGS"]
  | Swap => ["TARGET"; "OTHER"]
  | SwapHealth => ["TARGET"; "OTHER"; "BUFF"]
  | Steal => ["TARGET"; "CONTROLLER"]
  end%string.

(** [ActionArg]: the lazily evaluated argument [cls.name] of an action. *)
Record ActionArg : Type := mkActionArg {
  name : string;
  index : nat;
  arg_cls : ActionClass
}.

(** The loop that closes the module, for one class [v]:
    [for i, arg in enumerate(v.ARGS): setattr(v, arg, ActionArg(arg, i, v))].
    [attrs] are the attributes set so far, [i] the position reached. *)
Fixpoint register (v : ActionClass) (args : list string) (i : nat)
    (attrs : gmap string ActionArg) : gmap string ActionArg :=
  match args with
  | [] => attrs
  | arg :: rest =>
      register v rest (S i) (<[arg := mkActionArg arg i v]> attrs)
  end.

(** The argument attributes of class [v] once the module is loaded. *)
Definition registered (v : ActionClass) : gmap string ActionArg :=
  register v (ARGS v) 0 ∅.

(** [ActionArg.evaluate(self, source)], where [event_args] is
    [source.event_args]: [None] outside the dispatch of an event. *)
Definition evaluate (self : ActionArg) (event_args : option (list value))
    : outcome value :=
  match event_args with
  | None | Some [] => Raised (Known AssertionError)
  | Some l =>
      match l !! index self with
      | Some v => Done v
      | None => Raised IndexError
      end
  end.

(** *** The broadcaster *)

#[global] Instance Phase_eq_dec : EqDecision Phase.
Proof. solve_decision. Defined.

(** [EventListener] *)
Record EventListener : Type := mkEventListener {
  trigger : ActionObj;
  actions : list value;
  at_ : Phase;
  once : bool
}.

(** [Action.after(self, *actions)] and [Action.on(self, *actions)] *)
Definition after (self : ActionObj) (acts : list value) : EventListener :=
  mkEventListener self acts AFTER false.

Definition on (self : ActionObj) (acts : list value) : EventListener :=
  mkEventListener self acts ON false.

(** One call of [entity.trigger_event(source, event, args)]. *)
Record Firing : Type := mkFiring {
  f_entity : ref;
  f_source : ref;
  f_event : EventListener;
  f_args : list value
}.

Section Broadcaster.

(** [entity.events], [game.entities] and [game.hands], of the entity
    layer; the selectors of the dsl, evaluated in a game; and what the
    response of a listener does to the game. *)
Variable events : ref → Game → list EventListener.
Variable entities hands : Game → list ref.
Variable sel_eval_in : Game → selector → list value → ref → list value.
Variable trigger_event :
  ref → ref → EventListener → list value → Game → Game.

(** The state of a broadcast: the game and the listeners fired so far. *)
Definition BState : Type := Game * list Firing.

(** The loop of [Action._broadcast] over the listeners of [entity], read
    when the loop starts. *)
Fixpoint _broadcast_events (c : ActionClass) (entity source : ref)
    (at' : Phase) (args : list value) (evs : list EventListener)
    (b : BState) : outcome unit * BState :=
  match evs with
  | [] => (Done tt, b)
  | event :: rest =>
      if negb (bool_decide (at_ event = at')) then
        _broadcast_events c entity source at' args rest b
      else if negb (isinstance (trigger event) c) then
        _broadcast_events c entity source at' args rest b
      else
        match matches (sel_eval_in b.1) (trigger event) entity args with
        | Exc e => (Raised (Known e), b)
        | Val false => _broadcast_events c entity source at' args rest b
        | Val true =>
            _broadcast_events c entity source at' args rest
              (trigger_event entity source event args b.1,
               b.2 ++ [mkFiring entity source event args])
        end
  end.

(** [Action._broadcast(self, entity, source, at, *args)] *)
Definition Action_broadcast (c : ActionClass) (entity source : ref)
    (at' : Phase) (args : list value) (b : BState)
    : outcome unit * BState :=
  _broadcast_events c entity source at' args (events entity b.1) b.

(** [self._broadcast(entity, source, at, *args)] on an action of class
    [c]: [Play] and [Summon] override it to leave out the entity that is
    their second argument. *)
Definition _broadcast (c : ActionClass) (entity source : ref)
    (at' : Phase) (args : list value) (b : BState)
    : outcome unit * BState :=
  if bool_decide (c = Play) || bool_decide (c = Summon) then
    match args !! 1%nat with
    | None => (Raised IndexError, b)
    | Some a =>
        if is_ (VEnt entity) a then (Done tt, b)
        else Action_broadcast c entity source at' args b
    end
  else Action_broadcast c entity source at' args b.

(** [for entity in pool: self._broadcast(entity, source, at, *args)] *)
Fixpoint broadcast_over (c : ActionClass) (source : ref) (at' : Phase)
    (args : list value) (pool : list ref) (b : BState)
    : outcome unit * BState :=
  match pool with
  | [] => (Done tt, b)
  | entity :: rest =>
      match _broadcast c entity source at' args b with
      | (Done _, b') => broadcast_over c source at' args rest b'
      | (Raised e, b') => (Raised e, b')
      end
  end.

(** [Action.broadcast(self, source, at, *args)]: the entities of the
    game, then the cards in the hands. *)
Definition Action_broadcast_all (c : ActionClass) (source : ref)
    (at' : Phase) (args : list value) (b : BState)
    : outcome unit * BState :=
  match broadcast_over c source at' args (entities b.1) b with
  | (Done _, b') => broadcast_over c source at' args (hands b'.1) b'
  | (Raised e, b') => (Raised e, b')
  end.



End Broadcaster.

(** *** A wider state *)

(** Python values that can be lists, as results and resolved arguments
    are. *)
#[warnings="-register-all"]
Inductive obj : Type :=
| OVal (v : value)
| OList (l : list obj).

Definition OEnts (l : list ref) : obj := OList ((λ r, OVal (VEnt r)) <$> l).

Definition ONone : obj := OVal VNone.

(** The calls out of the module, with three kinds the record of [Event]
    does not have: a method of the entity layer, [queue_actions] with
    [event_args], and the [trigger] of another action. *)
Inductive Call : Type :=
| Recorded (e : Event)
| CallMethod (o : ref) (method_name : string) (args : list value)
| CallQueue (source : ref) (action : value) (event_args : list obj)
| CallTrigger (a : aref) (source : ref).

(** What the collaborators see and change: the game; and the attributes
    of entities that are not among those of [Entity], by name, those that
    hold a number or a boolean (the number 0 or 1, as in Python) apart
    from those that hold an entity or [None]. *)
Record Scene : Type := mkScene {
  sc_game : Game;
  sc_ints : ref → string → Z;
  sc_objs : ref → string → value
}.

(** The state of the wider actions: the scene, the Action instances, which
    only the actions themselves change, and the calls made. *)
Record World : Type := mkWorld {
  scene : Scene;
  acts : gmap positive ActionObj;
  calls : list Call
}.

(** [r.name = v] for an attribute that holds a number. *)
Definition set_int (r : ref) (n : string) (v : Z) (x : Scene) : Scene :=
  mkScene (sc_game x)
    (λ r' n', if bool_decide (r' = r ∧ n' = n) then v else sc_ints x r' n')
    (sc_objs x).

(** [r.name = v] for an attribute that holds an entity or [None]. *)
Definition set_obj (r : ref) (n : string) (v : value) (x : Scene) : Scene :=
  mkScene (sc_game x) (sc_ints x)
    (λ r' n', if bool_decide (r' = r ∧ n' = n) then v else sc_objs x r' n').

(** An attribute write of the first kind. *)
Definition set_ent (r : ref) (f : Entity → Entity) (x : Scene) : Scene :=
  mkScene (upd r f (sc_game x)) (sc_ints x) (sc_objs x).

(** What a lazy value gives where entities are expected: nothing, one
    entity, or a list of entities. *)
Inductive found : Type :=
| FoundNone
| FoundOne (e : ref)
| FoundMany (l : list ref).

(** The collaborators of the wider actions.  They act on the scene. *)
Record Layer : Type := mkLayer {
  (** the collaborators of the actions above *)
  base : Collab;
  (** the responses of the listeners that a broadcast reaches *)
  on_broadcast : ActionClass → ref → Phase → list value → Scene → Scene;
  (** [game.queue_actions(source, actions)] *)
  on_queue : ref → list ActionObj → Scene → list obj * Scene;
  (** [game.queue_actions(source, [action], event_args=...)] *)
  queued_with : ref → value → list obj → Scene → list obj * Scene;
  (** [action.trigger(source)], for another action *)
  triggered : aref → ref → Scene → list obj * Scene;
  (** the setter of the [zone] property *)
  on_zone : ref → Zone → Scene → Scene;
  (** a method of an entity *)
  method : ref → string → list value → Scene → value * Scene;
  (** [v.eval(source.game, source)], an error where [v] has no [eval] *)
  eval_in_game : value → ref → Scene → outcome (list ref);
  (** [lazy.evaluate(source)] *)
  lazy_evaluate : lazyvalue → ref → Scene → obj;
  (** [lazy.evaluate(source)] where targets are expected *)
  lazy_targets : lazyvalue → ref → Scene → found;
  (** [source.get_damage(amount, target)] *)
  get_damage : ref → Z → ref → Scene → Z;
  (** [card.is_summonable()] *)
  is_summonable : ref → Scene → bool;
  (** [player.field.index(card)]: [None] when the card is not there *)
  field_index : ref → ref → Scene → option nat;
  (** [card.id] *)
  card_id : ref → string;
  (** [player.game], the game as an entity *)
  game_entity : ref
}.

Definition W (A : Type) : Type := World → outcome A * World.

Definition wret {A} (a : A) : W A := λ w, (Done a, w).

Definition wbind {A B} (m : W A) (k : A → W B) : W B :=
  λ w,
    match m w with
    | (Done a, w') => k a w'
    | (Raised e, w') => (Raised e, w')
    end.

#[global] Instance W_ret : MRet W := @wret.
#[global] Instance W_bind : MBind W := λ A B k m, wbind m k.

Definition wraise {A} (e : error) : W A := λ w, (Raised e, w).

Definition wgets {A} (f : Scene → A) : W A := λ w, (Done (f (scene w)), w).

Definition wmodify (f : Scene → Scene) : W unit :=
  λ w, (Done tt, mkWorld (f (scene w)) (acts w) (calls w)).

(** A call whose result and effect the collaborator decides. *)
Definition wcall {A} (c : Call) (f : Scene → A * Scene) : W A :=
  λ w,
    let '(a, x) := f (scene w) in
    (Done a, mkWorld x (acts w) (calls w ++ [c])).

(** A call for its effect alone. *)
Definition wdo (c : Call) (f : Scene → Scene) : W unit :=
  wcall c (λ x, (tt, f x)).

(** [assert b] *)
Definition wassert (b : bool) : W unit :=
  if b then wret tt else wraise (Known AssertionError).

(** An action of the first kind, run in the wider state. *)
Definition lift {A} (m : M A) : W A :=
  λ w,
    let '(r, s) := m (mkState (sc_game (scene w)) []) in
    (of_res r,
     mkWorld (mkScene (game s) (sc_ints (scene w)) (sc_objs (scene w)))
       (acts w) (calls w ++ (Recorded <$> trace s))).

(** Reading attributes; the truth value of a number. *)
Definition int_attr (r : ref) (n : string) : W Z :=
  wgets (λ x, sc_ints x r n).

Definition obj_attr (r : ref) (n : string) : W value :=
  wgets (λ x, sc_objs x r n).

Definition wattr {A} (r : ref) (f : Entity → A) : W A :=
  wgets (λ x, f (ent (sc_game x) r)).

Definition truthy (z : Z) : bool := bool_decide (z ≠ 0).

(** The truth value of a value: [None], the number 0 and the empty
    string are false, an object is true. *)
Definition present (v : value) : bool :=
  match v with
  | VNone => false
  | VInt z => truthy z
  | VStr EmptyString => false
  | _ => true
  end.

Section Primitives.

Variable L : Layer.

(** [self.broadcast(source, at, *args)] on an action of class [c] *)
Definition wbroadcast (c : ActionClass) (source : ref) (at' : Phase)
    (args : list value) : W unit :=
  wdo (Recorded (EvBroadcast c source at' args))
    (on_broadcast L c source at' args).

(** [source.game.queue_actions(source, actions)] *)
Definition wqueue_actions (source : ref) (actions : list ActionObj)
    : W (list obj) :=
  wcall (Recorded (EvQueue source actions)) (on_queue L source actions).

(** [card.zone = z] *)
Definition wset_zone (card : ref) (z : Zone) : W unit :=
  wdo (Recorded (EvZone card z)) (on_zone L card z).

(** [o.method_name(args)] *)
Definition call_method (o : ref) (n : string) (args : list value)
    : W value :=
  wcall (CallMethod o n args) (method L o n args).

End Primitives.

(** Running from a scene and a store of instances: outcome, final state,
    calls made. *)
Definition wrun {A} (m : W A) (x : Scene) (h : gmap positive ActionObj)
    : outcome A * World :=
  m (mkWorld x h []).

(** *** Deferred broadcasts *)

Definition set_event_queue (q : list (value * list value)) (o : ActionObj)
    : ActionObj :=
  mkActionObj (cls o) (_args o) (_kwargs o) (callback o) (times o) q
    (targeted o).

(** The instance at an address; a dangling address cannot arise. *)
Definition instance (self : aref) : W ActionObj :=
  λ w,
    match acts w !! self with
    | Some o => (Done o, w)
    | None => (Raised (Known AttributeError), w)
    end.

(** An update of the instance at an address. *)
Definition update_instance (self : aref) (f : ActionObj → ActionObj)
    : W unit :=
  λ w, (Done tt, mkWorld (scene w) (alter f self (acts w)) (calls w)).

(** [Action.queue_broadcast(self, obj, args)] *)
Definition queue_broadcast (self : aref) (o : value) (args : list value)
    : W unit :=
  update_instance self
    (λ me, set_event_queue (event_queue me ++ [(o, args)]) me).

(** [EventListener.ON] is 1 and [EventListener.AFTER] is 2. *)
Definition phase_value (p : Phase) : value :=
  match p with
  | ON => VInt 1
  | AFTER => VInt 2
  end.

Definition phase_of (v : value) : option Phase :=
  match v with
  | VInt 1 => Some ON
  | VInt 2 => Some AFTER
  | _ => None
  end.

Section Deferred.

Variable L : Layer.

(** [obj.broadcast] on the [args] of one queued record.  The arguments
    are the source, the phase and the arguments of the event: fewer than
    two do not make a call of [broadcast]; a source that is not an entity
    has no [game]; a phase that is neither [ON] nor [AFTER] is the phase
    of no listener. *)
Definition broadcast_record (rec : value * list value) : W unit :=
  match rec.1 with
  | VAct a =>
      o ← instance a;
      match rec.2 with
      | VEnt source :: at' :: rest =>
          match phase_of at' with
          | Some p => wbroadcast L (cls o) source p rest
          | None => wret tt
          end
      | _ :: _ :: _ => wraise (Known AttributeError)
      | _ => wraise (Known TypeError)
      end
  | _ => wraise (Known AttributeError)
  end.

Fixpoint broadcast_records (q : list (value * list value)) : W unit :=
  match q with
  | [] => wret tt
  | rec :: rest => broadcast_record rec;; broadcast_records rest
  end.

(** [Action.resolve_broadcasts(self)] *)
Definition resolve_broadcasts (self : aref) : W unit :=
  me ← instance self;
  broadcast_records (event_queue me);;
  update_instance self (set_event_queue []).

End Deferred.

(** *** The targeted-action loop *)

(** What [get_target_args] returns: a list, or a tuple as [Swap]'s does
    when there is no other minion.  Both can be unpacked into the
    arguments of [do]; only a list can be added to a list. *)
Inductive targs : Type :=
| TList (l : list obj)
| TTuple (l : list obj).

Definition items (t : targs) : list obj :=
  match t with
  | TList l | TTuple l => l
  end.

Section Trigger.

Variable L : Layer.

(** The two methods of the class of [self] that the loop calls. *)
Variable get_target_args : aref → ref → ref → W targs.
Variable do : aref → ref → ref → list obj → W obj.

(** [TargetedAction.get_targets(self, source, t)]: an entity is its own
    single target; a result that is false (nothing, the empty list) gives
    no target; a result that is not iterable is the single target. *)
Definition get_targets (source : ref) (t : value) : W (list ref) :=
  match t with
  | VEnt e => wret [e]
  | VLazy l =>
      r ← wgets (lazy_targets L l source);
      match r with
      | FoundNone => wret []
      | FoundOne e => wret [e]
      | FoundMany es => wret es
      end
  | _ =>
      r ← wgets (eval_in_game L t source);
      match r with
      | Done es => wret es
      | Raised e => wraise e
      end
  end.

(** What [range] accepts. *)
Definition as_int (o : obj) : W Z :=
  match o with
  | OVal (VInt n) => wret n
  | _ => wraise (Known TypeError)
  end.

(** The repeat count: [self.times], evaluated when it is a lazy value,
    the first result of its [trigger] when it is an action. *)
Definition resolve_times (source : ref) (t : value) : W Z :=
  match t with
  | VLazy l =>
      r ← wgets (lazy_evaluate L l source);
      as_int r
  | VAct a =>
      rs ← wcall (CallTrigger a source) (triggered L a source);
      match rs with
      | [] => wraise IndexError
      | r :: _ => as_int r
      end
  | _ => as_int (OVal t)
  end.

(** The source the action acts from: [self.source], when it is set, must
    select exactly one entity. *)
Definition resolve_source (me : ActionObj) (source : ref) : W ref :=
  match targeted me with
  | None | Some (VNone, _) => wret source
  | Some (redirect, _) =>
      r ← wgets (eval_in_game L redirect source);
      match r with
      | Done [s] => wret s
      | Done _ => wraise (Known AssertionError)
      | Raised e => wraise e
      end
  end.

(** [[target] + target_args]: a [TypeError] when [target_args] is a
    tuple. *)
Definition event_args_of (target : ref) (target_args : targs)
    : W (list obj) :=
  match target_args with
  | TList l => wret (OVal (VEnt target) :: l)
  | TTuple _ => wraise (Known TypeError)
  end.

(** [for action in self.callback: ret += queue_actions(source, [action],
    event_args=[target] + target_args)]; the sum is formed anew for each
    callback, before the call. *)
Fixpoint run_callbacks (source : ref) (cbs : list value)
    (target : ref) (target_args : targs) : W (list obj) :=
  match cbs with
  | [] => wret []
  | action :: rest =>
      event_args ← event_args_of target target_args;
      r ← wcall (CallQueue source action event_args)
            (queued_with L source action event_args);
      rs ← run_callbacks source rest target target_args;
      wret (r ++ rs)
  end.

(** The body of the loop over the targets, for one target. *)
Definition trigger_target (self : aref) (source target : ref)
    : W (list obj) :=
  target_args ← get_target_args self source target;
  r ← do self source target (items target_args);
  me ← instance self;
  rs ← run_callbacks source (callback me) target target_args;
  wret (r :: rs).

Fixpoint trigger_targets (self : aref) (source : ref) (targets : list ref)
    : W (list obj) :=
  match targets with
  | [] => wret []
  | target :: rest =>
      r ← trigger_target self source target;
      rs ← trigger_targets self source rest;
      wret (r ++ rs)
  end.

Definition set_trigger_index (i : Z) (o : ActionObj) : ActionObj :=
  set_targeted (Some (default VNone (fst <$> targeted o), i)) o.

(** The body of [for i in range(times)], for one [i]. *)
Definition trigger_once (self : aref) (source : ref) (i : nat)
    : W (list obj) :=
  update_instance self (set_trigger_index (Z.of_nat i));;
  me ← instance self;
  match _args me with
  | [] => wraise IndexError
  | t :: args =>
      targets ← get_targets source t;
      lift (emit (EvAction (cls me) source (Some targets) args));;
      r ← trigger_targets self source targets;
      me ← instance self;
      lift (emit (EvActionEnd (cls me) source (Some targets) (_args me)));;
      wret r
  end.

Fixpoint trigger_from (self : aref) (source : ref) (i n : nat)
    : W (list obj) :=
  match n with
  | O => wret []
  | S n =>
      r ← trigger_once self source i;
      rs ← trigger_from self source (S i) n;
      wret (r ++ rs)
  end.

(** [TargetedAction.trigger(self, source)] *)
Definition TargetedAction_trigger (self : aref) (source : ref)
    : W (list obj) :=
  me ← instance self;
  source ← resolve_source me source;
  me ← instance self;
  n ← resolve_times source (times me);
  r ← trigger_from self source 0 (Z.to_nat n);
  resolve_broadcasts L self;;
  wret r.

End Trigger.

(** *** Cards as arguments *)

Section Cards.

Variable L : Layer.

(** The loop of [_eval_card]: a string is the id of a card to create, by
    the controller of the source; anything else is kept. *)
Fixpoint materialize (source : ref) (cards : list obj) : W (list obj) :=
  match cards with
  | [] => wret []
  | card :: rest =>
      c ← match card with
          | OVal (VStr id) =>
              ctl ← wattr source controller;
              v ← call_method L ctl "card" [VStr id; VEnt source];
              wret (OVal v)
          | _ => wret card
          end;
      cs ← materialize source rest;
      wret (c :: cs)
  end.

(** [_eval_card(source, card)] *)
Definition _eval_card (source : ref) (card : obj) : W (list obj) :=
  card ← match card with
         | OVal (VLazy l) => wgets (lazy_evaluate L l source)
         | _ => wret card
         end;
  card ← match card with
         | OVal (VAct a) =>
             rs ← wcall (CallTrigger a source) (triggered L a source);
             match rs with
             | [] => wraise IndexError
             | r :: _ => wret r
             end
         | _ => wret card
         end;
  let cards :=
    match card with
    | OList l => l
    | _ => [card]
    end in
  materialize source cards.

(** One turn of the loop of [TargetedAction.get_target_args], for the
    argument [v] named [k]. *)
Definition resolve_arg (source : ref) (k : string) (v : value) : W obj :=
  match v with
  | VSel _ =>
      r ← wgets (eval_in_game L v source);
      match r with
      | Done es => wret (OEnts es)
      | Raised e => wraise e
      end
  | VLazy l => wgets (lazy_evaluate L l source)
  | _ =>
      if String.prefix "CARD" k then
        cs ← _eval_card source (OVal v);
        wret (OList cs)
      else wret (OVal v)
  end.

Fixpoint resolve_args (source : ref) (kvs : list (string * value))
    : W (list obj) :=
  match kvs with
  | [] => wret []
  | (k, v) :: rest =>
      a ← resolve_arg source k v;
      r ← resolve_args source rest;
      wret (a :: r)
  end.

(** [TargetedAction.get_target_args(self, source, target)], for the
    classes that do not override it. *)
Definition TargetedAction_get_target_args (self : aref)
    (source target : ref) : W (list obj) :=
  me ← instance self;
  resolve_args source (zip (tail (ARGS (cls me))) (tail (_args me))).

End Cards.

(** *** More actions *)

Section MoreActions.

Variable L : Layer.

(** [x[0][0]] on the results of [queue_actions]. *)
Definition first_of_first (rs : list obj) : W obj :=
  match rs with
  | [] => wraise IndexError
  | OVal _ :: _ => wraise (Known TypeError)
  | OList [] :: _ => wraise IndexError
  | OList (r :: _) :: _ => wret r
  end.

(** [Hit.do(self, source, target, amount)] *)
Definition Hit_do (source target : ref) (amount : Z) : W obj :=
  amount ← wgets (get_damage L source amount target);
  if truthy amount then
    rs ← wqueue_actions L source
           [construct Predamage [VEnt target; VInt amount] ∅];
    first_of_first rs
  else wret (OVal (VInt 0)).

(** [Heal.do(self, source, target, amount)] *)
Definition Heal_do (self : aref) (source target : ref) (amount : Z)
    : W obj :=
  c ← wattr source controller;
  adjust ← int_attr c "outgoing_healing_adjustment";
  if truthy adjust then
    rs ← wqueue_actions L source [construct Hit [VEnt target; VInt amount] ∅];
    wret (OList rs)
  else
    double ← int_attr c "healing_double";
    if bool_decide (double < 0) then wraise ValueError
    else
      let amount := Z.shiftl amount double in
      damage ← int_attr target "damage";
      let amount := Z.min amount damage in
      if truthy amount then
        damage ← int_attr target "damage";
        wmodify (set_int target "damage" (damage - amount));;
        queue_broadcast self (VAct self)
          [VEnt source; phase_value ON; VEnt target; VInt amount];;
        wret ONone
      else wret ONone.

(** [TargetedAction.eval(self, selector, source)] *)
Definition TargetedAction_eval (selector : value) (source : ref)
    : W (list ref) :=
  match selector with
  | VEnt e => wret [e]
  | _ =>
      r ← wgets (eval_in_game L selector source);
      match r with
      | Done es => wret es
      | Raised e => wraise e
      end
  end.

(** [Steal.get_target_args(self, source, target)] *)
Definition Steal_get_target_args (self : aref) (source target : ref)
    : W ref :=
  me ← instance self;
  match _args me with
  | _ :: c :: _ =>
      cs ← TargetedAction_eval c source;
      match cs with
      | [c] => wret c
      | _ => wraise (Known AssertionError)
      end
  | _ => wattr source controller
  end.

(** [Steal.do(self, source, target, controller)] *)
Definition Steal_do (source target new_controller : ref) : W obj :=
  z ← wattr target zone;
  wset_zone L target SETASIDE;;
  wmodify (set_ent target (with_controller new_controller));;
  wmodify (set_int target "turns_in_play" 0);;
  wset_zone L target z;;
  wret ONone.

(** [Swap.get_target_args(self, source, target)]: [None] stands for the
    missing other minion. *)
Definition Swap_get_target_args (self : aref) (source target : ref)
    : W (option ref) :=
  me ← instance self;
  match _args me with
  | _ :: o :: _ =>
      os ← TargetedAction_eval o source;
      match os with
      | [] => wret None
      | [o] => wret (Some o)
      | _ => wraise (Known AssertionError)
      end
  | _ => wraise IndexError
  end.

(** [Swap.do(self, source, target, other)] *)
Definition Swap_do (source target : ref) (other : option ref) : W obj :=
  match other with
  | None => wret ONone
  | Some other =>
      orig ← wattr target zone;
      theirs ← wattr other zone;
      wset_zone L target theirs;;
      wset_zone L other orig;;
      wret ONone
  end.

(** [DrawUntil.do(self, source, target, amount)]; [Draw(target) *
    difference] is a new instance with its [times] set. *)
Definition DrawUntil_do (source target : ref) (amount : Z) : W obj :=
  h ← wattr target hand;
  let difference := Z.max 0 (amount - Z.of_nat (length h)) in
  if bool_decide (0 < difference) then
    rs ← wqueue_actions L source
           [set_times (VInt difference) (construct Draw [VEnt target] ∅)];
    wret (OList rs)
  else wret ONone.

(** The body of the loop of [Summon.do], for one card. *)
Definition Summon_card (self : aref) (source target : ref) (card : obj)
    : W unit :=
  match card with
  | OVal (VEnt card) =>
      ok ← wgets (is_summonable L card);
      if negb ok then wret tt
      else
        c ← wattr card controller;
        (if bool_decide (c ≠ target)
         then wmodify (set_ent card (with_controller target))
         else wret tt);;
        z ← wattr card zone;
        (if bool_decide (z ≠ PLAY) then
           t ← wattr source type;
           sz ← wattr source zone;
           (if bool_decide (t = MINION) && bool_decide (sz = PLAY) then
              sc ← wattr source controller;
              i ← wgets (field_index L sc source);
              match i with
              | None => wraise ValueError
              | Some i =>
                  me ← instance self;
                  let ti := default 0 (snd <$> targeted me) in
                  wmodify (set_obj card "_summon_index"
                             (VInt (Z.of_nat i + (ti + 1) `mod` 2)))
              end
            else wret tt);;
           wset_zone L card PLAY
         else wret tt);;
        me ← instance self;
        queue_broadcast self (VAct self)
          [VEnt source; phase_value ON; VEnt target; VEnt card];;
        wbroadcast L (cls me) source AFTER [VEnt target; VEnt card]
  | _ => wraise (Known AttributeError)
  end.

Fixpoint Summon_cards (self : aref) (source target : ref)
    (cards : list obj) : W unit :=
  match cards with
  | [] => wret tt
  | card :: rest =>
      Summon_card self source target card;;
      Summon_cards self source target rest
  end.

(** [Summon.do(self, source, target, cards)] *)
Definition Summon_do (self : aref) (source target : ref) (cards : obj)
    : W obj :=
  let cards :=
    match cards with
    | OList l => l
    | _ => [cards]
    end in
  Summon_cards self source target cards;;
  wret (OList cards).

End MoreActions.

(** *** The mulligan *)

Section Mulligan.

Variable L : Layer.

(** [Mulligan.INPUT] and [Mulligan.DONE], of [hearthstone.enums]. *)
Variable INPUT DONE : Z.

(** [MulliganChoice.do(self, source, player)]; the result is what is
    stored as [self.cards], the hand without The Coin. *)
Definition MulliganChoice_do (self : aref) (source player : ref)
    : W (list ref) :=
  wmodify (set_int player "mulligan_state" INPUT);;
  wmodify (set_ent player (with_choice (Some self)));;
  h ← wattr player hand;
  wret (filter (λ c, card_id L c ≠ "GAME_005"%string) h).

(** The loop of [MulliganChoice.choose] over the chosen cards. *)
Fixpoint mulligan_loop (offered cards : list ref) : W unit :=
  match cards with
  | [] => wret tt
  | card :: rest =>
      wassert (bool_decide (card ∈ offered));;
      wset_zone L card DECK;;
      mulligan_loop offered rest
  end.

(** [MulliganChoice.choose(self, *cards)], with [self.player = player]
    and [self.cards = offered]. *)
Definition MulliganChoice_choose (player : ref) (offered cards : list ref)
    : W unit :=
  call_method L player "draw" [VInt (Z.of_nat (length cards))];;
  mulligan_loop offered cards;;
  wmodify (set_ent player (with_choice None));;
  call_method L player "shuffle_deck" [];;
  wmodify (set_int player "mulligan_state" DONE).

End Mulligan.

(** *** Play *)

Section Playing.

Variable L : Layer.

(** A new instance, at an address not in use. *)
Definition new_instance (o : ActionObj) : W aref :=
  λ w,
    let '(l, h) := alloc o (acts w) in
    (Done l, mkWorld (scene w) h (calls w)).

(** [Play.do(self, source, player, card, target, index, choose)], first
    part: the cost is paid, the card enters play, and the listeners hear
    of the play and then of the summon that the play stands for. *)
Definition Play_enter (self : aref) (source player card : ref)
    (target index choose : value) : W aref :=
  cost ← int_attr card "cost";
  call_method L player "pay_mana" [VInt cost];;
  wmodify (set_obj card "target" target);;
  wmodify (set_obj card "_summon_index" index);;
  wmodify (set_int (game_entity L) "no_aura_refresh" 1);;
  wset_zone L card PLAY;;
  summon_action ← new_instance (construct Summon [VEnt player; VEnt card] ∅);
  queue_broadcast self (VAct summon_action)
    [VEnt player; phase_value ON; VEnt player; VEnt card];;
  me ← instance self;
  wbroadcast L (cls me) player ON [VEnt player; VEnt card; target];;
  resolve_broadcasts L self;;
  wmodify (set_int (game_entity L) "no_aura_refresh" 0);;
  call_method L (game_entity L) "refresh_auras" [];;
  wret summon_action.

(** Second part: unless the card was countered, its battlecry is queued
    and the listeners hear that the summon and the play are over; the
    counters of the player are kept in both cases. *)
Definition Play_resolve (self summon_action : aref)
    (source player card : ref) (target index choose : value) : W unit :=
  cant_play ← int_attr card "cant_play";
  (if negb (truthy cant_play) then
     let battlecry_card := if present choose then choose else VEnt card in
     t ← obj_attr card "target";
     wqueue_actions L card [construct Battlecry [battlecry_card; t] ∅];;
     morphed ← obj_attr card "morphed";
     let played_minion := if present morphed then morphed else VEnt card in
     them ← instance summon_action;
     wbroadcast L (cls them) player AFTER [VEnt player; played_minion];;
     me ← instance self;
     wbroadcast L (cls me) player AFTER [VEnt player; played_minion; target]
   else wret tt);;
  wmodify (set_int player "combo" 1);;
  wmodify (set_obj player "last_card_played" (VEnt card));;
  n ← int_attr player "cards_played_this_turn";
  wmodify (set_int player "cards_played_this_turn" (n + 1));;
  t ← wattr card type;
  (if bool_decide (t = MINION) then
     n ← int_attr player "minions_played_this_turn";
     wmodify (set_int player "minions_played_this_turn" (n + 1))
   else wret tt);;
  wmodify (set_obj card "target" VNone);;
  wmodify (set_obj card "choose" VNone).

(** [Play.do(self, source, player, card, target, index, choose)] *)
Definition Play_do (self : aref) (source player card : ref)
    (target index choose : value) : W unit :=
  summon_action ← Play_enter self source player card target index choose;
  Play_resolve self summon_action source player card target index choose.

End Playing.

(** *** Actions that run the scripts of the cards *)

(** What the scripts of the cards and the game give to these actions. *)
Record Scripts : Type := mkScripts {
  (** [card.has_target()] *)
  has_target : ref → Scene → bool;
  (** [card.get_actions(name)]: [None] where the card has no such script *)
  get_actions : ref → string → Scene → option (list ActionObj);
  (** [player.field.filter(has_inspire=True)] *)
  inspiring : ref → Scene → list ref;
  (** [game.process_deaths()] *)
  deaths : Scene → Scene
}.

(** [if actions:] is false on [None] and on an empty sequence. *)
Definition some_actions (actions : option (list ActionObj))
    : list ActionObj :=
  default [] actions.

Definition wset_game (f : Game → Game) : W unit :=
  wmodify (λ x, mkScene (f (sc_game x)) (sc_ints x) (sc_objs x)).

Section Scripted.

Variable L : Layer.
Variable K : Scripts.

(** [source.game.process_deaths()] *)
Definition wprocess_deaths : W unit :=
  wdo (Recorded EvProcessDeaths) (deaths K).

(** [Battlecry.do(self, source, card, target)] *)
Definition Battlecry_do (source card : ref) (target : value) : W obj :=
  player ← wattr card controller;
  needs ← wgets (has_target K card);
  if needs && negb (present target) then wret ONone
  else
    has_combo ← int_attr card "has_combo";
    combo ← int_attr player "combo";
    actions ← (if truthy has_combo && truthy combo
               then wgets (get_actions K card "combo")
               else wgets (get_actions K card "play"));
    match some_actions actions with
    | [] => wret tt
    | actions =>
        wmodify (set_obj source "target" target);;
        wqueue_actions L source actions;;
        extra ← int_attr player "extra_battlecries";
        has_battlecry ← int_attr card "has_battlecry";
        if truthy extra && truthy has_battlecry then
          wqueue_actions L source actions;; wret tt
        else wret tt
    end;;
    wprocess_deaths;;
    overload ← int_attr card "overload";
    if truthy overload then
      wqueue_actions L card
        [construct Overload [VEnt player; VInt overload] ∅];;
      wret ONone
    else wret ONone.

(** The loop of [Activate.do] over the minions with inspire. *)
Fixpoint inspire_loop (minions : list ref) : W (list obj) :=
  match minions with
  | [] => wret []
  | minion :: rest =>
      actions ← wgets (get_actions K minion "inspire");
      match actions with
      | None => wraise NotImplementedError
      | Some [] => inspire_loop rest
      | Some actions =>
          r ← wqueue_actions L minion actions;
          rs ← inspire_loop rest;
          wret (r ++ rs)
      end
  end.

(** [Activate.do(self, source, player, heropower, target)] *)
Definition Activate_do (self : aref) (source player heropower : ref)
    (target : value) : W (list obj) :=
  me ← instance self;
  wbroadcast L (cls me) source ON [VEnt player; VEnt heropower; target];;
  actions ← wgets (get_actions K heropower "activate");
  r ← match some_actions actions with
      | [] => wret []
      | actions => wqueue_actions L heropower actions
      end;
  minions ← wgets (inspiring K player);
  rs ← inspire_loop minions;
  n ← int_attr heropower "activations_this_turn";
  wmodify (set_int heropower "activations_this_turn" (n + 1));;
  wret (r ++ rs).

(** [Morph.do(self, source, target, card)] *)
Definition Morph_do (source target card : ref) : W obj :=
  call_method L target "clear_buffs" [];;
  target_zone ← wattr target zone;
  wset_zone L target SETASIDE;;
  z ← wattr card zone;
  (if bool_decide (z ≠ target_zone) then wset_zone L card target_zone
   else wret tt);;
  wmodify (set_obj target "morphed" (VEnt card));;
  wret (OVal (VEnt card)).

(** The loop of [Shuffle.do]. *)
Fixpoint Shuffle_loop (target : ref) (cards : list ref) : W unit :=
  match cards with
  | [] => wret tt
  | card :: rest =>
      c ← wattr card controller;
      (if bool_decide (c ≠ target)
       then wmodify (set_ent card (with_controller target))
       else wret tt);;
      wset_zone L card DECK;;
      call_method L target "shuffle_deck" [];;
      Shuffle_loop target rest
  end.

(** [Shuffle.do(self, source, target, cards)], on a card or a list of
    cards. *)
Definition Shuffle_do (source target : ref) (cards : list ref) : W obj :=
  Shuffle_loop target cards;; wret ONone.

(** [Retarget.do(self, source, target, new_target)], on the entities the
    second argument selected.  The code reads [target.attacking] of a
    hero or a minion only; the reading has no effect. *)
Definition Retarget_do (source target : ref) (new_target : list ref)
    : W obj :=
  match new_target with
  | [] => wret ONone
  | [new_target] =>
      t ← wattr target type;
      attacking ← int_attr target "attacking";
      (if (bool_decide (t = HERO) || bool_decide (t = MINION))
          && truthy attacking
       then
         d ← wgets (λ x, proposed_defender (sc_game x));
         match d with
         | None => wraise (Known AttributeError)
         | Some d =>
             wmodify (set_ent d (with_defending false));;
             wset_game (set_proposed_defender (Some new_target))
         end
       else wmodify (set_obj target "target" (VEnt new_target)));;
      wret (OVal (VEnt new_target))
  | _ => wraise (Known AssertionError)
  end.

End Scripted.

(** *** Abbreviations used in the further statements *)

(** A deferred broadcast as [queue_broadcast] stores it: the action that
    is to broadcast, then the source, the phase and the arguments. *)
Definition deferred (r : aref * ref * Phase * list value)
    : value * list value :=
  (VAct r.1.1.1, VEnt r.1.1.2 :: phase_value r.1.2 :: r.2).

(** The broadcast that the flush makes of it, given the instances. *)
Definition flushed (h : gmap positive ActionObj)
    (r : aref * ref * Phase * list value) : Call :=
  Recorded (EvBroadcast (default Action (cls <$> h !! r.1.1.1))
              r.1.1.2 r.1.2 r.2).

(** The two methods of [Damage] in the form in which the loop of
    [TargetedAction.trigger] calls them: the target arguments are passed
    on as a list, and a list that does not fit the parameters of [do] is
    a [TypeError]. *)
Definition as_amounts (l : list Z) : list obj := (λ z, OVal (VInt z)) <$> l.

Definition Damage_method_get_target_args (self : aref) (source target : ref)
    : W targs :=
  l ← lift (Damage_get_target_args source target);
  wret (TList (as_amounts l)).

Definition Damage_method_do (C : Collab) (self : aref) (source target : ref)
    (args : list obj) : W obj :=
  match args with
  | [OVal (VInt amount)] =>
      r ← lift (Damage_do C source target amount);
      wret (OVal (VInt r))
  | _ => wraise (Known TypeError)
  end.

(** [TargetedAction.get_target_args] in that form: it returns the list
    it has built. *)
Definition TargetedAction_method_get_target_args (L : Layer) (self : aref)
    (source target : ref) : W targs :=
  l ← TargetedAction_get_target_args L self source target;
  wret (TList l).

(** The two methods of [Swap] in that form: with no other minion
    [get_target_args] returns the tuple [(None, )], otherwise the list
    of the one other minion. *)
Definition Swap_method_get_target_args (L : Layer) (self : aref)
    (source target : ref) : W targs :=
  other ← Swap_get_target_args L self source target;
  match other with
  | None => wret (TTuple [ONone])
  | Some o => wret (TList [OVal (VEnt o)])
  end.

Definition Swap_method_do (L : Layer) (self : aref) (source target : ref)
    (args : list obj) : W obj :=
  match args with
  | [OVal VNone] => Swap_do L source target None
  | [OVal (VEnt o)] => Swap_do L source target (Some o)
  | [_] => wraise (Known AttributeError)
  | _ => wraise (Known TypeError)
  end.

(** The cards that an argument stands for: itself, or its elements when
    it is a list; and the ids among them, in order. *)
Definition given (card : obj) : list obj :=
  match card with
  | OList l => l
  | _ => [card]
  end.

Definition card_ids (cards : list obj) : list string :=
  omap (λ c, match c with
             | OVal (VStr id) => Some id
             | _ => None
             end) cards.

Definition is_id (c : obj) : Prop := ∃ id, c = OVal (VStr id).

(** The calls of [source.controller.card(id, source)] for the ids, one
    after the other from the scene [x], each with what it returned: the
    controller is the one the source has when the call is made. *)
Fixpoint asked (L : Layer) (source : ref) (ids : list string) (x : Scene)
    : list (Call * value) :=
  match ids with
  | [] => []
  | id :: rest =>
      let ctl := controller (ent (sc_game x) source) in
      let r := method L ctl "card" [VStr id; VEnt source] x in
      (CallMethod ctl "card" [VStr id; VEnt source], r.1)
        :: asked L source rest r.2
  end.

(** An argument that is neither a selector nor a lazy value. *)
Definition plain_arg (v : value) : Prop :=
  match v with
  | VSel _ | VLazy _ => False
  | _ => True
  end.

(** [Hit.do] in the form in which the loop calls it. *)
Definition Hit_method_do (L : Layer) (self : aref) (source target : ref)
    (args : list obj) : W obj :=
  match args with
  | [OVal (VInt amount)] => Hit_do L source target amount
  | _ => wraise (Known TypeError)
  end.

(** The call that queues the inspire script of a minion, if it has
    actions. *)
Definition inspired (script : ref → option (list ActionObj)) (m : ref)
    : list Call :=
  match script m with
  | Some (a :: l) => [Recorded (EvQueue m (a :: l))]
  | _ => []
  end.

(** The methods of the entities move no entity and change no
    controller. *)
Definition methods_keep_places (L : Layer) : Prop :=
  ∀ o n args x r,
    zone (ent (sc_game (method L o n args x).2) r) = zone (ent (sc_game x) r) ∧
    controller (ent (sc_game (method L o n args x).2) r) =
      controller (ent (sc_game x) r).

(** What has no [source] redirect. *)
Definition unredirected (me : ActionObj) : Prop :=
  targeted me = None ∨ ∃ i, targeted me = Some (VNone, i).

(** The broadcasts among the calls, in order. *)
Definition broadcasts (cs : list Call)
    : list (ActionClass * Phase * list value) :=
  omap (λ c, match c with
             | Recorded (EvBroadcast k _ p args) => Some (k, p, args)
             | _ => None
             end) cs.

(** The setter of [zone] does its least: the zone of the card reads as
    assigned, the zone of the other entities is unchanged, and who
    controls what is not touched. *)
Definition setter_assigns (L : Layer) : Prop :=
  ∀ card z x,
    zone (ent (sc_game (on_zone L card z x)) card) = z ∧
    (∀ r, r ≠ card →
       zone (ent (sc_game (on_zone L card z x)) r) =
       zone (ent (sc_game x) r)) ∧
    (∀ r, controller (ent (sc_game (on_zone L card z x)) r) =
          controller (ent (sc_game x) r)) ∧
    sc_ints (on_zone L card z x) = sc_ints x.

(** *** A small scene to run the wider actions on *)

Module Demo.

Import Sample.

(** The game of [Sample.table], every further attribute 0 or [None]. *)
Definition stage : Scene :=
  mkScene table (λ _ _, 0) (λ _ _, VNone).

Definition on_game (f : Game → Game) (x : Scene) : Scene :=
  mkScene (f (sc_game x)) (sc_ints x) (sc_objs x).

(** Nothing responds and nothing is queued; selector 0 selects the
    source, selector 1 nothing, the others minions 3 and 4; every card
    is summonable and stands first on the field. *)
Definition plain : Layer :=
  {| base := quiet;
     on_broadcast := λ _ _ _ _ x, x;
     on_queue := λ _ actions x, ((λ _, OList []) <$> actions, x);
     queued_with := λ _ _ _ x, ([], x);
     triggered := λ _ _ x, ([OVal (VInt 2)], x);
     on_zone := λ card z, on_game (move_zone card z);
     method := λ _ _ _ x, (VNone, x);
     eval_in_game := λ v source _,
       match v with
       | VSel 0 => Done [source]
       | VSel 1 => Done []
       | VSel _ => Done [minion3; minion4]
       | _ => Raised (Known AttributeError)
       end;
     lazy_evaluate := λ _ _ _, OVal (VInt 2);
     lazy_targets := λ _ _ _, FoundNone;
     get_damage := λ _ amount _ _, amount;
     is_summonable := λ _ _, true;
     field_index := λ _ _ _, Some 0%nat;
     card_id := λ c, if bool_decide (c = card8) then "GAME_005"%string
                     else "CS2_231"%string;
     game_entity := 100%positive |}.

(** Listeners on [Play] counter the card played; otherwise [plain]. *)
Definition countering : Layer :=
  {| base := quiet;
     on_broadcast := λ c _ p args x,
       match c, p, args with
       | Play, ON, _ :: VEnt card :: _ => set_int card "cant_play" 1 x
       | _, _, _ => x
       end;
     on_queue := on_queue plain;
     queued_with := queued_with plain;
     triggered := triggered plain;
     on_zone := on_zone plain;
     method := method plain;
     eval_in_game := eval_in_game plain;
     lazy_evaluate := lazy_evaluate plain;
     lazy_targets := lazy_targets plain;
     get_damage := get_damage plain;
     is_summonable := is_summonable plain;
     field_index := field_index plain;
     card_id := card_id plain;
     game_entity := game_entity plain |}.

(** An instance of each class used below, at addresses 1 to 4. *)
Definition store : gmap positive ActionObj :=
  {[ 1%positive := construct Damage [VEnt minion4] ∅;
     2%positive := construct Summon [VEnt player1; VEnt card5] ∅;
     3%positive := construct Play [VEnt card5; VNone; VNone; VNone] ∅;
     4%positive := construct Heal [VEnt minion4; VInt 3] ∅ ]}.

(** A listener of minion 4 on damage to itself, one on any attack, after
    it, and one on a play. *)
Definition listeners (r : ref) (g : Game) : list EventListener :=
  if bool_decide (r = minion4) then
    [on (construct Damage [VSel 0] ∅) [];
     after (construct Attack [VNone; VNone] ∅) [];
     on (construct Play [VNone; VNone] ∅) []]
  else [].

(** The game [g] as a scene in which the entity [a] is attacking. *)
Definition attacking_in (a : ref) (g : Game) : World :=
  mkWorld (set_int a "attacking" 1 (mkScene g (λ _ _, 0) (λ _ _, VNone)))
    ∅ [].

(** A listener on attacks that retargets the attack to hero 1; otherwise
    as [quiet]. *)
Definition redirecting : Collab :=
  {| dispatch := λ c source p args g,
       match c, p, args with
       | Attack, ON, [VEnt a; _] =>
           sc_game (scene (Retarget_do source a [hero1]
                             (attacking_in a g)).2)
       | _, _, _ => g
       end;
     queued := queued quiet;
     zone_setter := move_zone;
     discard := discard quiet;
     draw := draw quiet;
     _hit := _hit quiet;
     _end_turn := _end_turn quiet;
     process_deaths := process_deaths quiet |}.

(** The scripts: card 6 needs a target; card 5 hits minion 4 when it is
    played; minion 3 draws a card on inspire, minion 4 has no script at
    all, and every other card has empty scripts.  The minions with
    inspire are [field]. *)
Definition scripts (field : list ref) : Scripts :=
  {| has_target := λ c _, bool_decide (c = card6);
     get_actions := λ c _ _,
       if bool_decide (c = card5)
       then Some [construct Hit [VEnt minion4; VInt 1] ∅]
       else if bool_decide (c = minion3)
       then Some [construct Draw [VEnt player1] ∅]
       else if bool_decide (c = minion4) then None
       else Some [];
     inspiring := λ _ _, field;
     deaths := λ x, x |}.

(** The scene and the instances, with no call made yet. *)
Definition world : World := mkWorld stage store [].

(** Instance 4 with two broadcasts deferred: one by instance 1, then one
    by instance 2. *)
Definition records : list (aref * ref * Phase * list value) :=
  [(1%positive, hero1, ON, [VInt 1]); (2%positive, hero1, AFTER, [])].

Definition waiting : World :=
  mkWorld stage
    (alter (set_event_queue (deferred <$> records)) 4%positive store) [].

(** More instances: at 5 a hit repeated zero times, at 6 a hit from a
    source that selects two entities, at 7 a hit, twice, on a selector
    that selects nothing, at 8 a damage followed by instance 1, at 9 a
    steal with no controller given, at 10 a swap with nothing, at 11 the
    activation of card 7 as a hero power, at 12 a swap with nothing
    followed by instance 1. *)
Definition more : gmap positive ActionObj :=
  <[ 5%positive := set_times (VInt 0)
                     (construct Hit [VEnt minion4; VInt 1] ∅) ]>
  (<[ 6%positive := construct Hit [VEnt minion4; VInt 1]
                      {[ "source"%string := VSel 2 ]} ]>
  (<[ 7%positive := set_times (VInt 2)
                      (construct Hit [VSel 1; VInt 1] ∅) ]>
  (<[ 8%positive := set_callback [VAct 1%positive]
                      (construct Damage [VEnt minion4] ∅) ]>
  (<[ 9%positive := construct Steal [VEnt minion3] ∅ ]>
  (<[ 10%positive := construct Swap [VEnt minion3; VSel 1] ∅ ]>
  (<[ 11%positive := construct Activate [VEnt card7; VNone] ∅ ]>
  (<[ 12%positive := set_callback [VAct 1%positive]
                       (construct Swap [VEnt minion3; VSel 1] ∅) ]>
   store))))))).

Definition crowd : World := mkWorld stage more [].

(** Minion 4 with two points of damage, and an amount of healing doubled
    once by player 1. *)
Definition wounded : World :=
  mkWorld (set_int player1 "healing_double" 1
             (set_int minion4 "damage" 2 stage)) store [].

(** Card 5 countered. *)
Definition countered : World :=
  mkWorld (set_int card5 "cant_play" 1 stage) store [].

End Demo.

(** * Properties *)

(** ** Derivation and multiplication of actions *)

Lemma construct_constructed c args kwargs :
  constructed (construct c args kwargs).
Proof.
  unfold constructed, construct.
  destruct (is_targeted c) eqn:Hc; simpl; rewrite Hc.
  - split; [eauto | apply lookup_delete_eq].
  - reflexivity.
Qed.

Lemma then_eq (h : astore) a o rs :
  h !! a = Some o →
  then_ a rs h =
    Some (fresh (dom h), <[fresh (dom h) := derived o rs]> h).
Proof.
  intros Ha. unfold then_, alloc. rewrite Ha.
  assert (Hne : fresh (dom h) ≠ a).
  { intros <-. pose proof (is_fresh (dom h)) as Hf.
    apply Hf, elem_of_dom. eauto. }
  rewrite lookup_alter_ne by done.
  rewrite lookup_insert_ne by done. rewrite Ha.
  rewrite !alter_insert_eq. reflexivity.
Qed.

(** The fields of the derived instance. *)
Lemma derived_fields o rs :
  constructed o →
  cls (derived o rs) = cls o ∧ _args (derived o rs) = _args o ∧
  _kwargs (derived o rs) = _kwargs o ∧ callback (derived o rs) = rs ∧
  times (derived o rs) = times o ∧ event_queue (derived o rs) = [].
Proof.
  unfold constructed, derived, construct.
  destruct (is_targeted (cls o)); simpl; intros H; repeat split.
  destruct H as [_ H]. by apply delete_id.
Qed.

(** What holds of [a.then(rs)]: it returns a new instance, at an address
    that was not in use and so differs from [a] and from every other
    existing instance; it is of [a]'s class, holds [a]'s stored
    positional and keyword arguments, has [rs] as callback and [a]'s
    [times]; and every instance that existed before, [a] included, is
    unchanged in every field. *)
Theorem then_returns_new_action (h : astore) (a : aref) (o : ActionObj)
    (rs : list value) :
  h !! a = Some o →
  constructed o →
  ∃ r o' h',
    then_ a rs h = Some (r, h') ∧
    r ≠ a ∧ h !! r = None ∧
    h' !! r = Some o' ∧
    o' = derived o rs ∧
    cls o' = cls o ∧ _args o' = _args o ∧ _kwargs o' = _kwargs o ∧
    callback o' = rs ∧ times o' = times o ∧
    h' !! a = Some o ∧
    (∀ l, l ≠ r → h' !! l = h !! l).
Proof.
  intros Ha Hwf.
  pose proof (then_eq h a o rs Ha) as Heq.
  assert (Hfresh : h !! fresh (dom h) = None)
    by apply not_elem_of_dom, is_fresh.
  assert (Hne : fresh (dom h) ≠ a) by (intros E; rewrite E in Hfresh; congruence).
  destruct (derived_fields o rs Hwf) as (? & ? & ? & ? & ? & _).
  exists (fresh (dom h)), (derived o rs), (<[fresh (dom h) := derived o rs]> h).
  repeat split; try done.
  - apply lookup_insert_eq.
  - rewrite lookup_insert_ne; done.
  - intros l Hl. rewrite lookup_insert_ne; done.
Qed.

(** What [then] does not carry over: the [source] redirect of a
    [TargetedAction] was popped from the keyword arguments when [a] was
    built, so the derived instance starts without one, and its
    [trigger_index] starts at 0. *)
Lemma then_resets_source o rs :
  constructed o → is_targeted (cls o) = true →
  targeted (derived o rs) = Some (VNone, 0).
Proof.
  unfold constructed, derived, construct, TargetedAction__init__.
  intros H Ht. rewrite Ht in *. simpl. destruct H as [_ ->]. reflexivity.
Qed.

(** C8: [a.then(rs)] does not build the new action from the original
    arguments of [a] when [a] is a [TargetedAction] that was built with a
    [source]: the constructor popped that keyword, so it is not among the
    stored keyword arguments that [then] passes on.  The instance
    returned has no [source] redirect, where [a] has one, and is not the
    instance that the original arguments give; [a] itself is
    unchanged. *)
Theorem then_drops_source_redirect (h : astore) (a : aref)
    (c : ActionClass) (args : list value) (kwargs : gmap string value)
    (redirect : value) (rs : list value) :
  is_targeted c = true →
  kwargs !! "source"%string = Some redirect →
  redirect ≠ VNone →
  h !! a = Some (construct c args kwargs) →
  ∃ r o' h',
    then_ a rs h = Some (r, h') ∧
    h' !! r = Some o' ∧
    h' !! a = Some (construct c args kwargs) ∧
    targeted (construct c args kwargs) = Some (redirect, 0) ∧
    targeted o' = Some (VNone, 0) ∧
    _kwargs o' = delete "source"%string kwargs ∧
    o' ≠ rebuilt c args kwargs rs (times (construct c args kwargs)).
Proof.
  intros Hc Hk Hr Ha.
  assert (Hfresh : h !! fresh (dom h) = None)
    by apply not_elem_of_dom, is_fresh.
  assert (Hne : fresh (dom h) ≠ a)
    by (intros E; rewrite E in Hfresh; congruence).
  assert (Ht : targeted (construct c args kwargs) = Some (redirect, 0)).
  { unfold construct, TargetedAction__init__. rewrite Hc. simpl.
    by rewrite Hk. }
  assert (Ht' : targeted (derived (construct c args kwargs) rs)
                = Some (VNone, 0)).
  { unfold derived, construct, TargetedAction__init__. rewrite Hc. simpl.
    rewrite Hc. simpl. by rewrite lookup_delete_eq. }
  exists (fresh (dom h)), (derived (construct c args kwargs) rs),
    (<[fresh (dom h) := derived (construct c args kwargs) rs]> h).
  split; [by apply then_eq |].
  split; [apply lookup_insert_eq |].
  split; [by rewrite lookup_insert_ne |].
  split; [exact Ht |]. split; [exact Ht' |]. split.
  - unfold derived, construct, TargetedAction__init__. rewrite Hc. simpl.
    rewrite Hc. simpl. by rewrite delete_delete_eq.
  - intros E. apply (f_equal targeted) in E. rewrite Ht' in E.
    unfold rebuilt in E. simpl in E. rewrite Ht in E. congruence.
Qed.

(** C9: [a * n] on a [TargetedAction] returns [a] itself and assigns [n]
    to its [times] in the store, leaving its other fields and every other
    instance alone; any holder of the same instance reads the new
    [times].  [then], by contrast, returns another address and leaves
    [a] as it was. *)
Theorem mul_mutates_in_place (h : astore) (a : aref) (o : ActionObj)
    (n : value) :
  h !! a = Some o →
  is_targeted (cls o) = true →
  ∃ h',
    __mul__ a n h = Some (Val a, h') ∧
    h' !! a = Some (set_times n o) ∧
    (∀ b, b = a → times <$> h' !! b = Some n) ∧
    (∀ l, l ≠ a → h' !! l = h !! l) ∧
    (∀ rs, ∃ r h'', then_ a rs h = Some (r, h'') ∧ r ≠ a ∧
                    h'' !! a = Some o).
Proof.
  intros Ha Ht. exists (alter (set_times n) a h).
  unfold __mul__. rewrite Ha, Ht.
  assert (Hl : alter (set_times n) a h !! a = Some (set_times n o))
    by (rewrite lookup_alter_eq, Ha; done).
  repeat split; try done.
  - intros b ->. rewrite Hl. done.
  - intros l Hl'. by rewrite lookup_alter_ne.
  - intros rs. rewrite (then_eq h a o rs Ha).
    assert (Hne : fresh (dom h) ≠ a).
    { intros E. pose proof (is_fresh (dom h)) as Hf. rewrite E in Hf.
      apply Hf, elem_of_dom. eauto. }
    eexists _, _. split; [done|]. split; [done|].
    by rewrite lookup_insert_ne.
Qed.

(** ** Trigger patterns *)

Section MatchingProperties.

Variable sel_eval : selector → list value → ref → list value.

Lemma is_true_iff x y : is_ x y = true ↔ x = y.
Proof. unfold is_. apply bool_decide_eq_true. Qed.

(** One step of the loop: the pair is accepted and the loop goes on, or
    the result is not [True]. *)
Lemma accepts_wildcard source arg : accepts sel_eval source VNone arg.
Proof. by left. Qed.

Lemma accepts_None_arg source m :
  accepts sel_eval source m VNone → m = VNone.
Proof. intros [H | (H & _)]; done. Qed.

Lemma accepts_selector source s arg :
  arg ≠ VNone →
  accepts sel_eval source (VSel s) arg ↔
  ∃ r rs, sel_eval s [arg] source = r :: rs ∧ is_ r arg = true.
Proof.
  intros Harg. unfold accepts. split.
  - intros [H | (_ & s' & H & Hh)]; [discriminate |].
    injection H as <-.
    destruct (sel_eval s [arg] source) as [| r rs]; [discriminate |].
    simpl in Hh. injection Hh as ->.
    exists arg, rs. split; [done | by apply is_true_iff].
  - intros (r & rs & Hev & Hi). apply is_true_iff in Hi. subst r.
    right. split; [done |]. exists s. by rewrite Hev.
Qed.

Lemma accepts_shape source m arg :
  accepts sel_eval source m arg → m = VNone ∨ ∃ s, m = VSel s.
Proof. intros [H | (_ & s & H & _)]; eauto. Qed.

(** One step of the loop: the pair is accepted and the loop goes on, or
    the result is not [True]. *)
Lemma matches_loop_cons source arg m rest :
  matches_loop sel_eval source ((arg, m) :: rest) = Val true ↔
  accepts sel_eval source m arg ∧
  matches_loop sel_eval source rest = Val true.
Proof.
  destruct (decide (m = VNone)) as [-> | Hm].
  { simpl. pose proof (accepts_wildcard source arg). tauto. }
  destruct (decide (arg = VNone)) as [-> | Harg].
  { transitivity False.
    - destruct m; simpl; split; done.
    - split; [done | intros [H _]]. by apply accepts_None_arg in H. }
  destruct m as [| e | n | str | s | l | a]; try done;
    try (transitivity False;
         [ destruct arg; simpl; split; done
         | split; [done | intros [H _]];
           apply accepts_shape in H; destruct H as [H | [s H]]; done ]).
  rewrite (accepts_selector source s arg Harg).
  assert (Hstep : matches_loop sel_eval source ((arg, VSel s) :: rest) =
    match sel_eval s [arg] source with
    | [] => Val false
    | r0 :: _ => if negb (is_ r0 arg) then Val false
                 else matches_loop sel_eval source rest
    end) by (destruct arg; done).
  rewrite Hstep.
  destruct (sel_eval s [arg] source) as [| r0 rs].
  - split; [done | intros [(? & ? & ? & _) _]; done].
  - destruct (is_ r0 arg) eqn:Hi; simpl.
    + split; [intros H; split; [eauto | done] | by intros [_ H]].
    + split; [done | intros [(r & rs' & Heq & Hr) _]].
      injection Heq as <- <-. congruence.
Qed.

Lemma matches_loop_true source pairs :
  matches_loop sel_eval source pairs = Val true ↔
  Forall (λ p, accepts sel_eval source p.2 p.1) pairs.
Proof.
  induction pairs as [| [arg m] rest IH].
  - simpl. split; [constructor | done].
  - split.
    + intros H. apply matches_loop_cons in H as [H1 H2].
      constructor; [done | by apply IH].
    + intros H. inversion H as [| ? ? H1 H2]; subst.
      apply matches_loop_cons. split; [done | by apply IH].
Qed.

(** The pairs of [zip], by position. *)
Lemma Forall_zip_lookup {A B} (P : A * B → Prop) (xs : list A)
    (ys : list B) :
  Forall P (zip xs ys) ↔
  ∀ i x y, xs !! i = Some x → ys !! i = Some y → P (x, y).
Proof.
  revert ys. induction xs as [| x xs IH]; intros [| y ys]; simpl.
  - split; [intros _ i ? ? H; by destruct i | constructor].
  - split; [intros _ i ? ? H; by destruct i | constructor].
  - split; [intros _ i ? ? _ H; by destruct i | constructor].
  - split.
    + intros H. inversion H as [| ? ? H0 H1]; subst.
      intros [| i] x' y' Hx Hy; simpl in *.
      * by simplify_eq.
      * by apply (proj1 (IH ys) H1 i).
    + intros H. constructor; [apply (H 0%nat); done |].
      apply IH. intros i x' y'. apply (H (S i)).
Qed.

(** C7: [matches] returns [True] exactly when every pattern argument
    that is paired with a broadcast argument is the wildcard [None] or
    is a selector that, given that argument, selects that very argument;
    so, when a pattern matched, each of its selectors gave back the
    reference-identical broadcast argument at its position; and a [None]
    broadcast argument facing a pattern argument that is not [None]
    never yields [True]. *)
Theorem matches_structural (self : ActionObj) (source : ref)
    (args : list value) :
  (matches sel_eval self source args = Val true ↔
   ∀ i arg m, args !! i = Some arg → _args self !! i = Some m →
     accepts sel_eval source m arg) ∧
  (∀ i arg s, matches sel_eval self source args = Val true →
     args !! i = Some arg → _args self !! i = Some (VSel s) →
     ∃ r rs, sel_eval s [arg] source = r :: rs ∧ is_ r arg = true) ∧
  (∀ i m, args !! i = Some VNone → _args self !! i = Some m →
     m ≠ VNone → matches sel_eval self source args ≠ Val true).
Proof.
  assert (Hiff : matches sel_eval self source args = Val true ↔
    ∀ i arg m, args !! i = Some arg → _args self !! i = Some m →
      accepts sel_eval source m arg).
  { unfold matches. rewrite matches_loop_true.
    apply (Forall_zip_lookup
             (λ p, accepts sel_eval source p.2 p.1)). }
  split; [exact Hiff |]. split.
  - intros i arg s Hm Ha Hp.
    destruct (proj1 Hiff Hm i arg (VSel s) Ha Hp)
      as [H | (_ & s' & H & Hh)]; [discriminate |].
    injection H as <-.
    destruct (sel_eval s [arg] source) as [| r rs]; [discriminate |].
    simpl in Hh. injection Hh as ->.
    exists arg, rs. split; [done | by apply is_true_iff].
  - intros i m Ha Hp Hm Ht.
    destruct (proj1 Hiff Ht i VNone m Ha Hp) as [H | (H & _)]; done.
Qed.

End MatchingProperties.

(** ** Actions on the game *)

(** Unfolding of the monad's operations, so that an action reduces to the
    state it produces. *)
Ltac unfold_m :=
  unfold broadcast, queue_actions, set_zone, attr, gets, modify, emit,
    call, raise, deref, assert_, mbind, M_bind, bind, mret, M_ret, ret
    in *.

Section ActionProperties.

Variable C : Collab.

(** C4: with an open choice, [EndTurn.do] raises [InvalidAction] at its
  first step: the state it leaves is the state it was given and no call
  was made, so no broadcast; triggered through [GameAction.trigger],
  only the manager's notification precedes the error.  With no open
  choice, [EndTurn] returns normally, having broadcast [ON] and ended
  the turn. *)
Theorem EndTurn_rejects_open_choice (source player : ref) (s : State) :
(choice (ent (game s) player) ≠ None →
   EndTurn_do C source player s = (Exc InvalidAction, s) ∧
   EndTurn_trigger C source player s =
     (Exc InvalidAction,
      mkState (game s)
        (trace s ++ [EvAction EndTurn source None [VEnt player]]))) ∧
(choice (ent (game s) player) = None →
   EndTurn_do C source player s =
     (Val tt,
      mkState
        (_end_turn C (dispatch C EndTurn source ON [VEnt player] (game s)))
        (trace s ++ [EvBroadcast EndTurn source ON [VEnt player]]
                 ++ [EvEndTurn])) ∧
   ∃ s', EndTurn_trigger C source player s = (Val tt, s')).
Proof.
split; intros Hc.
- destruct (choice (ent (game s) player)) as [c|] eqn:Hch; [| done].
  unfold EndTurn_trigger, GameAction_trigger, EndTurn_do. unfold_m.
  simpl. rewrite Hch. done.
- unfold EndTurn_trigger, GameAction_trigger, EndTurn_do. unfold_m.
  simpl. rewrite Hc. simpl. rewrite <- app_assoc. eauto.
Qed.

Lemma upd_ent_eq r f g : ent (upd r f g) r = f (ent g r).
Proof. unfold upd; simpl. apply fn_lookup_alter. Qed.

Lemma upd_ent_ne r r' f g : r ≠ r' → ent (upd r f g) r' = ent g r'.
Proof. intros H. unfold upd; simpl. by apply fn_lookup_alter_ne. Qed.

(** C3: when the attacker's [should_exit_combat] holds in the game that
  the listeners of the pre-attack [ON] broadcast leave behind,
  [Attack.do] returns having made that broadcast and no other call, so
  no [Hit] was built or queued; the attacker's [attack_target] is
  [None], the defender then proposed (the original one or the one a
  listener retargeted to) is not [defending], the attacker's
  [num_attacks] is what the listeners left, and the proposed pair is
  cleared. *)
Theorem Attack_interrupted_queues_no_hit (source x y d : ref) (s : State) :
  let g1 := dispatch C Attack source ON [VEnt x; VEnt y]
              (proposed x y (game s)) in
  should_exit_combat (ent g1 x) = true →
  proposed_defender g1 = Some d →
  ∃ g' calls,
    Attack_do C source x y s = (Val tt, mkState g' (trace s ++ calls)) ∧
    calls = [EvBroadcast Attack source ON [VEnt x; VEnt y]] ∧
    Forall (λ e, ¬ queues_hit e) calls ∧
    attack_target (ent g' x) = None ∧
    defending (ent g' d) = false ∧
    num_attacks (ent g' x) = num_attacks (ent g1 x) ∧
    proposed_attacker g' = None ∧ proposed_defender g' = None.
Proof.
  intros g1 Hexit Hdef.
  eexists _, [EvBroadcast Attack source ON [VEnt x; VEnt y]]. split.
  - unfold Attack_do. unfold_m. simpl.
    fold (proposed x y (game s)). fold g1.
    replace (ent (set_proposed_defender None
                    (set_proposed_attacker None g1)) x) with (ent g1 x)
      by reflexivity.
    rewrite Hexit, Hdef. simpl. reflexivity.
  - split; [done |]. split.
    { repeat constructor. intros (? & ? & ? & H & _). discriminate. }
    destruct (decide (d = x)) as [-> | Hne].
    + rewrite !upd_ent_eq. done.
    + rewrite upd_ent_eq, !upd_ent_ne, upd_ent_eq by done. done.
Qed.

(** When no listener interferes, the same attack does queue its [Hit]s:
  the abort above is the only thing that keeps them back. *)
Lemma Attack_uninterrupted_queues_hit (source x y : ref) (s : State) :
let g1 := dispatch C Attack source ON [VEnt x; VEnt y]
            (proposed x y (game s)) in
should_exit_combat (ent g1 x) = false →
proposed_defender g1 = Some y →
x ≠ y →
∃ s', (Attack_do C source x y s).2 = s' ∧
  Exists queues_hit (drop (length (trace s)) (trace s')).
Proof.
intros g1 Hexit Hdef Hne.
eexists. split; [reflexivity |].
unfold Attack_do. unfold_m. simpl.
fold (proposed x y (game s)). fold g1.
replace (ent (set_proposed_defender None
                (set_proposed_attacker None g1)) x) with (ent g1 x)
  by reflexivity.
rewrite Hexit, Hdef. simpl.
rewrite bool_decide_eq_false_2 by congruence. simpl.
destruct (queued C x _ _) as [r1 g2] eqn:Hq1. simpl.
match goal with |- context [bool_decide ?P] => destruct (bool_decide P) end;
  simpl.
- destruct (queued C y _ _) as [r2 g3] eqn:Hq2. simpl.
  rewrite <- !app_assoc, drop_app_length.
  apply Exists_cons_tl, Exists_cons_hd. eexists _, _, _. split; done.
- rewrite <- !app_assoc, drop_app_length.
  apply Exists_cons_tl, Exists_cons_hd. eexists _, _, _. split; done.
Qed.

(** C6: when the hand of the target's controller is at or above
  [max_hand_size], [Bounce.do] makes one call, queueing
  [Destroy(target)], and returns its result: the zone is not assigned.
  Otherwise it makes one call, assigning [Zone.HAND] to the target's
  zone, and returns [None]: nothing is queued. *)
Theorem Bounce_destroys_or_returns (source target : ref) (s : State) :
let c := controller (ent (game s) target) in
let destroy := [construct Destroy [VEnt target] ∅] in
(hand_full c (game s) →
   Bounce_do C source target s =
     (Val (Some (queued C source destroy (game s)).1),
      mkState (queued C source destroy (game s)).2
        (trace s ++ [EvQueue source destroy]))) ∧
(¬ hand_full c (game s) →
   Bounce_do C source target s =
     (Val None,
      mkState (zone_setter C target HAND (game s))
        (trace s ++ [EvZone target HAND]))).
Proof.
intros c destroy. unfold hand_full, Bounce_do. unfold_m. simpl.
fold c. split; intros H.
- rewrite bool_decide_eq_true_2 by done. fold destroy.
  destruct (queued C source destroy (game s)); done.
- rewrite bool_decide_eq_false_2 by done. done.
Qed.


Lemma doubled_pow n amount : doubled n amount = amount * 2 ^ Z.of_nat n.
Proof.
revert amount. induction n as [| n IH]; intros amount.
- simpl. lia.
- cbn [doubled]. rewrite IH, Nat2Z.inj_succ, Z.pow_succ_r by lia. lia.
Qed.

Lemma doubled_multiplier m amount :
doubled (Z.to_nat m) amount = amount * 2 ^ Z.max 0 m.
Proof. rewrite doubled_pow. f_equal. f_equal. lia. Qed.

(** What [Damage.do] does, whatever the listeners: the amount handed to
  [_hit] is the damage staged on the target when it runs, and the
  staging is cleared before the [ON] broadcast. *)
Lemma Damage_do_eq (source target : ref) (amount : Z) (s : State) :
let p := predamage (ent (game s) target) in
let dealt := (_hit C target p (game s)).1 in
let g1 := upd target (with_predamage 0) (_hit C target p (game s)).2 in
let g2 := if bool_decide (type (ent g1 source) = MINION)
             && stealthed (ent g1 source)
          then upd source (with_stealthed false) g1 else g1 in
Damage_do C source target amount s =
  (Val dealt,
   if bool_decide (dealt ≠ 0)
   then mkState
          (dispatch C Damage source ON
             [VEnt target; VInt dealt; VEnt source] g2)
          (trace s ++ [EvHit target p] ++
             [EvBroadcast Damage source ON
                [VEnt target; VInt dealt; VEnt source]])
   else mkState g2 (trace s ++ [EvHit target p])).
Proof.
intros p dealt g1 g2. subst p dealt g1 g2.
unfold Damage_do. unfold_m. simpl.
destruct (_hit C target _ (game s)) as [a g]. simpl.
destruct (bool_decide _ && stealthed _); simpl;
  destruct (bool_decide (a ≠ 0)); simpl; rewrite <- ?app_assoc; done.
Qed.



(** Whatever the listeners do, the amount [Damage] hands to [_hit] is the
    damage found staged on the target once the [Predamage] broadcast is
    over: this is where a listener can step in. *)
Lemma Predamage_hits_what_is_staged (source target : ref) (N : Z)
    (s : State) :
  let staged :=
    N * 2 ^ Z.max 0 (incoming_damage_multiplier (ent (game s) target)) in
  let g0 := dispatch C Predamage source ON [VEnt target; VInt staged]
              (upd target (with_predamage staged) (game s)) in
  staged ≠ 0 →
  ∃ rest,
    trace (Predamage_do C source target N s).2 =
      trace s ++
      [EvBroadcast Predamage source ON [VEnt target; VInt staged];
       EvAction Damage source (Some [target]) [];
       EvHit target (predamage (ent g0 target))] ++ rest.
Proof.
  intros staged g0 Hs.
  unfold Predamage_do, trigger_actions_Damage, Damage_trigger,
    Damage_get_target_args.
  unfold_m. simpl. rewrite doubled_multiplier. fold staged.
  rewrite bool_decide_eq_true_2 by done. simpl.
  rewrite Damage_do_eq. simpl. fold g0.
  destruct (bool_decide _); simpl; rewrite <- !app_assoc; eexists; done.
Qed.

(** C2, as the code has it: [Predamage.do] stages [N * 2^M] on the
  target, where [M] is its [incoming_damage_multiplier]; a staged amount
  of 0 ends there, with result 0 and no call made.  Otherwise the
  [Predamage] broadcast is made with the staged amount, then
  [Damage(target)] is triggered; provided no listener rewrites the
  target's staged damage, the amount [Damage] hands to [_hit] is the
  staged [N * 2^M], the result is the amount that [_hit] reports as
  dealt for it, in the game the [Predamage] broadcast left, and [Damage]
  broadcasts only when that is not 0.  On both paths the target's
  [predamage] is 0 at the end. *)
Theorem Predamage_applies_staged (source target : ref) (N : Z) (s : State) :
let M := incoming_damage_multiplier (ent (game s) target) in
let staged := N * 2 ^ Z.max 0 M in
let g0 := dispatch C Predamage source ON [VEnt target; VInt staged]
            (upd target (with_predamage staged) (game s)) in
keeps_predamage C target →
∃ dealt s',
  Predamage_do C source target N s = (Val dealt, s') ∧
  predamage (ent (game s') target) = 0 ∧
  (staged = 0 →
     dealt = 0 ∧ trace s' = trace s ∧
     game s' = upd target (with_predamage 0) (game s)) ∧
  (staged ≠ 0 →
     dealt = (_hit C target staged g0).1 ∧
     trace s' =
       trace s ++
       [EvBroadcast Predamage source ON [VEnt target; VInt staged];
        EvAction Damage source (Some [target]) [];
        EvHit target staged] ++
       (if bool_decide (dealt ≠ 0)
        then [EvBroadcast Damage source ON
                [VEnt target; VInt dealt; VEnt source]]
        else []) ++
       [EvActionEnd Damage source (Some [target]) [VEnt target]]).
Proof.
intros M staged g0 Hkeep.
unfold Predamage_do, trigger_actions_Damage, Damage_trigger,
  Damage_get_target_args.
unfold_m. simpl. fold M. rewrite doubled_multiplier. fold staged.
destruct (bool_decide (staged ≠ 0)) eqn:Hs.
- apply bool_decide_eq_true in Hs. simpl.
  rewrite Damage_do_eq. simpl.
  rewrite Hkeep, upd_ent_eq. simpl.
  fold g0.
  set (dealt := (_hit C target staged g0).1).
  set (g1 := upd target (with_predamage 0) (_hit C target staged g0).2).
  assert (Hg1 : predamage (ent g1 target) = 0)
    by (subst g1; by rewrite upd_ent_eq).
  set (g2 := if bool_decide (type (ent g1 source) = MINION)
                && stealthed (ent g1 source)
             then upd source (with_stealthed false) g1 else g1).
  assert (Hg2 : predamage (ent g2 target) = 0).
  { subst g2. destruct (_ && _); [| done].
    destruct (decide (source = target)) as [-> | Hne].
    - rewrite upd_ent_eq. done.
    - rewrite upd_ent_ne; done. }
  destruct (bool_decide (dealt ≠ 0)) eqn:Hd; simpl.
  + eexists _, _. split; [reflexivity |]. simpl.
    split; [by rewrite Hkeep |]. split; [done |].
    intros _. split; [reflexivity |].
    rewrite Hd. rewrite <- !app_assoc. done.
  + eexists _, _. split; [reflexivity |]. simpl.
    split; [done |]. split; [done |].
    intros _. split; [reflexivity |].
    rewrite Hd. rewrite <- !app_assoc. done.
- apply bool_decide_eq_false in Hs.
  assert (Hz : staged = 0) by (destruct (decide (staged = 0)); done).
  eexists _, _. split; [reflexivity |]. simpl.
  split; [by rewrite fn_lookup_alter |]. split; [by rewrite Hz |]. done.
Qed.


(** One draw from an empty deck. *)
Lemma Draw_target_empty_deck (source target : ref) (s : State) :
let e := ent (game s) target in
let n := fatigue_counter e + 1 in
let g1 := upd target (with_fatigue_counter n) (game s) in
deck e = [] →
Draw_target C source target s =
  if cant_fatigue e then (Val [], s)
  else (Val [],
        mkState
          (queued C target [construct Hit [VEnt (hero e); VInt n] ∅] g1).2
          (trace s ++ [fatigue_hit target (hero e) n])).
Proof.
intros e n g1 Hdeck. subst e n g1.
unfold Draw_target, Draw_get_target_args, Draw_do, Player_fatigue,
  Fatigue_do, fatigue_hit.
unfold_m. simpl. rewrite Hdeck.
destruct (cant_fatigue (ent (game s) target)); simpl; [done |].
rewrite !fn_lookup_alter. simpl.
destruct (queued C target _ _). done.
Qed.

Lemma Draw_times_empty_deck (source target : ref) (n : nat) :
keeps_fatigue C target →
∀ s,
  deck (ent (game s) target) = [] →
  cant_fatigue (ent (game s) target) = false →
  ∃ s',
    Draw_times C n source target s = (Val (replicate n []), s') ∧
    trace s' =
      trace s ++
      ((λ k, fatigue_hit target (hero (ent (game s) target))
               (fatigue_counter (ent (game s) target) + Z.of_nat k))
         <$> seq 1 n) ∧
    fatigue_counter (ent (game s') target) =
      fatigue_counter (ent (game s) target) + Z.of_nat n ∧
    deck (ent (game s') target) = [] ∧
    cant_fatigue (ent (game s') target) = false ∧
    hero (ent (game s') target) = hero (ent (game s) target).
Proof.
intros Hkeep. induction n as [| n IH]; intros s Hdeck Hcf.
- exists s. simpl. rewrite app_nil_r, Z.add_0_r. done.
- cbn [Draw_times]. unfold mbind, M_bind, bind.
  rewrite Draw_target_empty_deck by done. rewrite Hcf.
  set (c := fatigue_counter (ent (game s) target)) in *.
  set (h := hero (ent (game s) target)) in *.
  set (g1 := upd target (with_fatigue_counter (c + 1)) (game s)).
  set (q := [construct Hit [VEnt h; VInt (c + 1)] ∅]).
  destruct (Hkeep target q g1) as (Hd & Hc & Hn & Hh).
  assert (He1 : ent g1 target = with_fatigue_counter (c + 1) (ent (game s) target))
    by apply upd_ent_eq.
  rewrite He1 in Hd, Hc, Hn, Hh. simpl in Hd, Hc, Hn, Hh.
  set (s1 := mkState (queued C target q g1).2
               (trace s ++ [fatigue_hit target h (c + 1)])).
  destruct (IH s1) as (s' & Hrun & Htr & Hcnt & Hdk & Hcf' & Hhero).
  { simpl. by rewrite Hd. }
  { simpl. by rewrite Hc. }
  simpl in Htr, Hcnt, Hhero. rewrite Hn, Hh in *.
  exists s'. rewrite Hrun. unfold mret, M_ret, ret. simpl.
  split; [done |]. split.
  + rewrite Htr, <- app_assoc. f_equal.
    change (seq 1 (S n)) with (1%nat :: seq 2 n).
    rewrite <- (fmap_S_seq 1 n). cbn [fmap list_fmap app].
    f_equal. rewrite <- list_fmap_compose.
    apply list_fmap_ext. intros i k _. simpl. fold h. f_equal. lia.
  + repeat split; try done. rewrite Hcnt. lia.
Qed.

(** C5, as the code has it: a draw from an empty deck returns the empty
  list.  If the player cannot fatigue, that is all: no call is made and
  the state is unchanged.  Otherwise each draw adds one to the fatigue
  counter and queues exactly one [Hit] on the player's hero for the new
  counter value; over [n] draws in a row (queued actions leaving the
  deck and the fatigue attributes alone) the hits are for
  [c+1, ..., c+n] and the counter ends at [c+n]. *)
Theorem Draw_empty_deck_fatigues (source target : ref) (s : State) :
let e := ent (game s) target in
deck e = [] →
(cant_fatigue e = true →
   Draw_target C source target s = (Val [], s)) ∧
(cant_fatigue e = false → keeps_fatigue C target →
   ∀ n, ∃ s',
     Draw_times C n source target s = (Val (replicate n []), s') ∧
     trace s' =
       trace s ++
       ((λ k, fatigue_hit target (hero e)
                (fatigue_counter e + Z.of_nat k)) <$> seq 1 n) ∧
     fatigue_counter (ent (game s') target) =
       fatigue_counter e + Z.of_nat n).
Proof.
intros e Hdeck. split.
- intros Hcf. rewrite Draw_target_empty_deck by done. fold e.
  by rewrite Hcf.
- intros Hcf Hkeep n.
  destruct (Draw_times_empty_deck source target n Hkeep s Hdeck Hcf)
    as (s' & ? & ? & ? & _).
  eauto.
Qed.


(** *** Give *)

(** The loop of [Give.do] always returns; what it returns extends the
  accumulator, and the accumulator does not influence what is done. *)
Lemma Give_loop_total (target : ref) (cards : list ref) :
∀ s, ∃ r s',
  (∀ acc, Give_loop C target cards acc s = (Val (acc ++ r), s')) ∧
  sublist r cards ∧
  trace s' = trace s ++ ((λ c, EvZone c HAND) <$> r).
Proof.
induction cards as [| card rest IH]; intros s.
- exists [], s. split; [| split].
  + intros acc. simpl. by rewrite app_nil_r.
  + constructor.
  + simpl. by rewrite app_nil_r.
- cbn [Give_loop]. unfold_m. simpl.
  destruct (bool_decide _) eqn:Hfull.
  + destruct (IH s) as (r & s' & Hrun & Hsub & Htr).
    exists r, s'. split; [done |]. split; [by apply sublist_cons | done].
  + set (s1 := mkState _ _). destruct (IH s1) as (r & s' & Hrun & Hsub & Htr).
    exists (card :: r), s'. split; [| split].
    * intros acc. rewrite Hrun, <- app_assoc. done.
    * by apply sublist_skip.
    * rewrite Htr. subst s1. simpl. by rewrite <- app_assoc.
Qed.

Lemma Give_loop_app (target : ref) (l1 l2 : list ref) :
∀ acc s,
  Give_loop C target (l1 ++ l2) acc s =
  match Give_loop C target l1 acc s with
  | (Val r, s1) => Give_loop C target l2 r s1
  | (Exc e, s1) => (Exc e, s1)
  end.
Proof.
induction l1 as [| card rest IH]; intros acc s; [done |].
cbn [Give_loop app]. unfold_m. simpl.
destruct (bool_decide _); apply IH.
Qed.

(** C10: [Give.do] on a list of cards raises nothing and returns a list
  [r] with these properties.  [r] is a sub-list of the cards, in their
  order.  The only calls made are the assignments of [Zone.HAND] to the
  cards of [r], in order: nothing is queued, destroyed or discarded.
  And a card reached while the target's hand is full is skipped without
  a trace: the whole run is the run on the list without that card. *)
Theorem Give_skips_when_hand_full (source target : ref) (cards : list ref)
  (s : State) :
∃ r s',
  Give_do C source target (Cards cards) s = (Val r, s') ∧
  sublist r cards ∧
  trace s' = trace s ++ ((λ c, EvZone c HAND) <$> r) ∧
  (∀ pre card post,
     cards = pre ++ card :: post →
     hand_full target (game (Give_loop C target pre [] s).2) →
     Give_do C source target (Cards cards) s =
     Give_do C source target (Cards (pre ++ post)) s).
Proof.
destruct (Give_loop_total target cards s) as (r & s' & Hrun & Hsub & Htr).
exists r, s'. unfold Give_do.
split; [by rewrite (Hrun []) |]. split; [done |]. split; [done |].
intros pre card post -> Hfull.
rewrite !Give_loop_app.
destruct (Give_loop C target pre [] s) as [[r1 | e] s1]; [| done].
cbn [Give_loop]. unfold_m. simpl in *.
unfold hand_full in Hfull. by rewrite bool_decide_eq_true_2.
Qed.

(** A single card is given as the one-element list is. *)
Lemma Give_do_one_card (source target card : ref) (s : State) :
Give_do C source target (OneCard card) s =
Give_do C source target (Cards [card]) s.
Proof. reflexivity. Qed.

(** *** GenericChoice *)

(** The candidates other than the chosen card are discarded, one by one. *)
Lemma choose_loop_others (player card : ref) (cards : list ref) :
card ∉ cards →
∀ s,
  choose_loop C player cards card s =
    (Val tt,
     mkState (foldl (λ g c, discard C c g) (game s) cards)
       (trace s ++ (EvDiscard <$> cards))).
Proof.
induction cards as [| c rest IH]; intros Hnot s.
- simpl. rewrite app_nil_r. by destruct s.
- apply not_elem_of_cons in Hnot as [Hne Hnot].
  cbn [choose_loop]. unfold_m.
  rewrite bool_decide_eq_false_2 by done. simpl.
  rewrite IH by done. simpl. by rewrite <- app_assoc.
Qed.

(** [choose] on a card that was not offered: no exception; every
  candidate is discarded and the choice is closed. *)
Lemma choose_not_offered (player card : ref) (cards : list ref) (s : State) :
card ∉ cards →
GenericChoice_choose C player cards card s =
  (Val tt,
   mkState
     (upd player (with_choice None)
        (foldl (λ g c, discard C c g) (game s) cards))
     (trace s ++ (EvDiscard <$> cards))).
Proof.
intros Hnot. unfold GenericChoice_choose. unfold_m.
rewrite choose_loop_others by done. done.
Qed.

(** [choose] on an offered card: the candidates before and after it are
  discarded, the card itself goes into play, into the hand or is
  discarded, and the choice is closed. *)
Lemma choose_offered (player card : ref) (pre post : list ref) (s : State) :
card ∉ pre → card ∉ post →
let g1 := foldl (λ g c, discard C c g) (game s) pre in
∃ s',
  GenericChoice_choose C player (pre ++ card :: post) card s =
    (Val tt, s') ∧
  trace s' =
    trace s ++ (EvDiscard <$> pre) ++ [chosen_event player card g1] ++
    (EvDiscard <$> post) ∧
  choice (ent (game s') player) = None.
Proof.
intros Hpre Hpost g1. unfold GenericChoice_choose.
assert (Happ : ∀ l1 l2 s0,
  choose_loop C player (l1 ++ l2) card s0 =
  match choose_loop C player l1 card s0 with
  | (Val _, s1) => choose_loop C player l2 card s1
  | (Exc e, s1) => (Exc e, s1)
  end).
{ induction l1 as [| c l1 IH]; intros l2 s0; [done |].
  cbn [choose_loop app]. unfold mbind, M_bind, bind.
  destruct (_ s0) as [[[] | e] s1]; [apply IH | done]. }
unfold mbind, M_bind, bind.
rewrite Happ, choose_loop_others by done.
cbn [choose_loop]. unfold_m.
rewrite bool_decide_eq_true_2 by done. simpl. fold g1.
unfold chosen_event.
destruct (bool_decide (type (ent g1 card) = HERO_POWER)); simpl;
  [| destruct (bool_decide (_ < _)); simpl ];
  rewrite choose_loop_others by done; simpl;
  (eexists; split; [reflexivity |]; simpl; split;
   [ by rewrite <- !app_assoc | by rewrite fn_lookup_alter ]).
Qed.

End ActionProperties.

(** ** The actions run on the sample game *)

Import Sample.

(** C1: [GenericChoice.choose] does not reject a card that was not
    offered.  With cards 5, 6 and 7 offered to player 1, choosing card 8
    returns normally: the three candidates are discarded and the choice
    is closed, where the specification asks for a contract violation (as
    [MulliganChoice.choose] asserts [card in self.cards]). *)
Example GenericChoice_choose_accepts_unoffered :
  let offered := [card5; card6; card7] in
  let opened :=
    (run (GenericChoice_do 9%positive player1 player1 offered)
       table).2 in
  let r := GenericChoice_choose quiet player1 offered card8 opened in
  (card8 ∉ offered) ∧
  choice (ent (game opened) player1) = Some 9%positive ∧
  r.1 = Val tt ∧
  trace r.2 = [EvDiscard card5; EvDiscard card6; EvDiscard card7] ∧
  choice (ent (game r.2) player1) = None.
Proof.
  split; [| vm_compute; done].
  rewrite !not_elem_of_cons. repeat split; try done. apply not_elem_of_nil.
Qed.

(** The offered case on the same game: choosing card 6 puts it in the
    hand and discards 5 and 7. *)
Example GenericChoice_choose_offered_sample :
  let r := run (GenericChoice_choose quiet player1 [card5; card6; card7] card6)
             (choosing player1) in
  r.1 = Val tt ∧
  trace r.2 = [EvDiscard card5; EvZone card6 HAND; EvDiscard card7] ∧
  hand (ent (game r.2) player1) = [card6] ∧
  choice (ent (game r.2) player1) = None.
Proof. vm_compute. done. Qed.

(** C2, counterexample: minion 4 takes double damage, so [Predamage] of 3
    stages 6; a listener on [Predamage] caps the staged damage at 1, and
    the amount [Damage] applies is 1, not [3 * 2^1]. *)
Example Predamage_intercepted_by_listener :
  let r := run (Predamage_do capping minion3 minion4 3) table in
  incoming_damage_multiplier (ent table minion4) = 1 ∧
  r.1 = Val 1 ∧
  trace r.2 =
    [EvBroadcast Predamage minion3 ON [VEnt minion4; VInt 6];
     EvAction Damage minion3 (Some [minion4]) [];
     EvHit minion4 1;
     EvBroadcast Damage minion3 ON [VEnt minion4; VInt 1; VEnt minion3];
     EvActionEnd Damage minion3 (Some [minion4]) [VEnt minion4]] ∧
  1 ≠ 3 * 2 ^ 1.
Proof. vm_compute. repeat split; done. Qed.

(** Minion 3 dealing 3 to minion 4, which takes double damage, with no
    listener around. *)
Lemma Predamage_applies_staged_witness :
  let s := mkState table [] in
  keeps_predamage quiet minion4 ∧
  ∃ dealt s',
    Predamage_do quiet minion3 minion4 3 s = (Val dealt, s') ∧
    predamage (ent (game s') minion4) = 0 ∧
    (3 * 2 ^ Z.max 0 1 = 0 →
       dealt = 0 ∧ trace s' = trace s ∧
       game s' = upd minion4 (with_predamage 0) (game s)) ∧
    (3 * 2 ^ Z.max 0 1 ≠ 0 →
       dealt =
         (_hit quiet minion4 (3 * 2 ^ Z.max 0 1)
            (dispatch quiet Predamage minion3 ON
               [VEnt minion4; VInt (3 * 2 ^ Z.max 0 1)]
               (upd minion4 (with_predamage (3 * 2 ^ Z.max 0 1))
                  (game s)))).1 ∧
       trace s' =
         trace s ++
         [EvBroadcast Predamage minion3 ON
            [VEnt minion4; VInt (3 * 2 ^ Z.max 0 1)];
          EvAction Damage minion3 (Some [minion4]) [];
          EvHit minion4 (3 * 2 ^ Z.max 0 1)] ++
         (if bool_decide (dealt ≠ 0)
          then [EvBroadcast Damage minion3 ON
                  [VEnt minion4; VInt dealt; VEnt minion3]]
          else []) ++
         [EvActionEnd Damage minion3 (Some [minion4]) [VEnt minion4]]).
Proof.
  intros s.
  assert (H : keeps_predamage quiet minion4) by (intros c src a args g; reflexivity).
  split; [exact H |].
  exact (Predamage_applies_staged quiet minion3 minion4 3 s H).
Defined.

(** The attack of minion 3 on minion 4 under the ambush. *)
Lemma Attack_interrupted_witness :
  let s := mkState table [] in
  let g1 := dispatch ambush Attack player1 ON [VEnt minion3; VEnt minion4]
              (proposed minion3 minion4 (game s)) in
  should_exit_combat (ent g1 minion3) = true ∧
  proposed_defender g1 = Some minion4 ∧
  ∃ g' calls,
    Attack_do ambush player1 minion3 minion4 s =
      (Val tt, mkState g' (trace s ++ calls)) ∧
    calls = [EvBroadcast Attack player1 ON [VEnt minion3; VEnt minion4]] ∧
    Forall (λ e, ¬ queues_hit e) calls ∧
    attack_target (ent g' minion3) = None ∧
    defending (ent g' minion4) = false ∧
    num_attacks (ent g' minion3) = num_attacks (ent g1 minion3) ∧
    proposed_attacker g' = None ∧ proposed_defender g' = None.
Proof.
  intros s g1.
  split; [reflexivity |]. split; [reflexivity |].
  apply (Attack_interrupted_queues_no_hit ambush player1 minion3 minion4
           minion4 s); reflexivity.
Defined.

(** Without the ambush the same attack queues both hits and counts. *)
Example Attack_uninterrupted_sample :
  let r := run (Attack_do quiet player1 minion3 minion4) table in
  r.1 = Val tt ∧
  trace r.2 =
    [EvBroadcast Attack player1 ON [VEnt minion3; VEnt minion4];
     EvQueue minion3 [construct Hit [VEnt minion4; VInt 3] ∅];
     EvQueue minion4 [construct Hit [VEnt minion3; VInt 2] ∅];
     EvBroadcast Attack player1 AFTER [VEnt minion3; VEnt minion4]] ∧
  num_attacks (ent (game r.2) minion3) = 1.
Proof. vm_compute. done. Qed.

(** C5, counterexample: player 1 has an empty deck and cannot fatigue; a
    draw returns the empty list, queues no [Hit] and leaves the fatigue
    counter where it was. *)
Example Draw_cant_fatigue_no_hit :
  let r := run (Draw_target quiet player1 player1) tireless in
  deck (ent tireless player1) = [] ∧
  cant_fatigue (ent tireless player1) = true ∧
  r.1 = Val [] ∧
  trace r.2 = [] ∧
  fatigue_counter (ent (game r.2) player1) =
    fatigue_counter (ent tireless player1).
Proof. vm_compute. done. Qed.

(** Player 1 of the sample game, who can fatigue, drawing from the empty
    deck any number of times. *)
Lemma Draw_empty_deck_fatigues_witness :
  let s := mkState table [] in
  let e := ent (game s) player1 in
  deck e = [] ∧ cant_fatigue e = false ∧ keeps_fatigue quiet player1 ∧
  ∀ n, ∃ s',
    Draw_times quiet n hero1 player1 s = (Val (replicate n []), s') ∧
    trace s' =
      trace s ++
      ((λ k, fatigue_hit player1 (hero e)
               (fatigue_counter e + Z.of_nat k)) <$> seq 1 n) ∧
    fatigue_counter (ent (game s') player1) =
      fatigue_counter e + Z.of_nat n.
Proof.
  intros s e.
  assert (Hdeck : deck e = []) by reflexivity.
  assert (Hkeep : keeps_fatigue quiet player1)
    by (intros src acts g; simpl; done).
  split; [exact Hdeck |]. split; [reflexivity |]. split; [exact Hkeep |].
  exact (proj2 (Draw_empty_deck_fatigues quiet hero1 player1 s Hdeck)
           eq_refl Hkeep).
Defined.

(** Three draws by player 1 from the empty deck: hits of 1, 2 and 3. *)
Example Draw_three_times_sample :
  let r := run (Draw_times quiet 3 player1 player1) table in
  r.1 = Val [[]; []; []] ∧
  trace r.2 =
    [fatigue_hit player1 hero1 1; fatigue_hit player1 hero1 2;
     fatigue_hit player1 hero1 3] ∧
  fatigue_counter (ent (game r.2) player1) = 3.
Proof. vm_compute. done. Qed.

(** [then] on the stored [Hit] instance. *)
Lemma then_returns_new_action_witness :
  one_action !! 1%positive = Some hit_3_2 ∧
  constructed hit_3_2 ∧
  ∃ r o' h',
    then_ 1%positive [VAct 7] one_action = Some (r, h') ∧
    r ≠ 1%positive ∧ one_action !! r = None ∧
    h' !! r = Some o' ∧
    o' = derived hit_3_2 [VAct 7] ∧
    cls o' = cls hit_3_2 ∧ _args o' = _args hit_3_2 ∧
    _kwargs o' = _kwargs hit_3_2 ∧
    callback o' = [VAct 7] ∧ times o' = times hit_3_2 ∧
    h' !! 1%positive = Some hit_3_2 ∧
    (∀ l, l ≠ r → h' !! l = one_action !! l).
Proof.
  assert (H1 : one_action !! 1%positive = Some hit_3_2) by reflexivity.
  assert (H2 : constructed hit_3_2) by apply construct_constructed.
  split; [exact H1 |]. split; [exact H2 |].
  exact (then_returns_new_action one_action 1%positive hit_3_2 [VAct 7] H1 H2).
Defined.

(** [then] on a [Hit] that is to come from what selector 1 selects. *)
Lemma then_drops_source_redirect_witness :
  let built :=
    construct Hit [VEnt minion3; VInt 2] {[ "source"%string := VSel 1 ]} in
  ∃ r o' h',
    then_ 1%positive [VAct 7] {[ 1%positive := built ]} = Some (r, h') ∧
    h' !! r = Some o' ∧
    targeted built = Some (VSel 1, 0) ∧
    targeted o' = Some (VNone, 0) ∧
    o' ≠ rebuilt Hit [VEnt minion3; VInt 2] {[ "source"%string := VSel 1 ]}
           [VAct 7] (VInt 1).
Proof.
  intros built.
  destruct (then_drops_source_redirect {[ 1%positive := built ]} 1%positive
              Hit [VEnt minion3; VInt 2] {[ "source"%string := VSel 1 ]}
              (VSel 1) [VAct 7])
    as (r & o' & h' & Hrun & Hr & _ & Ht & Ht' & _ & Hne).
  - reflexivity.
  - reflexivity.
  - discriminate.
  - reflexivity.
  - exists r, o', h'. split; [exact Hrun |]. split; [exact Hr |].
    split; [exact Ht |]. split; [exact Ht' | exact Hne].
Defined.

(** [* 3] on the stored [Hit] instance. *)
Lemma mul_mutates_in_place_witness :
  one_action !! 1%positive = Some hit_3_2 ∧
  is_targeted (cls hit_3_2) = true ∧
  ∃ h',
    __mul__ 1%positive (VInt 3) one_action = Some (Val 1%positive, h') ∧
    h' !! 1%positive = Some (set_times (VInt 3) hit_3_2) ∧
    (∀ b, b = 1%positive → times <$> h' !! b = Some (VInt 3)) ∧
    (∀ l, l ≠ 1%positive → h' !! l = one_action !! l) ∧
    (∀ rs, ∃ r h'', then_ 1%positive rs one_action = Some (r, h'') ∧
                    r ≠ 1%positive ∧ h'' !! 1%positive = Some hit_3_2).
Proof.
  assert (H1 : one_action !! 1%positive = Some hit_3_2) by reflexivity.
  assert (H2 : is_targeted (cls hit_3_2) = true) by reflexivity.
  split; [exact H1 |]. split; [exact H2 |].
  exact (mul_mutates_in_place one_action 1%positive hit_3_2 (VInt 3) H1 H2).
Defined.

(** A targeted action built with a [source] redirect loses it through
    [then]: the keyword was popped by the constructor and is not among
    the stored keyword arguments. *)
Example then_drops_source_sample :
  let o := construct Hit [VEnt minion3; VInt 2] {[ "source"%string := VSel 1 ]} in
  targeted o = Some (VSel 1, 0) ∧
  targeted (derived o []) = Some (VNone, 0) ∧
  _kwargs o = ∅.
Proof. vm_compute. done. Qed.

(** The pattern [(None, SELF)] against a broadcast [(3, 4)], as seen from
    entities 4 and 3. *)
Example matches_sample :
  let pattern := construct Damage [VNone; VSel 0] ∅ in
  matches sel pattern minion4 [VEnt minion3; VEnt minion4] = Val true ∧
  matches sel pattern minion3 [VEnt minion3; VEnt minion4] = Val false ∧
  matches sel pattern minion4 [VEnt minion3; VNone] = Val false.
Proof. vm_compute. done. Qed.

(** Giving cards 5 and 6 when one place is left: 5 is placed, 6 is
    skipped. *)
Example Give_sample :
  let r := run (Give_do quiet minion3 player1 (Cards [card5; card6])) crowded in
  r.1 = Val [card5] ∧ trace r.2 = [EvZone card5 HAND] ∧
  hand (ent (game r.2) player1) = [card7; card8; card5] ∧
  zone (ent (game r.2) card6) = SETASIDE.
Proof. vm_compute. done. Qed.

(** Bouncing minion 3 with room in the hand. *)
Example Bounce_sample :
  let r := run (Bounce_do quiet player1 minion3) table in
  r.1 = Val None ∧ trace r.2 = [EvZone minion3 HAND] ∧
  hand (ent (game r.2) player1) = [minion3].
Proof. vm_compute. done. Qed.

(** Ending the turn of player 1, with a choice open and without. *)
Example EndTurn_sample :
  let open := run (EndTurn_trigger quiet player1 player1) (choosing player1) in
  let closed := run (EndTurn_trigger quiet player1 player1) table in
  open.1 = Exc InvalidAction ∧
  trace open.2 = [EvAction EndTurn player1 None [VEnt player1]] ∧
  closed.1 = Val tt ∧
  trace closed.2 =
    [EvAction EndTurn player1 None [VEnt player1];
     EvBroadcast EndTurn player1 ON [VEnt player1];
     EvEndTurn;
     EvActionEnd EndTurn player1 None [VEnt player1];
     EvProcessDeaths].
Proof. vm_compute. done. Qed.

(** Bouncing minion 3 into a hand that is full: it is destroyed. *)
Example Bounce_full_sample :
  let full := upd card5 (with_controller player1)
                (zone_setter quiet card5 HAND crowded) in
  let r := run (Bounce_do quiet player1 minion3) full in
  hand (ent full player1) = [card7; card8; card5] ∧
  r.1 = Val (Some [[]]) ∧
  trace r.2 = [EvQueue player1 [construct Destroy [VEnt minion3] ∅]].
Proof. vm_compute. done. Qed.

(** * More properties *)

(** ** Argument attributes *)

Lemma register_other v args i attrs n :
  n ∉ args → register v args i attrs !! n = attrs !! n.
Proof.
  revert i attrs. induction args as [| a rest IH]; intros i attrs Hn; [done |].
  apply not_elem_of_cons in Hn as [Hne Hn]. cbn [register].
  rewrite IH by done. by rewrite lookup_insert_ne.
Qed.

Lemma register_lookup v args i attrs n k :
  NoDup args → args !! k = Some n →
  register v args i attrs !! n = Some (mkActionArg n (i + k) v).
Proof.
  revert i attrs k. induction args as [| a rest IH]; intros i attrs k Hnd Hk;
    [done |].
  apply list.NoDup_cons in Hnd as [Ha Hnd]. cbn [register].
  destruct k as [| k]; simpl in Hk.
  - injection Hk as ->. rewrite register_other by done.
    rewrite lookup_insert_eq. by rewrite Nat.add_0_r.
  - rewrite (IH (S i) _ k) by done. f_equal. f_equal. lia.
Qed.

Lemma register_inv v args i attrs n a :
  register v args i attrs !! n = Some a →
  attrs !! n = Some a ∨
  ∃ k, args !! k = Some n ∧ a = mkActionArg n (i + k) v.
Proof.
  revert i attrs. induction args as [| x rest IH]; intros i attrs H;
    [by left |].
  cbn [register] in H. apply IH in H as [H | (k & Hk & ->)].
  - destruct (decide (x = n)) as [-> | Hne].
    + rewrite lookup_insert_eq in H. injection H as <-.
      right. exists 0%nat. by rewrite Nat.add_0_r.
    + rewrite lookup_insert_ne in H by done. by left.
  - right. exists (S k). split; [done |]. f_equal. lia.
Qed.

Lemma ARGS_NoDup c : NoDup (ARGS c).
Proof. destruct c; apply (bool_decide_unpack _); vm_compute; exact I. Qed.

(** X1: no class repeats an argument name, so the loop that closes the
    module gives every class exactly one attribute per name in its
    [ARGS], carrying the position of the name and the class: [v.NAME] is
    [ActionArg(NAME, k, v)] exactly when [NAME] is the [k]-th of
    [v.ARGS]. *)
Theorem registered_iff_position (v : ActionClass) (n : string)
    (a : ActionArg) :
  registered v !! n = Some a ↔
  ARGS v !! index a = Some n ∧ name a = n ∧ arg_cls a = v.
Proof.
  unfold registered. split.
  - intros H. apply register_inv in H as [H | (k & Hk & ->)]; [done |].
    simpl. done.
  - intros (Hk & Hn & Hc). destruct a as [n' k c']. simpl in *. subst.
    by rewrite (register_lookup v (ARGS v) 0 ∅ n k (ARGS_NoDup v) Hk).
Qed.

(** X2: inside the dispatch of an event with arguments [l], the attribute
    [v.NAME] evaluates to the argument of [l] at the position [NAME] has
    in [v.ARGS]; it is an [IndexError] when [l] is too short for that
    position, and an [AssertionError] when there are no event arguments
    (outside a dispatch, or an empty tuple). *)
Theorem ActionArg_evaluates_by_position (v : ActionClass) (n : string)
    (k : nat) (a : ActionArg) (l : list value) :
  ARGS v !! k = Some n →
  registered v !! n = Some a →
  evaluate a None = Raised (Known AssertionError) ∧
  evaluate a (Some []) = Raised (Known AssertionError) ∧
  (l ≠ [] → ∀ x, l !! k = Some x → evaluate a (Some l) = Done x) ∧
  (l ≠ [] → (length l ≤ k)%nat → evaluate a (Some l) = Raised IndexError).
Proof.
  intros Hk Ha. unfold registered in Ha.
  rewrite (register_lookup v (ARGS v) 0 ∅ n k (ARGS_NoDup v) Hk) in Ha.
  injection Ha as <-. unfold evaluate. simpl.
  split; [done |]. split; [done |]. split.
  - intros Hl x Hx. destruct l; [done |]. by rewrite Hx.
  - intros Hl Hlen. destruct l as [| y l]; [done |].
    by rewrite (lookup_ge_None_2 (y :: l) k).
Qed.

(** [Play] broadcasts three arguments, so [Play.INDEX] and [Play.CHOOSE]
    cannot be resolved in the response to a [Play] event. *)
Lemma Play_INDEX_out_of_range (a : ActionArg) (x y z : value) (n : string) :
  n = "INDEX"%string ∨ n = "CHOOSE"%string →
  registered Play !! n = Some a →
  evaluate a (Some [x; y; z]) = Raised IndexError.
Proof.
  intros [-> | ->] Ha; vm_compute in Ha; injection Ha as <-; reflexivity.
Qed.

(** ** The broadcaster *)

Section BroadcasterProperties.

Variable events : ref → Game → list EventListener.
Variable entities hands : Game → list ref.
Variable sel_eval_in : Game → selector → list value → ref → list value.
Variable trigger_event :
  ref → ref → EventListener → list value → Game → Game.






End BroadcasterProperties.

(** ** Deferred broadcasts *)

(** Unfolding of the operations of the wider monad. *)
Ltac unfold_w :=
  unfold wbroadcast, wqueue_actions, wset_zone, call_method, wattr,
    int_attr, obj_attr, wgets, wmodify, wcall, wdo, wraise, wassert,
    instance, update_instance, queue_broadcast, new_instance,
    mbind, W_bind, wbind, mret, W_ret, wret in *.

Section DeferredProperties.

Variable L : Layer.

Lemma phase_of_value p : phase_of (phase_value p) = Some p.
Proof. by destruct p. Qed.

Lemma broadcast_records_flush (records : list (aref * ref * Phase * list value)) :
  ∀ w,
    (∀ r, r ∈ records → is_Some (acts w !! r.1.1.1)) →
    broadcast_records L (deferred <$> records) w =
      (Done tt,
       mkWorld
         (foldl (λ x r, on_broadcast L
                          (default Action (cls <$> acts w !! r.1.1.1))
                          r.1.1.2 r.1.2 r.2 x)
            (scene w) records)
         (acts w)
         (calls w ++ (flushed (acts w) <$> records))).
Proof.
  induction records as [| r rest IH]; intros w Hin.
  - simpl. rewrite app_nil_r. by destruct w.
  - cbn [fmap list_fmap broadcast_records].
    destruct (Hin r) as [o Ho]; [set_solver |].
    unfold broadcast_record. simpl. unfold_w. rewrite Ho.
    rewrite phase_of_value. simpl.
    rewrite IH by (intros r' Hr'; apply Hin; set_solver).
    simpl. unfold flushed at 2. rewrite Ho. simpl.
    by rewrite <- app_assoc.
Qed.

(** X4: [resolve_broadcasts] makes the deferred broadcasts in the order in
    which [queue_broadcast] stored them and leaves the queue empty, so
    that flushing again makes no call: every deferred broadcast is made
    once. *)
Theorem resolve_broadcasts_flushes_in_order (self : aref) (me : ActionObj)
    (records : list (aref * ref * Phase * list value)) (w : World) :
  acts w !! self = Some me →
  event_queue me = deferred <$> records →
  (∀ r, r ∈ records → is_Some (acts w !! r.1.1.1)) →
  ∃ w',
    resolve_broadcasts L self w = (Done tt, w') ∧
    calls w' = calls w ++ (flushed (acts w) <$> records) ∧
    event_queue <$> acts w' !! self = Some [] ∧
    (∀ a, a ≠ self → acts w' !! a = acts w !! a) ∧
    ∃ w'', resolve_broadcasts L self w' = (Done tt, w'') ∧
           calls w'' = calls w'.
Proof.
  intros Hme Hq Hin. unfold resolve_broadcasts. unfold_w.
  rewrite Hme, Hq, broadcast_records_flush by done. simpl.
  eexists. split; [reflexivity |]. simpl.
  split; [done |]. split; [by rewrite lookup_alter_eq, Hme |].
  split; [by intros a Ha; rewrite lookup_alter_ne |].
  rewrite lookup_alter_eq, Hme. simpl.
  eexists. split; [reflexivity |]. done.
Qed.

(** [queue_broadcast] adds its record at the end of the queue. *)
Lemma queue_broadcast_appends (self : aref) (me : ActionObj)
    (r : aref * ref * Phase * list value) (w : World) :
  acts w !! self = Some me →
  ∃ w',
    queue_broadcast self (VAct r.1.1.1)
      (VEnt r.1.1.2 :: phase_value r.1.2 :: r.2) w = (Done tt, w') ∧
    calls w' = calls w ∧ scene w' = scene w ∧
    event_queue <$> acts w' !! self = Some (event_queue me ++ [deferred r]).
Proof.
  intros Hme. unfold_w. eexists. split; [reflexivity |]. simpl.
  by rewrite lookup_alter_eq, Hme.
Qed.

End DeferredProperties.

(** ** The targeted-action loop *)

Lemma wbind_done {A B} (m : W A) (k : A → W B) (w w' : World) (a : A) :
  m w = (Done a, w') → (m ≫= k) w = k a w'.
Proof. intros H. unfold mbind, W_bind, wbind. by rewrite H. Qed.

Lemma wbind_raised {A B} (m : W A) (k : A → W B) (w w' : World) (e : error) :
  m w = (Raised e, w') → (m ≫= k) w = (Raised e, w').
Proof. intros H. unfold mbind, W_bind, wbind. by rewrite H. Qed.

Lemma instance_done (self : aref) (me : ActionObj) (w : World) :
  acts w !! self = Some me → instance self w = (Done me, w).
Proof. intros H. unfold instance. by rewrite H. Qed.

Lemma alter_same (f : ActionObj → ActionObj) (self : aref) (me : ActionObj)
    (h : gmap positive ActionObj) :
  h !! self = Some me → f me = me → alter f self h = h.
Proof.
  intros Hme Hf. apply map_eq. intros i.
  destruct (decide (i = self)) as [-> |].
  - by rewrite lookup_alter_eq, Hme; simpl; rewrite Hf.
  - by rewrite lookup_alter_ne.
Qed.

Lemma set_event_queue_same (me : ActionObj) :
  event_queue me = [] → set_event_queue [] me = me.
Proof. destruct me. simpl. by intros ->. Qed.

Lemma World_eta (w : World) : mkWorld (scene w) (acts w) (calls w) = w.
Proof. by destruct w. Qed.

Lemma Scene_eta (x : Scene) :
  mkScene (sc_game x) (sc_ints x) (sc_objs x) = x.
Proof. by destruct x. Qed.

Section TriggerProperties.

Variable L : Layer.
Variable get_target_args : aref → ref → ref → W targs.
Variable do : aref → ref → ref → list obj → W obj.

Lemma resolve_source_unredirected me source w :
  unredirected me → resolve_source L me source w = (Done source, w).
Proof. by intros [H | [i H]]; unfold resolve_source; rewrite H. Qed.

Lemma resolve_broadcasts_empty self me w :
  acts w !! self = Some me → event_queue me = [] →
  resolve_broadcasts L self w = (Done tt, w).
Proof.
  intros Hme Hq. unfold resolve_broadcasts.
  rewrite (wbind_done _ _ w w me) by by apply instance_done.
  rewrite Hq. simpl. unfold_w.
  rewrite (alter_same _ _ me) by auto using set_event_queue_same.
  by rewrite World_eta.
Qed.

(** X5: a repeat count of zero or less makes the action do nothing: no hook
    of the manager is called, no target is looked up, [do] is not run,
    and the result is the empty list. *)
Theorem trigger_zero_times_does_nothing (self : aref) (source : ref)
    (me : ActionObj) (n : Z) (w : World) :
  acts w !! self = Some me →
  unredirected me →
  times me = VInt n →
  n ≤ 0 →
  event_queue me = [] →
  TargetedAction_trigger L get_target_args do self source w = (Done [], w).
Proof.
  intros Hme Hs Ht Hn Hq. unfold TargetedAction_trigger.
  rewrite (wbind_done _ _ w w me) by by apply instance_done.
  rewrite (wbind_done _ _ w w source)
    by by apply resolve_source_unredirected.
  rewrite (wbind_done _ _ w w me) by by apply instance_done.
  rewrite Ht. simpl.
  rewrite (wbind_done _ _ w w n) by done.
  replace (Z.to_nat n) with 0%nat by lia. simpl.
  rewrite (wbind_done _ _ w w []) by done.
  by rewrite (wbind_done _ _ w w tt)
    by by apply (resolve_broadcasts_empty self me).
Qed.

(** X6: a [source] redirect must select exactly one entity: when it selects
    none or several, the action fails on the assertion before it has
    called anything or changed anything. *)
Theorem trigger_redirect_needs_one_source (self : aref) (source : ref)
    (me : ActionObj) (redirect : value) (i : Z) (l : list ref) (w : World) :
  acts w !! self = Some me →
  targeted me = Some (redirect, i) →
  redirect ≠ VNone →
  eval_in_game L redirect source (scene w) = Done l →
  length l ≠ 1%nat →
  TargetedAction_trigger L get_target_args do self source w =
    (Raised (Known AssertionError), w).
Proof.
  intros Hme Ht Hr He Hl. unfold TargetedAction_trigger.
  rewrite (wbind_done _ _ w w me) by by apply instance_done.
  apply wbind_raised.
  unfold resolve_source. rewrite Ht.
  destruct redirect; try done; unfold_w; rewrite He;
    by destruct l as [| ? [| ? ?]].
Qed.

(** And with exactly one, the loop runs from the entity selected. *)
Lemma resolve_source_redirected (me : ActionObj) (redirect : value) (i : Z)
    (source s : ref) (w : World) :
  targeted me = Some (redirect, i) →
  redirect ≠ VNone →
  eval_in_game L redirect source (scene w) = Done [s] →
  resolve_source L me source w = (Done s, w).
Proof.
  intros Ht Hr He. unfold resolve_source. rewrite Ht.
  by destruct redirect; try done; unfold_w; rewrite He.
Qed.

End TriggerProperties.

Section TriggerLoopProperties.

Variable L : Layer.
Variable get_target_args : aref → ref → ref → W targs.
Variable do : aref → ref → ref → list obj → W obj.

(** Looking the targets up reads the scene and calls nothing. *)
Lemma get_targets_reads (source : ref) (t : value) (w : World) :
  ∃ r, ∀ w2, scene w2 = scene w → get_targets L source t w2 = (r, w2).
Proof.
  exists (get_targets L source t w).1. intros w2 Hs.
  destruct t; simpl; unfold_w; rewrite ?Hs; try done;
    by repeat case_match.
Qed.

Lemma get_targets_same_scene (source : ref) (t : value) (w w2 : World)
    (r : outcome (list ref)) :
  get_targets L source t w = (r, w) → scene w2 = scene w →
  get_targets L source t w2 = (r, w2).
Proof.
  intros H Hs. destruct (get_targets_reads source t w) as [r' Hr].
  rewrite (Hr w eq_refl) in H. injection H as <-. by apply Hr.
Qed.

Lemma lift_emit (e : Event) (w : World) :
  lift (emit e) w =
    (Done tt, mkWorld (scene w) (acts w) (calls w ++ [Recorded e])).
Proof. unfold lift, emit. simpl. by rewrite Scene_eta. Qed.

Lemma trigger_once_no_target (self : aref) (source : ref) (i : nat)
    (me : ActionObj) (t : value) (rest : list value) (w : World) :
  acts w !! self = Some me →
  _args me = t :: rest →
  get_targets L source t w = (Done [], w) →
  trigger_once L get_target_args do self source i w =
    (Done [],
     mkWorld (scene w)
       (alter (set_trigger_index (Z.of_nat i)) self (acts w))
       (calls w ++
          [Recorded (EvAction (cls me) source (Some []) rest);
           Recorded (EvActionEnd (cls me) source (Some []) (t :: rest))])).
Proof.
  intros Hme Ha Ht. unfold trigger_once.
  set (w1 := mkWorld (scene w)
               (alter (set_trigger_index (Z.of_nat i)) self (acts w))
               (calls w)).
  assert (H1 : acts w1 !! self = Some (set_trigger_index (Z.of_nat i) me))
    by (simpl; by rewrite lookup_alter_eq, Hme).
  rewrite (wbind_done _ _ w w1 tt) by done.
  rewrite (wbind_done _ _ w1 w1 _ (instance_done _ _ _ H1)).
  simpl. rewrite Ha.
  rewrite (wbind_done _ _ w1 w1 [])
    by by apply (get_targets_same_scene source t w).
  erewrite wbind_done by apply lift_emit.
  erewrite wbind_done by reflexivity.
  erewrite wbind_done by (apply instance_done; simpl; exact H1).
  erewrite wbind_done by apply lift_emit.
  simpl. rewrite Ha. unfold mret, W_ret, wret. by rewrite <- app_assoc.
Qed.

Lemma trigger_from_no_target (self : aref) (source : ref) (t : value)
    (rest : list value) (c : ActionClass) (n : nat) :
  ∀ (i : nat) (me : ActionObj) (w : World),
    acts w !! self = Some me →
    _args me = t :: rest →
    cls me = c →
    get_targets L source t w = (Done [], w) →
    ∃ w' me',
      trigger_from L get_target_args do self source i n w = (Done [], w') ∧
      scene w' = scene w ∧
      calls w' = calls w ++
        concat (replicate n
          [Recorded (EvAction c source (Some []) rest);
           Recorded (EvActionEnd c source (Some []) (t :: rest))]) ∧
      acts w' !! self = Some me' ∧
      event_queue me' = event_queue me ∧
      (∀ a, a ≠ self → acts w' !! a = acts w !! a).
Proof.
  induction n as [| n IH]; intros i me w Hme Ha Hc Ht.
  - exists w, me. simpl. by rewrite app_nil_r.
  - cbn [trigger_from].
    erewrite wbind_done by by eapply trigger_once_no_target.
    set (w1 := mkWorld _ _ _).
    destruct (IH (S i) (set_trigger_index (Z.of_nat i) me) w1)
      as (w' & me' & Hrun & Hs & Hcalls & Hme' & Hq & Hoth).
    + simpl. by rewrite lookup_alter_eq, Hme.
    + done.
    + done.
    + assert (Hw : get_targets L source t w1 = (Done [], w1))
        by by apply (get_targets_same_scene source t w).
      done.
    + exists w', me'. erewrite wbind_done by exact Hrun.
      split; [done |]. split; [done |].
      split; [| split; [done | split; [done |]]].
      * rewrite Hcalls. simpl. rewrite Hc. by rewrite <- app_assoc.
      * intros a Hne. rewrite Hoth by done. simpl.
        by rewrite lookup_alter_ne.
Qed.

(** X7: when the target argument selects nothing, the action is announced to
    the manager and closed again, once for each repetition, and that is
    all: [get_target_args] and [do] are not run, whatever the class, no
    callback is queued and the result is empty.  The closing hook is
    passed all the arguments of the action, the opening hook all but the
    first. *)
Theorem trigger_without_target_only_announces (self : aref) (source : ref)
    (me : ActionObj) (t : value) (rest : list value) (n : Z) (w : World) :
  acts w !! self = Some me →
  unredirected me →
  times me = VInt n →
  event_queue me = [] →
  _args me = t :: rest →
  get_targets L source t w = (Done [], w) →
  ∃ w',
    TargetedAction_trigger L get_target_args do self source w =
      (Done [], w') ∧
    scene w' = scene w ∧
    calls w' = calls w ++
      concat (replicate (Z.to_nat n)
        [Recorded (EvAction (cls me) source (Some []) rest);
         Recorded (EvActionEnd (cls me) source (Some []) (t :: rest))]) ∧
    (∀ a, a ≠ self → acts w' !! a = acts w !! a).
Proof.
  intros Hme Hs Ht Hq Ha Hg. unfold TargetedAction_trigger.
  rewrite (wbind_done _ _ w w me) by by apply instance_done.
  rewrite (wbind_done _ _ w w source)
    by by apply resolve_source_unredirected.
  rewrite (wbind_done _ _ w w me) by by apply instance_done.
  rewrite Ht. simpl.
  rewrite (wbind_done _ _ w w n) by done.
  destruct (trigger_from_no_target self source t rest (cls me)
              (Z.to_nat n) 0 me w)
    as (w' & me' & Hrun & Hsc & Hcalls & Hme' & Hq' & Hoth); try done.
  erewrite wbind_done by exact Hrun.
  erewrite wbind_done
    by (apply (resolve_broadcasts_empty L self me'); congruence).
  by exists w'.
Qed.

End TriggerLoopProperties.

(** X8: the loop of [TargetedAction.trigger], run on a newly built
    [Damage(target)], is the straight-line [Damage_trigger]: the action is
    announced with the one target, the staged amount is read and dealt,
    the action is closed, and the result is the one amount dealt. *)
Theorem trigger_on_Damage_is_Damage_trigger (L : Layer) (self : aref)
    (source target : ref) (w : World) :
  acts w !! self = Some (construct Damage [VEnt target] ∅) →
  TargetedAction_trigger L Damage_method_get_target_args
      (Damage_method_do (base L)) self source w =
    (r ← lift (Damage_trigger (base L) source target);
     wret (as_amounts r)) w.
Proof.
  intros Hme. unfold TargetedAction_trigger.
  set (me := construct Damage [VEnt target] ∅) in *.
  assert (Hsame : alter (set_trigger_index (Z.of_nat 0)) self (acts w)
                  = acts w) by by apply (alter_same _ _ me).
  rewrite (wbind_done _ _ w w me) by by apply instance_done.
  rewrite (wbind_done _ _ w w source)
    by (apply resolve_source_unredirected; right; by exists 0).
  rewrite (wbind_done _ _ w w me) by by apply instance_done.
  change (times me) with (VInt 1). simpl.
  rewrite (wbind_done _ _ w w 1) by done.
  change (Z.to_nat 1) with 1%nat. cbn [trigger_from].
  unfold trigger_once, Damage_trigger, Damage_method_get_target_args,
    Damage_method_do, Damage_get_target_args, Damage_do, broadcast,
    as_amounts, trigger_targets, trigger_target, resolve_broadcasts.
  unfold lift, instance, update_instance, mbind, W_bind, wbind, mret, W_ret,
    wret, M_bind, M_ret, bind, ret, attr, gets, modify, emit, call.
  simpl. rewrite Hsame, Hme. simpl.
  destruct (_hit (base L) target _ _) as [amount g] eqn:Hhit. simpl.
  destruct (bool_decide (type _ = MINION) && _); simpl;
    destruct (bool_decide (amount ≠ 0)); simpl;
    repeat (first [rewrite Hme | rewrite (alter_same _ _ me) by done];
            simpl);
    rewrite ?app_nil_r; repeat rewrite <- app_assoc; reflexivity.
Qed.

(** ** Steal and Swap *)

Section ZoneProperties.

Variable L : Layer.
Hypothesis setter : setter_assigns L.

(** X11: [Steal.do] takes the target out of its zone and puts it back: between
    the two zone changes the target changes hands, so it ends in the zone
    it was in, under the new controller, with no turn in play. *)
Theorem Steal_returns_target_to_its_zone (source target c : ref)
    (w : World) :
  ∃ w',
    Steal_do L source target c w = (Done ONone, w') ∧
    zone (ent (sc_game (scene w')) target) =
      zone (ent (sc_game (scene w)) target) ∧
    controller (ent (sc_game (scene w')) target) = c ∧
    sc_ints (scene w') target "turns_in_play" = 0 ∧
    calls w' = calls w ++
      [Recorded (EvZone target SETASIDE);
       Recorded (EvZone target (zone (ent (sc_game (scene w)) target)))].
Proof.
  unfold Steal_do. unfold_w. simpl. eexists. split; [reflexivity |].
  simpl.
  set (z := zone (ent (sc_game (scene w)) target)).
  set (x1 := on_zone L target SETASIDE (scene w)).
  set (x2 := set_int target "turns_in_play" 0
               (set_ent target (with_controller c) x1)).
  destruct (setter target z x2) as (Hz & _ & Hc & Hi).
  split; [exact Hz |]. split; [| split].
  - rewrite Hc. subst x2. simpl. by rewrite fn_lookup_alter.
  - rewrite Hi. subst x2. simpl. by rewrite bool_decide_eq_true_2.
  - by rewrite <- app_assoc.
Qed.

(** X12: [Swap.do] exchanges the zones of the two minions: each ends in the
    zone the other was in, and no other entity moves. *)
Theorem Swap_exchanges_zones (source target other : ref) (w : World) :
  ∃ w',
    Swap_do L source target (Some other) w = (Done ONone, w') ∧
    zone (ent (sc_game (scene w')) target) =
      zone (ent (sc_game (scene w)) other) ∧
    zone (ent (sc_game (scene w')) other) =
      zone (ent (sc_game (scene w)) target) ∧
    (∀ r, r ≠ target → r ≠ other →
       zone (ent (sc_game (scene w')) r) =
       zone (ent (sc_game (scene w)) r)) ∧
    calls w' = calls w ++
      [Recorded (EvZone target (zone (ent (sc_game (scene w)) other)));
       Recorded (EvZone other (zone (ent (sc_game (scene w)) target)))].
Proof.
  unfold Swap_do. unfold_w. simpl. eexists. split; [reflexivity |].
  simpl.
  set (zt := zone (ent (sc_game (scene w)) target)).
  set (zo := zone (ent (sc_game (scene w)) other)).
  set (x1 := on_zone L target zo (scene w)).
  destruct (setter target zo (scene w)) as (Hz1 & Hoth1 & _ & _).
  destruct (setter other zt x1) as (Hz2 & Hoth2 & _ & _).
  fold x1 in Hz1, Hoth1.
  split; [| split; [exact Hz2 | split]].
  - destruct (decide (target = other)) as [-> |].
    + rewrite Hz2. by subst zt zo.
    + by rewrite Hoth2, Hz1.
  - intros r Hrt Hro. by rewrite Hoth2, Hoth1.
  - by rewrite <- app_assoc.
Qed.

End ZoneProperties.

(** Without another minion [Swap.do] does nothing. *)
Lemma Swap_without_other (L : Layer) (source target : ref) (w : World) :
  Swap_do L source target None w = (Done ONone, w).
Proof. reflexivity. Qed.

(** ** Heal *)

(** X13: [Heal.do] heals by the amount asked for, doubled as often as the
    controller of the source says, but by no more than the damage of the
    target: the damage never falls below zero.  The event is not
    broadcast by [do]: it is deferred, and it carries the amount that was
    healed, not the amount that was asked for.  On an undamaged target
    nothing is deferred. *)
Theorem Heal_heals_at_most_the_damage (L : Layer) (self : aref)
    (source target : ref) (amount : Z) (me : ActionObj) (w : World) :
  let c := controller (ent (sc_game (scene w)) source) in
  let double := sc_ints (scene w) c "healing_double" in
  let damage := sc_ints (scene w) target "damage" in
  let healed := Z.min (amount * 2 ^ double) damage in
  acts w !! self = Some me →
  sc_ints (scene w) c "outgoing_healing_adjustment" = 0 →
  0 ≤ double →
  ∃ w',
    Heal_do L self source target amount w = (Done ONone, w') ∧
    calls w' = calls w ∧
    sc_ints (scene w') target "damage" = damage - healed ∧
    (0 ≤ amount → 0 ≤ damage →
       0 ≤ healed ≤ damage ∧ 0 ≤ sc_ints (scene w') target "damage") ∧
    event_queue <$> acts w' !! self =
      Some (event_queue me ++
            if bool_decide (healed = 0) then []
            else [deferred (self, source, ON, [VEnt target; VInt healed])]).
Proof.
  intros c double damage healed Hme Hadj Hd.
  unfold Heal_do. unfold_w. simpl. fold c. rewrite Hadj.
  unfold truthy. rewrite bool_decide_eq_false_2 by lia.
  fold double. rewrite bool_decide_eq_false_2 by lia.
  fold damage. rewrite Z.shiftl_mul_pow2 by done. fold healed.
  assert (Hb : 0 ≤ amount → 0 ≤ damage → 0 ≤ healed ≤ damage).
  { intros Ha Hdm. subst healed.
    assert (0 < 2 ^ double) by by apply Z.pow_pos_nonneg. nia. }
  destruct (decide (healed = 0)) as [H0 | H0].
  - rewrite (bool_decide_eq_false_2 (healed ≠ 0)) by lia.
    rewrite bool_decide_eq_true_2 by done.
    exists w. rewrite Hme, app_nil_r, H0. simpl.
    repeat split; try done; try lia. all: intros; lia.
  - rewrite (bool_decide_eq_true_2 (healed ≠ 0)) by done.
    rewrite (bool_decide_eq_false_2 (healed = 0)) by done.
    eexists. split; [reflexivity |]. simpl.
    rewrite bool_decide_eq_true_2 by done.
    rewrite lookup_alter_eq, Hme. simpl.
    repeat split; try done. all: intros; specialize (Hb ltac:(done) ltac:(done)); lia.
Qed.

(** ** Summon *)

Lemma broadcasts_app (a b : list Call) :
  broadcasts (a ++ b) = broadcasts a ++ broadcasts b.
Proof. unfold broadcasts. by rewrite omap_app. Qed.

Section SummonProperties.

Variable L : Layer.

(** Which cards can be summoned does not change while they are summoned,
    and the source has a place on the field of its controller. *)
Variable ok : ref → bool.
Hypothesis summonable : ∀ card x, is_summonable L card x = ok card.
Hypothesis placed : ∀ p s x, is_Some (field_index L p s x).

Lemma Summon_card_broadcasts (self : aref) (source target card : ref)
    (me : ActionObj) (w : World) :
  acts w !! self = Some me →
  ∃ w' me',
    Summon_card L self source target (OVal (VEnt card)) w = (Done tt, w') ∧
    broadcasts (calls w') = broadcasts (calls w) ++
      (if ok card then [(cls me, AFTER, [VEnt target; VEnt card])] else []) ∧
    acts w' !! self = Some me' ∧
    cls me' = cls me ∧
    event_queue me' = event_queue me ++
      (if ok card
       then [deferred (self, source, ON, [VEnt target; VEnt card])]
       else []).
Proof.
  intros Hme. unfold Summon_card. unfold_w. simpl.
  rewrite summonable. destruct (ok card); simpl.
  2: { exists w, me. by rewrite !app_nil_r. }
  destruct (bool_decide (controller _ ≠ target)); simpl;
    (destruct (bool_decide (zone _ ≠ PLAY)); simpl;
     [ destruct (bool_decide (type _ = MINION) && _); simpl;
       [ match goal with
         | |- context [field_index L ?p ?s ?x] =>
             destruct (placed p s x) as [i ->]
         end; simpl; rewrite Hme; simpl |]
     |]);
    rewrite ?Hme; simpl;
    eexists _, _; (split; [reflexivity |]); simpl;
    rewrite lookup_alter_eq, Hme; simpl;
    rewrite ?broadcasts_app; simpl; rewrite ?app_nil_r; done.
Qed.

Lemma Summon_cards_broadcast (self : aref) (source target : ref)
    (cards : list ref) :
  ∀ (me : ActionObj) (w : World),
    acts w !! self = Some me →
    ∃ w' me',
      Summon_cards L self source target ((λ r, OVal (VEnt r)) <$> cards) w
        = (Done tt, w') ∧
      broadcasts (calls w') = broadcasts (calls w) ++
        ((λ c, (cls me, AFTER, [VEnt target; VEnt c])) <$>
           filter (λ c, ok c = true) cards) ∧
      acts w' !! self = Some me' ∧
      cls me' = cls me ∧
      event_queue me' = event_queue me ++
        ((λ c, deferred (self, source, ON, [VEnt target; VEnt c])) <$>
           filter (λ c, ok c = true) cards).
Proof.
  induction cards as [| card rest IH]; intros me w Hme.
  - exists w, me. simpl. by rewrite !app_nil_r.
  - cbn [fmap list_fmap Summon_cards].
    destruct (Summon_card_broadcasts self source target card me w Hme)
      as (w1 & me1 & Hrun1 & Hb1 & Hme1 & Hc1 & Hq1).
    destruct (IH me1 w1 Hme1) as (w' & me' & Hrun & Hb & Hme' & Hc & Hq).
    exists w', me'. erewrite wbind_done by exact Hrun1.
    split; [exact Hrun |]. split; [| split; [done | split; [congruence |]]].
    + rewrite Hb, Hb1, Hc1. destruct (ok card) eqn:E.
      * rewrite filter_cons_True by done. simpl. by rewrite <- app_assoc.
      * rewrite filter_cons_False by congruence. by rewrite app_nil_r.
    + rewrite Hq, Hq1. destruct (ok card) eqn:E.
      * rewrite filter_cons_True by done. simpl. by rewrite <- app_assoc.
      * rewrite filter_cons_False by congruence. by rewrite app_nil_r.
Qed.

(** X14: [Summon.do] tells the listeners that a card has been summoned as soon
    as the card is in play, and only defers the event of its summoning:
    once the deferred events are flushed, the listeners have heard the
    [AFTER] event of every card before the [ON] event of any.  A card that
    cannot be summoned is skipped, with no event, but the result is the
    list of the cards as given, the skipped ones among them. *)
Theorem Summon_announces_after_before_on (self : aref)
    (source target : ref) (cards : list ref) (me : ActionObj) (w : World) :
  acts w !! self = Some me →
  event_queue me = [] →
  let summoned := filter (λ c, ok c = true) cards in
  ∃ w' w'',
    Summon_do L self source target (OEnts cards) w = (Done (OEnts cards), w') ∧
    broadcasts (calls w') = broadcasts (calls w) ++
      ((λ c, (cls me, AFTER, [VEnt target; VEnt c])) <$> summoned) ∧
    resolve_broadcasts L self w' = (Done tt, w'') ∧
    broadcasts (calls w'') = broadcasts (calls w) ++
      ((λ c, (cls me, AFTER, [VEnt target; VEnt c])) <$> summoned) ++
      ((λ c, (cls me, ON, [VEnt target; VEnt c])) <$> summoned).
Proof.
  intros Hme Hq summoned. unfold Summon_do, OEnts.
  destruct (Summon_cards_broadcast self source target cards me w Hme)
    as (w' & me' & Hrun & Hb & Hme' & Hc & Hq').
  rewrite Hq in Hq'. simpl in Hq'.
  erewrite wbind_done by exact Hrun.
  unfold resolve_broadcasts.
  eexists w', _. split; [reflexivity |]. split; [exact Hb |].
  erewrite wbind_done by by apply instance_done.
  replace (event_queue me') with
    (deferred <$>
       ((λ c, (self, source, ON, [VEnt target; VEnt c])) <$> summoned))
    by by rewrite Hq', <- list_fmap_compose.
  erewrite wbind_done.
  2: { apply broadcast_records_flush.
       intros r Hr. apply list_elem_of_fmap in Hr as (c & -> & _).
       simpl. by rewrite Hme'. }
  split; [reflexivity |]. simpl.
  rewrite broadcasts_app, Hb, <- app_assoc. f_equal. f_equal.
  rewrite <- list_fmap_compose. unfold broadcasts.
  clearbody summoned. clear -Hme' Hc.
  induction summoned as [| c l IH]; [done |].
  cbn [fmap list_fmap omap list_omap compose]. unfold flushed at 1.
  cbn [fst snd]. rewrite Hme'. cbn [fmap option_fmap option_map default].
  rewrite Hc. f_equal. exact IH.
Qed.

End SummonProperties.

(** ** The mulligan *)

Section MulliganProperties.

Variable L : Layer.
Variable INPUT DONE : Z.

Lemma mulligan_loop_offered (offered cards : list ref) :
  ∀ w,
    Forall (λ c, c ∈ offered) cards →
    mulligan_loop L offered cards w =
      (Done tt,
       mkWorld (foldl (λ x c, on_zone L c DECK x) (scene w) cards)
         (acts w)
         (calls w ++ ((λ c, Recorded (EvZone c DECK)) <$> cards))).
Proof.
  induction cards as [| c rest IH]; intros w Hall.
  - simpl. by rewrite app_nil_r, World_eta.
  - inversion Hall as [| ? ? Hc Hrest]; subst.
    cbn [mulligan_loop]. unfold wassert.
    rewrite bool_decide_eq_true_2 by done. unfold_w. simpl.
    rewrite IH by done. simpl. by rewrite <- app_assoc.
Qed.

Lemma mulligan_loop_not_offered (offered pre post : list ref) (bad : ref) :
  ∀ w,
    Forall (λ c, c ∈ offered) pre →
    bad ∉ offered →
    mulligan_loop L offered (pre ++ bad :: post) w =
      (Raised (Known AssertionError),
       mkWorld (foldl (λ x c, on_zone L c DECK x) (scene w) pre)
         (acts w)
         (calls w ++ ((λ c, Recorded (EvZone c DECK)) <$> pre))).
Proof.
  induction pre as [| c rest IH]; intros w Hall Hbad.
  - simpl. unfold wassert. rewrite bool_decide_eq_false_2 by done.
    unfold_w. by rewrite app_nil_r, World_eta.
  - inversion Hall as [| ? ? Hc Hrest]; subst.
    cbn [app mulligan_loop]. unfold wassert.
    rewrite bool_decide_eq_true_2 by done. unfold_w. simpl.
    rewrite IH by done. simpl. by rewrite <- app_assoc.
Qed.

(** X15: [MulliganChoice.choose] refuses a card that was not offered, but only
    when it comes to it: by then the player has drawn as many cards as
    were chosen, and the cards chosen before it have gone to the deck.
    The deck is not shuffled and the choice is not closed. *)
Theorem Mulligan_refuses_late (player : ref)
    (offered pre post : list ref) (bad : ref) (w : World) :
  Forall (λ c, c ∈ offered) pre →
  bad ∉ offered →
  let cards := pre ++ bad :: post in
  ∃ w',
    MulliganChoice_choose L DONE player offered cards w =
      (Raised (Known AssertionError), w') ∧
    calls w' = calls w ++
      CallMethod player "draw" [VInt (Z.of_nat (length cards))] ::
      ((λ c, Recorded (EvZone c DECK)) <$> pre).
Proof.
  intros Hall Hbad cards. unfold MulliganChoice_choose.
  unfold call_method, wcall.
  destruct (method L player "draw" [VInt (Z.of_nat (length cards))]
              (scene w)) as [v x] eqn:Hm.
  erewrite wbind_done by (rewrite Hm; reflexivity).
  erewrite wbind_raised by by apply mulligan_loop_not_offered.
  eexists. split; [reflexivity |]. simpl. by rewrite <- app_assoc.
Qed.

(** X16: when every card chosen was offered, the player draws that many cards,
    each chosen card goes to the deck in the order given, the deck is
    shuffled, and the mulligan is done. *)
Theorem Mulligan_returns_chosen_cards (player : ref)
    (offered cards : list ref) (w : World) :
  Forall (λ c, c ∈ offered) cards →
  ∃ w',
    MulliganChoice_choose L DONE player offered cards w = (Done tt, w') ∧
    calls w' = calls w ++
      CallMethod player "draw" [VInt (Z.of_nat (length cards))] ::
      ((λ c, Recorded (EvZone c DECK)) <$> cards) ++
      [CallMethod player "shuffle_deck" []] ∧
    sc_ints (scene w') player "mulligan_state" = DONE.
Proof.
  intros Hall. unfold MulliganChoice_choose.
  unfold call_method, wcall.
  destruct (method L player "draw" [VInt (Z.of_nat (length cards))]
              (scene w)) as [v x] eqn:Hm.
  erewrite wbind_done by (rewrite Hm; reflexivity).
  erewrite wbind_done by by apply mulligan_loop_offered.
  unfold_w. simpl.
  destruct (method L player "shuffle_deck" [] _) as [v' x'] eqn:Hm'.
  eexists. split; [reflexivity |]. simpl.
  split; [by rewrite <- !app_assoc | by rewrite bool_decide_eq_true_2].
Qed.

(** X17: The Coin is not offered in the mulligan: after [MulliganChoice.do],
    choosing it is refused, whether or not it is in the hand; the cards
    to replace the chosen ones have been drawn by then. *)
Theorem Mulligan_never_returns_the_coin (self : aref)
    (source player coin : ref) (post : list ref) (w : World) :
  card_id L coin = "GAME_005"%string →
  ∃ w',
    (offered ← MulliganChoice_do L INPUT self source player;
     MulliganChoice_choose L DONE player offered (coin :: post)) w =
      (Raised (Known AssertionError), w') ∧
    calls w' = calls w ++
      [CallMethod player "draw" [VInt (Z.of_nat (length (coin :: post)))]].
Proof.
  intros Hcoin.
  erewrite wbind_done by reflexivity.
  set (w1 := mkWorld _ _ _).
  set (offered := filter _ _).
  assert (Hbad : coin ∉ offered).
  { subst offered. rewrite list_elem_of_filter. tauto. }
  unfold MulliganChoice_choose, call_method, wcall.
  destruct (method L player "draw" [VInt (Z.of_nat (length (coin :: post)))]
              (scene w1)) as [v x] eqn:Hm.
  erewrite wbind_done by (rewrite Hm; reflexivity).
  erewrite wbind_raised
    by by apply (mulligan_loop_not_offered offered [] post coin).
  eexists. split; [reflexivity |]. simpl. by rewrite app_nil_r.
Qed.

End MulliganProperties.

(** ** Play *)

Section PlayProperties.

Variable L : Layer.

Lemma Play_enter_calls (self : aref)
    (source player card : ref) (target index choose : value)
    (me : ActionObj) (w : World) :
  acts w !! self = Some me →
  event_queue me = [] →
  ∃ w' summon_action me',
    Play_enter L self source player card target index choose w =
      (Done summon_action, w') ∧
    acts w !! summon_action = None ∧
    acts w' !! summon_action =
      Some (construct Summon [VEnt player; VEnt card] ∅) ∧
    acts w' !! self = Some me' ∧ cls me' = cls me ∧
    calls w' = calls w ++
      [CallMethod player "pay_mana" [VInt (sc_ints (scene w) card "cost")];
       Recorded (EvZone card PLAY);
       Recorded (EvBroadcast (cls me) player ON
                   [VEnt player; VEnt card; target]);
       Recorded (EvBroadcast Summon player ON [VEnt player; VEnt card]);
       CallMethod (game_entity L) "refresh_auras" []].
Proof.
  intros Hme Hq. unfold Play_enter.
  set (summon_action := fresh (dom (acts w))).
  assert (Hfresh : acts w !! summon_action = None).
  { apply not_elem_of_dom. apply is_fresh. }
  assert (Hne : summon_action ≠ self) by congruence.
  unfold_w. unfold alloc. simpl.
  destruct (method L player "pay_mana" _ _) as [v x] eqn:Hm. simpl.
  fold summon_action.
  rewrite lookup_alter_eq, lookup_insert_ne, Hme by done. simpl.
  unfold resolve_broadcasts. unfold_w. simpl.
  rewrite lookup_alter_eq, lookup_insert_ne, Hme by done. simpl.
  rewrite Hq. simpl. unfold broadcast_record. unfold_w. simpl.
  rewrite lookup_alter_ne, lookup_insert_eq by done. simpl.
  destruct (method L (game_entity L) "refresh_auras" _ _) as [v' x'] eqn:Hm'.
  eexists _, summon_action, _. split; [reflexivity |]. simpl.
  split; [done |]. split; [| split; [| split]].
  - by rewrite lookup_alter_ne, lookup_alter_ne, lookup_insert_eq.
  - by rewrite !lookup_alter_eq, lookup_insert_ne, Hme.
  - done.
  - by rewrite <- !app_assoc.
Qed.

(** X18: what [Play.do] calls, in order.  The cost is paid and the card put in
    play; then the listeners hear of the play and, after it, of the summon
    that the play stands for, although the summon is put in the queue
    first, and whatever the type of the card; then the auras are
    refreshed.  Unless the card has been countered by then, its battlecry
    is queued, from the card itself and on the target the card then has,
    and the listeners hear that the summon is over and that the play is
    over, of the card or of what it has morphed into. *)
Theorem Play_calls_in_order (self : aref)
    (source player card : ref) (target index choose : value)
    (me : ActionObj) (w : World) :
  acts w !! self = Some me →
  event_queue me = [] →
  ∃ w1 summon_action w',
    Play_enter L self source player card target index choose w =
      (Done summon_action, w1) ∧
    Play_do L self source player card target index choose w =
      (Done tt, w') ∧
    let battlecry :=
      construct Battlecry
        [if present choose then choose else VEnt card;
         sc_objs (scene w1) card "target"] ∅ in
    let morphed :=
      sc_objs (on_queue L card [battlecry] (scene w1)).2 card "morphed" in
    let played := if present morphed then morphed else VEnt card in
    calls w' = calls w ++
      [CallMethod player "pay_mana" [VInt (sc_ints (scene w) card "cost")];
       Recorded (EvZone card PLAY);
       Recorded (EvBroadcast (cls me) player ON
                   [VEnt player; VEnt card; target]);
       Recorded (EvBroadcast Summon player ON [VEnt player; VEnt card]);
       CallMethod (game_entity L) "refresh_auras" []] ++
      (if truthy (sc_ints (scene w1) card "cant_play") then []
       else
         [Recorded (EvQueue card [battlecry]);
          Recorded (EvBroadcast Summon player AFTER [VEnt player; played]);
          Recorded (EvBroadcast (cls me) player AFTER
                      [VEnt player; played; target])]).
Proof.
  intros Hme Hq.
  destruct (Play_enter_calls self source player card target index choose
              me w Hme Hq)
    as (w1 & sa & me' & Hrun & _ & Hsa & Hme' & Hc & Hcalls).
  exists w1, sa. unfold Play_do.
  erewrite wbind_done by exact Hrun.
  unfold Play_resolve. unfold_w. simpl.
  destruct (truthy (sc_ints (scene w1) card "cant_play")); simpl.
  - destruct (bool_decide (type _ = MINION)); simpl;
      (eexists; split; [exact Hrun | split; [reflexivity |]]); simpl;
      by rewrite Hcalls, ?app_nil_r.
  - destruct (on_queue L card _ (scene w1)) as [rs x] eqn:Hqd. simpl.
    rewrite Hsa. simpl. rewrite Hme'. simpl.
    destruct (bool_decide (type _ = MINION)); simpl;
      (eexists; split; [exact Hrun | split; [reflexivity |]]); simpl;
      by rewrite Hcalls, Hc, <- !app_assoc.
Qed.

(** X19: a card that has been countered has no battlecry and its play is not
    announced as over, neither as a play nor as a summon: nothing is
    called.  It counts as played all the same: the combo is on, the card
    is the last card played, the cards played this turn are one more, the
    minions played this turn too when it is a minion, and the target of
    the card is forgotten. *)
Theorem Play_countered_still_counts (self summon_action : aref)
    (source player card : ref) (target index choose : value) (w : World) :
  sc_ints (scene w) card "cant_play" ≠ 0 →
  ∃ w',
    Play_resolve L self summon_action source player card target index choose
      w = (Done tt, w') ∧
    calls w' = calls w ∧
    acts w' = acts w ∧
    sc_ints (scene w') player "combo" = 1 ∧
    sc_objs (scene w') player "last_card_played" = VEnt card ∧
    sc_ints (scene w') player "cards_played_this_turn" =
      sc_ints (scene w) player "cards_played_this_turn" + 1 ∧
    sc_ints (scene w') player "minions_played_this_turn" =
      sc_ints (scene w) player "minions_played_this_turn" +
      (if bool_decide (type (ent (sc_game (scene w)) card) = MINION)
       then 1 else 0) ∧
    sc_objs (scene w') card "target" = VNone.
Proof.
  intros Hc. unfold Play_resolve. unfold_w. unfold truthy.
  rewrite (bool_decide_eq_true_2 _ Hc). simpl.
  destruct (bool_decide (type _ = MINION)) eqn:Ht; simpl;
    (eexists; split; [reflexivity |]); simpl;
    repeat (rewrite ?bool_decide_eq_true_2 by done;
            rewrite ?(bool_decide_eq_false_2 (_ ∧ _))
              by (intros [_ ?]; done));
    repeat split; try done; try lia.
Qed.

End PlayProperties.

(** ** Cards as arguments *)

Section CardProperties.

Variable L : Layer.

Lemma card_ids_cons_plain (c : obj) (l : list obj) :
  ¬ is_id c → card_ids (c :: l) = card_ids l.
Proof.
  intros H. unfold card_ids. simpl.
  destruct c as [[] |]; try done. destruct H. by eexists.
Qed.

Lemma materialize_keeps_cards (source : ref) (cards : list obj) :
  ∀ w,
    ∃ r w',
      materialize L source cards w = (Done r, w') ∧
      length r = length cards ∧
      (∀ i c, cards !! i = Some c → ¬ is_id c → r !! i = Some c) ∧
      (∀ i id, cards !! i = Some (OVal (VStr id)) →
         r !! i =
           (λ p, OVal p.2) <$>
             asked L source (card_ids cards) (scene w)
               !! length (card_ids (take i cards))) ∧
      acts w' = acts w ∧
      calls w' = calls w ++
        (asked L source (card_ids cards) (scene w)).*1.
Proof.
  induction cards as [| card rest IH]; intros w.
  - exists [], w. simpl. by rewrite app_nil_r.
  - cbn [materialize].
    assert (Hcase : is_id card ∨ ¬ is_id card).
    { destruct card as [[] |]; try (right; intros [? ?]; done).
      left. by eexists. }
    destruct Hcase as [[id ->] | Hplain].
    + unfold_w. simpl.
      destruct (method L _ "card" _ (scene w)) as [v x] eqn:Hm.
      set (w1 := mkWorld x (acts w) _).
      destruct (IH w1) as (r & w' & Hrun & Hlen & Hpos & Hids & Ha & Hc).
      rewrite Hrun.
      exists (OVal v :: r), w'.
      split; [done |]. split; [simpl; lia |].
      change (card_ids (OVal (VStr id) :: rest)) with (id :: card_ids rest).
      cbn [asked]. rewrite ?Hm. cbn [fst snd].
      split; [| split; [| split; [done |]]].
      * intros [| i] c Hi Hn; simpl in *.
        -- injection Hi as <-. destruct Hn. by eexists.
        -- by apply Hpos.
      * intros [| i] id' Hi; [done |].
        change (take (S i) (OVal (VStr id) :: rest))
          with (OVal (VStr id) :: take i rest).
        change (card_ids (OVal (VStr id) :: take i rest))
          with (id :: card_ids (take i rest)).
        simpl in Hi. simpl. exact (Hids i id' Hi).
      * rewrite Hc. simpl. by rewrite <- app_assoc.
    + assert (Hsame :
        (c ← match card with
             | OVal (VStr id) =>
                 ctl ← wattr source controller;
                 v ← call_method L ctl "card" [VStr id; VEnt source];
                 wret (OVal v)
             | _ => wret card
             end;
         cs ← materialize L source rest;
         wret (c :: cs)) w =
        (cs ← materialize L source rest; wret (card :: cs)) w).
      { destruct card as [[] |]; try done. destruct Hplain. by eexists. }
      rewrite Hsame.
      destruct (IH w) as (r & w' & Hrun & Hlen & Hpos & Hids & Ha & Hc).
      erewrite wbind_done by exact Hrun.
      exists (card :: r), w'.
      rewrite (card_ids_cons_plain card rest Hplain).
      split; [done |]. split; [simpl; lia |].
      split; [| split; [| split; [done | done]]].
      * intros [| i] c Hi Hn; simpl in *; [done | by apply Hpos].
      * intros [| i] id' Hi.
        -- simpl in Hi. injection Hi as ->. destruct Hplain. by eexists.
        -- change (take (S i) (card :: rest)) with (card :: take i rest).
           rewrite (card_ids_cons_plain card (take i rest) Hplain).
           simpl in Hi. simpl. exact (Hids i id' Hi).
Qed.

(** X9: on an argument that is neither a lazy value nor an action,
    [_eval_card] does not fail and returns as many cards as it was given,
    one for a single card: what is not a string is returned as it is, in
    its place; for each string, in the order of the strings, the
    controller that the source has at that moment is asked for the card
    of that id, with the source as second argument, and what it returns
    takes the place of the string.  Nothing else is called. *)
Theorem _eval_card_keeps_cards (source : ref) (card : obj) (w : World) :
  (∀ l, card ≠ OVal (VLazy l)) →
  (∀ a, card ≠ OVal (VAct a)) →
  let made := asked L source (card_ids (given card)) (scene w) in
  ∃ r w',
    _eval_card L source card w = (Done r, w') ∧
    length r = length (given card) ∧
    (∀ i c, given card !! i = Some c → ¬ is_id c → r !! i = Some c) ∧
    (∀ i id, given card !! i = Some (OVal (VStr id)) →
       r !! i =
         (λ p, OVal p.2) <$>
           made !! length (card_ids (take i (given card)))) ∧
    calls w' = calls w ++ made.*1.
Proof.
  intros Hlazy Hact made.
  destruct (materialize_keeps_cards source (given card) w)
    as (r & w' & Hrun & Hlen & Hpos & Hids & _ & Hc).
  exists r, w'. split; [| done].
  unfold _eval_card.
  destruct card as [[] |]; try exact Hrun.
  - by destruct (Hlazy l).
  - by destruct (Hact a).
Qed.

End CardProperties.

Section TargetArgsProperties.

Variable L : Layer.

Lemma resolve_args_plain (source : ref) (ks : list string) :
  ∀ (vs : list value) (w : World),
    Forall (λ k, String.prefix "CARD" k = false) ks →
    Forall plain_arg vs →
    resolve_args L source (zip ks vs) w =
      (Done (OVal <$> take (length ks) vs), w).
Proof.
  induction ks as [| k ks IH]; intros vs w Hk Hv; [done |].
  destruct vs as [| v vs]; [done |].
  inversion Hk as [| ? ? Hk1 Hk2]; subst.
  inversion Hv as [| ? ? Hv1 Hv2]; subst.
  cbn [zip zip_with resolve_args length take fmap list_fmap].
  assert (Hone : resolve_arg L source k v w = (Done (OVal v), w)).
  { unfold resolve_arg. rewrite Hk1. by destruct v. }
  erewrite wbind_done by exact Hone.
  erewrite wbind_done by by apply IH.
  done.
Qed.

(** X10: the arguments that [do] receives beside the target are the stored
    arguments after the first, as many as the class names parameters
    after [TARGET]: an argument beyond them is dropped, and a parameter
    without an argument is not missed here.  Unless the parameter is
    named as a card, a value that is neither a selector nor a lazy value
    is passed as it is, a string too, and nothing is called. *)
Theorem get_target_args_follows_the_parameters (self : aref)
    (source target : ref) (me : ActionObj) (w : World) :
  acts w !! self = Some me →
  Forall (λ k, String.prefix "CARD" k = false) (tail (ARGS (cls me))) →
  Forall plain_arg (tail (_args me)) →
  TargetedAction_get_target_args L self source target w =
    (Done (OVal <$> take (length (ARGS (cls me)) - 1) (tail (_args me))), w).
Proof.
  intros Hme Hk Hv. unfold TargetedAction_get_target_args.
  erewrite wbind_done by by apply instance_done.
  rewrite resolve_args_plain by done.
  by destruct (ARGS (cls me)); simpl; rewrite ?Nat.sub_0_r.
Qed.

End TargetArgsProperties.

(** ** The further properties on the small scene *)

Lemma plain_setter_assigns : setter_assigns Demo.plain.
Proof.
  intros card z x. simpl. unfold Demo.on_game, move_zone. simpl.
  repeat split.
  - unfold upd. simpl. by rewrite fn_lookup_alter.
  - intros r Hr. unfold upd. simpl.
    rewrite fn_lookup_alter_ne by done.
    destruct (decide (r = controller (ent (sc_game x) card))) as [-> |].
    + by rewrite fn_lookup_alter.
    + by rewrite fn_lookup_alter_ne.
  - intros r. unfold upd. simpl.
    destruct (decide (r = card)) as [-> |];
      [rewrite fn_lookup_alter | rewrite fn_lookup_alter_ne by done];
      simpl;
      (destruct (decide (r = controller (ent (sc_game x) card))) as [-> |]
       || destruct (decide (card = controller (ent (sc_game x) card)))
            as [Hc |]);
      try (rewrite <- Hc); rewrite ?fn_lookup_alter;
      rewrite ?fn_lookup_alter_ne by done; done.
Qed.

(** [Attack.DEFENDER] on the arguments of an attack of minion 3 on
    minion 4. *)
Lemma ActionArg_evaluates_by_position_witness :
  evaluate (mkActionArg "DEFENDER" 1 Attack)
    (Some [VEnt minion3; VEnt minion4]) = Done (VEnt minion4).
Proof.
  refine (proj1 (proj2 (proj2
            (ActionArg_evaluates_by_position Attack "DEFENDER" 1
               (mkActionArg "DEFENDER" 1 Attack)
               [VEnt minion3; VEnt minion4] _ _))) _ (VEnt minion4) _);
    [reflexivity | vm_compute; reflexivity | discriminate | reflexivity].
Defined.

(** The two broadcasts that wait at instance 4 are made in their order. *)
Lemma resolve_broadcasts_flushes_in_order_witness :
  ∃ w',
    resolve_broadcasts Demo.plain 4%positive Demo.waiting = (Done tt, w') ∧
    calls w' =
      [Recorded (EvBroadcast Damage hero1 ON [VInt 1]);
       Recorded (EvBroadcast Summon hero1 AFTER [])].
Proof.
  destruct (resolve_broadcasts_flushes_in_order Demo.plain 4%positive
              (set_event_queue (deferred <$> Demo.records)
                 (construct Heal [VEnt minion4; VInt 3] ∅))
              Demo.records Demo.waiting)
    as (w' & Hrun & Hcalls & _).
  - vm_compute. reflexivity.
  - reflexivity.
  - intros r Hr. unfold Demo.records in Hr.
    apply elem_of_cons in Hr as [-> | Hr];
      [vm_compute; eexists; reflexivity |].
    apply elem_of_cons in Hr as [-> | Hr];
      [vm_compute; eexists; reflexivity |].
    by apply elem_of_nil in Hr.
  - exists w'. split; [exact Hrun |]. rewrite Hcalls. vm_compute. reflexivity.
Defined.

(** The hit at instance 5 is repeated zero times. *)
Lemma trigger_zero_times_does_nothing_witness :
  TargetedAction_trigger Demo.plain
    (TargetedAction_method_get_target_args Demo.plain) (Hit_method_do Demo.plain)
    5%positive hero1 Demo.crowd = (Done [], Demo.crowd).
Proof.
  apply (trigger_zero_times_does_nothing Demo.plain _ _ 5%positive hero1
           (set_times (VInt 0) (construct Hit [VEnt minion4; VInt 1] ∅)) 0).
  - vm_compute. reflexivity.
  - right. exists 0. reflexivity.
  - reflexivity.
  - lia.
  - reflexivity.
Defined.

(** The hit at instance 6 is to come from what selector 2 selects, and that
    is two minions. *)
Lemma trigger_redirect_needs_one_source_witness :
  TargetedAction_trigger Demo.plain
    (TargetedAction_method_get_target_args Demo.plain) (Hit_method_do Demo.plain)
    6%positive hero1 Demo.crowd = (Raised (Known AssertionError), Demo.crowd).
Proof.
  apply (trigger_redirect_needs_one_source Demo.plain _ _ 6%positive hero1
           (construct Hit [VEnt minion4; VInt 1]
              {[ "source"%string := VSel 2 ]})
           (VSel 2) 0 [minion3; minion4]).
  - vm_compute. reflexivity.
  - vm_compute. reflexivity.
  - discriminate.
  - reflexivity.
  - simpl. lia.
Defined.

(** The hit at instance 7, repeated twice, is on what selector 1 selects,
    and that is nothing. *)
Lemma trigger_without_target_only_announces_witness :
  ∃ w',
    TargetedAction_trigger Demo.plain
      (TargetedAction_method_get_target_args Demo.plain) (Hit_method_do Demo.plain)
      7%positive hero1 Demo.crowd = (Done [], w') ∧
    calls w' =
      [Recorded (EvAction Hit hero1 (Some []) [VInt 1]);
       Recorded (EvActionEnd Hit hero1 (Some []) [VSel 1; VInt 1]);
       Recorded (EvAction Hit hero1 (Some []) [VInt 1]);
       Recorded (EvActionEnd Hit hero1 (Some []) [VSel 1; VInt 1])].
Proof.
  destruct (trigger_without_target_only_announces Demo.plain
              (TargetedAction_method_get_target_args Demo.plain)
              (Hit_method_do Demo.plain) 7%positive hero1
              (set_times (VInt 2) (construct Hit [VSel 1; VInt 1] ∅))
              (VSel 1) [VInt 1] 2 Demo.crowd)
    as (w' & Hrun & _ & Hcalls & _).
  - vm_compute. reflexivity.
  - right. exists 0. reflexivity.
  - reflexivity.
  - reflexivity.
  - reflexivity.
  - reflexivity.
  - exists w'. split; [exact Hrun |]. rewrite Hcalls. reflexivity.
Defined.

(** The damage at instance 1, on minion 4. *)
Lemma trigger_on_Damage_is_Damage_trigger_witness :
  TargetedAction_trigger Demo.plain Damage_method_get_target_args
      (Damage_method_do (base Demo.plain)) 1%positive hero1 Demo.world =
    (r ← lift (Damage_trigger (base Demo.plain) hero1 minion4);
     wret (as_amounts r)) Demo.world.
Proof.
  apply (trigger_on_Damage_is_Damage_trigger Demo.plain 1%positive hero1
           minion4 Demo.world).
  vm_compute. reflexivity.
Defined.

(** Card 5 and the id of a card to create. *)
Lemma _eval_card_keeps_cards_witness :
  ∃ r w',
    _eval_card Demo.plain hero1
      (OList [OVal (VEnt card5); OVal (VStr "CS2_231")]) Demo.world
      = (Done r, w') ∧
    length r = 2%nat ∧
    r !! 0%nat = Some (OVal (VEnt card5)) ∧
    r !! 1%nat = Some (OVal VNone) ∧
    calls w' =
      [CallMethod player1 "card" [VStr "CS2_231"; VEnt hero1]].
Proof.
  destruct (_eval_card_keeps_cards Demo.plain hero1
              (OList [OVal (VEnt card5); OVal (VStr "CS2_231")]) Demo.world)
    as (r & w' & Hrun & Hlen & Hpos & Hids & Hcalls).
  - discriminate.
  - discriminate.
  - exists r, w'. split; [exact Hrun |]. split; [exact Hlen |].
    split; [| split].
    + apply Hpos; [reflexivity |]. intros [id Hid]. discriminate.
    + exact (Hids 1%nat "CS2_231"%string eq_refl).
    + exact Hcalls.
Defined.

(** The heal at instance 4: [Heal(minion 4, 3)]. *)
Lemma get_target_args_follows_the_parameters_witness :
  TargetedAction_get_target_args Demo.plain 4%positive hero1 minion4
    Demo.world = (Done [OVal (VInt 3)], Demo.world).
Proof.
  apply (get_target_args_follows_the_parameters Demo.plain 4%positive hero1
           minion4 (construct Heal [VEnt minion4; VInt 3] ∅) Demo.world).
  - vm_compute. reflexivity.
  - repeat constructor.
  - repeat constructor.
Defined.

(** Player 1 steals minion 3, which is in play. *)
Lemma Steal_returns_target_to_its_zone_witness :
  ∃ w',
    Steal_do Demo.plain hero1 minion3 player1 Demo.world = (Done ONone, w') ∧
    zone (ent (sc_game (scene w')) minion3) = PLAY ∧
    controller (ent (sc_game (scene w')) minion3) = player1.
Proof.
  destruct (Steal_returns_target_to_its_zone Demo.plain plain_setter_assigns
              hero1 minion3 player1 Demo.world)
    as (w' & Hrun & Hz & Hc & _).
  exists w'. split; [exact Hrun |]. split; [exact Hz | exact Hc].
Defined.

(** Minion 3, in play, and card 5, set aside, change places. *)
Lemma Swap_exchanges_zones_witness :
  ∃ w',
    Swap_do Demo.plain hero1 minion3 (Some card5) Demo.world
      = (Done ONone, w') ∧
    zone (ent (sc_game (scene w')) minion3) = SETASIDE ∧
    zone (ent (sc_game (scene w')) card5) = PLAY.
Proof.
  destruct (Swap_exchanges_zones Demo.plain plain_setter_assigns
              hero1 minion3 card5 Demo.world)
    as (w' & Hrun & Hz & Hz' & _).
  exists w'. split; [exact Hrun |]. split; [exact Hz | exact Hz'].
Defined.

(** A heal of 3, doubled to 6, on minion 4, which has 2 points of damage:
    2 are healed. *)
Lemma Heal_heals_at_most_the_damage_witness :
  ∃ w',
    Heal_do Demo.plain 4%positive hero1 minion4 3 Demo.wounded
      = (Done ONone, w') ∧
    sc_ints (scene w') minion4 "damage" = 0 ∧
    event_queue <$> acts w' !! 4%positive =
      Some [deferred (4%positive, hero1, ON, [VEnt minion4; VInt 2])].
Proof.
  destruct (Heal_heals_at_most_the_damage Demo.plain 4%positive hero1
              minion4 3 (construct Heal [VEnt minion4; VInt 3] ∅)
              Demo.wounded)
    as (w' & Hrun & _ & Hd & _ & Hq).
  - vm_compute. reflexivity.
  - reflexivity.
  - vm_compute. discriminate.
  - exists w'. split; [exact Hrun |]. split; [exact Hd | exact Hq].
Defined.

(** Player 1 summons cards 5 and 6 by instance 2. *)
Lemma Summon_announces_after_before_on_witness :
  ∃ w' w'',
    Summon_do Demo.plain 2%positive hero1 player1 (OEnts [card5; card6])
      Demo.world = (Done (OEnts [card5; card6]), w') ∧
    resolve_broadcasts Demo.plain 2%positive w' = (Done tt, w'') ∧
    broadcasts (calls w'') =
      [(Summon, AFTER, [VEnt player1; VEnt card5]);
       (Summon, AFTER, [VEnt player1; VEnt card6]);
       (Summon, ON, [VEnt player1; VEnt card5]);
       (Summon, ON, [VEnt player1; VEnt card6])].
Proof.
  destruct (Summon_announces_after_before_on Demo.plain (λ _, true)
              (λ _ _, eq_refl)
              (λ _ _ _, ex_intro _ 0%nat eq_refl)
              2%positive hero1 player1 [card5; card6]
              (construct Summon [VEnt player1; VEnt card5] ∅) Demo.world)
    as (w' & w'' & Hrun & _ & Hflush & Hb).
  - vm_compute. reflexivity.
  - reflexivity.
  - exists w', w''. split; [exact Hrun |]. split; [exact Hflush | exact Hb].
Defined.

(** Cards 5 and 6 are offered; card 5 and then card 7 are chosen. *)
Lemma Mulligan_refuses_late_witness :
  ∃ w',
    MulliganChoice_choose Demo.plain 2 player1 [card5; card6]
      [card5; card7] Demo.world = (Raised (Known AssertionError), w') ∧
    calls w' =
      [CallMethod player1 "draw" [VInt 2]; Recorded (EvZone card5 DECK)].
Proof.
  destruct (Mulligan_refuses_late Demo.plain 2 player1 [card5; card6]
              [card5] [] card7 Demo.world)
    as (w' & Hrun & Hcalls).
  - repeat constructor.
  - intros H. apply elem_of_cons in H as [H | H]; [discriminate |].
    apply elem_of_cons in H as [H | H]; [discriminate |].
    by apply elem_of_nil in H.
  - exists w'. split; [exact Hrun | exact Hcalls].
Defined.

(** Cards 5 and 6 are offered; card 6 and then card 5 are chosen. *)
Lemma Mulligan_returns_chosen_cards_witness :
  ∃ w',
    MulliganChoice_choose Demo.plain 2 player1 [card5; card6]
      [card6; card5] Demo.world = (Done tt, w') ∧
    calls w' =
      [CallMethod player1 "draw" [VInt 2];
       Recorded (EvZone card6 DECK); Recorded (EvZone card5 DECK);
       CallMethod player1 "shuffle_deck" []] ∧
    sc_ints (scene w') player1 "mulligan_state" = 2.
Proof.
  destruct (Mulligan_returns_chosen_cards Demo.plain 2 player1
              [card5; card6] [card6; card5] Demo.world)
    as (w' & Hrun & Hcalls & Hs).
  - repeat constructor.
  - exists w'. split; [exact Hrun |]. split; [exact Hcalls | exact Hs].
Defined.

(** Card 8 is The Coin. *)
Lemma Mulligan_never_returns_the_coin_witness :
  ∃ w',
    (offered ← MulliganChoice_do Demo.plain 1 9%positive hero1 player1;
     MulliganChoice_choose Demo.plain 2 player1 offered [card8]) Demo.world
      = (Raised (Known AssertionError), w') ∧
    calls w' = [CallMethod player1 "draw" [VInt 1]].
Proof.
  destruct (Mulligan_never_returns_the_coin Demo.plain 1 2 9%positive
              hero1 player1 card8 [] Demo.world)
    as (w' & Hrun & Hcalls).
  - vm_compute. reflexivity.
  - exists w'. split; [exact Hrun | exact Hcalls].
Defined.

(** Player 1 plays card 5 by instance 3. *)
Lemma Play_calls_in_order_witness :
  ∃ w',
    Play_do Demo.plain 3%positive hero1 player1 card5 VNone VNone VNone
      Demo.world = (Done tt, w') ∧
    broadcasts (calls w') =
      [(Play, ON, [VEnt player1; VEnt card5; VNone]);
       (Summon, ON, [VEnt player1; VEnt card5]);
       (Summon, AFTER, [VEnt player1; VEnt card5]);
       (Play, AFTER, [VEnt player1; VEnt card5; VNone])].
Proof.
  destruct (Play_calls_in_order Demo.plain 3%positive hero1 player1 card5
              VNone VNone VNone
              (construct Play [VEnt card5; VNone; VNone; VNone] ∅)
              Demo.world)
    as (w1 & sa & w' & Henter & Hrun & Hcalls).
  - vm_compute. reflexivity.
  - reflexivity.
  - exists w'. split; [exact Hrun |].
    vm_compute in Henter. injection Henter as _ <-.
    rewrite Hcalls. vm_compute. reflexivity.
Defined.

(** Player 1 has played card 5, which was countered. *)
Lemma Play_countered_still_counts_witness :
  ∃ w',
    Play_resolve Demo.plain 3%positive 2%positive hero1 player1 card5
      VNone VNone VNone Demo.countered = (Done tt, w') ∧
    calls w' = [] ∧
    sc_ints (scene w') player1 "cards_played_this_turn" = 1.
Proof.
  destruct (Play_countered_still_counts Demo.plain 3%positive 2%positive
              hero1 player1 card5 VNone VNone VNone Demo.countered)
    as (w' & Hrun & Hcalls & _ & _ & _ & Hn & _).
  - vm_compute. discriminate.
  - exists w'. split; [exact Hrun |]. split; [exact Hcalls | exact Hn].
Defined.

(** ** Callbacks *)

Section CallbackProperties.

Variable L : Layer.
Variable get_target_args : aref → ref → ref → W targs.
Variable do : aref → ref → ref → list obj → W obj.

Lemma run_callbacks_queues (source target : ref) (target_args : list obj)
    (cbs : list value) :
  ∀ w,
    ∃ rs w',
      run_callbacks L source cbs target (TList target_args) w
        = (Done rs, w') ∧
      acts w' = acts w ∧
      calls w' = calls w ++
        ((λ a, CallQueue source a (OVal (VEnt target) :: target_args))
           <$> cbs).
Proof.
  induction cbs as [| a rest IH]; intros w.
  - exists [], w. simpl. by rewrite app_nil_r.
  - cbn [run_callbacks event_args_of].
    erewrite wbind_done by reflexivity. unfold wcall.
    destruct (queued_with L source a (OVal (VEnt target) :: target_args)
                (scene w)) as [r x] eqn:Hq.
    set (w1 := mkWorld x (acts w)
                 (calls w ++
                    [CallQueue source a (OVal (VEnt target) :: target_args)])).
    destruct (IH w1) as (rs & w' & Hrun & Ha & Hc).
    exists (r ++ rs), w'.
    erewrite wbind_done by (rewrite Hq; reflexivity).
    erewrite wbind_done by exact Hrun.
    split; [done |]. split; [done |].
    rewrite Hc. simpl. by rewrite <- app_assoc.
Qed.

(** X20: for each target, once [do] has returned, the actions attached
    with [then] are queued one by one, in their order, each with the
    target followed by the target arguments as its event arguments; the
    result of [do] comes first in the results, before what the callbacks
    gave.  That is so when [get_target_args] returned a list.  When it
    returned a tuple, as that of [Swap] does when there is no other
    minion, a tuple cannot be added to the list of the target: with a
    callback attached the loop fails with [TypeError], after [do] has
    run and before anything is queued; with none it goes on as with a
    list. *)
Theorem trigger_target_queues_callbacks (self : aref) (source target : ref)
    (me : ActionObj) (target_args : targs) (r : obj) (w w1 w2 : World) :
  get_target_args self source target w = (Done target_args, w1) →
  do self source target (items target_args) w1 = (Done r, w2) →
  acts w2 !! self = Some me →
  match target_args with
  | TList l =>
      ∃ rs w',
        trigger_target L get_target_args do self source target w
          = (Done (r :: rs), w') ∧
        acts w' = acts w2 ∧
        calls w' = calls w2 ++
          ((λ a, CallQueue source a (OVal (VEnt target) :: l)) <$>
             callback me)
  | TTuple _ =>
      trigger_target L get_target_args do self source target w =
        match callback me with
        | [] => (Done [r], w2)
        | _ :: _ => (Raised (Known TypeError), w2)
        end
  end.
Proof.
  intros Hgta Hdo Hme. unfold trigger_target.
  erewrite wbind_done by exact Hgta.
  erewrite wbind_done by exact Hdo.
  erewrite wbind_done by by apply instance_done.
  destruct target_args as [l | l].
  - destruct (run_callbacks_queues source target l (callback me) w2)
      as (rs & w' & Hrun & Ha & Hc).
    exists rs, w'. erewrite wbind_done by exact Hrun. done.
  - destruct (callback me) as [| a rest]; reflexivity.
Qed.

End CallbackProperties.

(** ** Steal and Swap, with their arguments *)

Section StealSwapProperties.

Variable L : Layer.
Hypothesis setter : setter_assigns L.

(** X21: [Steal(target)], with no controller given, gives the target to
    the controller of the source: the target ends in the zone it was in,
    controlled by whoever controls the source when the action runs. *)
Theorem Steal_defaults_to_the_controller_of_the_source (self : aref)
    (source target : ref) (me : ActionObj) (t : value) (w : World) :
  acts w !! self = Some me →
  _args me = [t] →
  ∃ w',
    (c ← Steal_get_target_args L self source target;
     Steal_do L source target c) w = (Done ONone, w') ∧
    controller (ent (sc_game (scene w')) target) =
      controller (ent (sc_game (scene w)) source) ∧
    zone (ent (sc_game (scene w')) target) =
      zone (ent (sc_game (scene w)) target).
Proof.
  intros Hme Ha.
  assert (Hgta : Steal_get_target_args L self source target w =
                 (Done (controller (ent (sc_game (scene w)) source)), w)).
  { unfold Steal_get_target_args.
    erewrite wbind_done by by apply instance_done. by rewrite Ha. }
  erewrite wbind_done by exact Hgta.
  unfold Steal_do. unfold_w. simpl. eexists. split; [reflexivity |].
  simpl.
  set (c := controller (ent (sc_game (scene w)) source)).
  set (z := zone (ent (sc_game (scene w)) target)).
  set (x1 := on_zone L target SETASIDE (scene w)).
  set (x2 := set_int target "turns_in_play" 0
               (set_ent target (with_controller c) x1)).
  destruct (setter target z x2) as (Hz & _ & Hc & _).
  split; [| exact Hz].
  rewrite Hc. subst x2. simpl. by rewrite fn_lookup_alter.
Qed.

End StealSwapProperties.

(** X22: when the other minion of a [Swap] is a selector that selects
    nothing, the swap does nothing at all; when it selects more than one
    entity, the swap fails on the assertion, again with nothing done. *)
Theorem Swap_needs_one_other (L : Layer) (self : aref)
    (source target : ref) (me : ActionObj) (t o : value)
    (rest : list value) (l : list ref) (w : World) :
  acts w !! self = Some me →
  _args me = t :: o :: rest →
  TargetedAction_eval L o source w = (Done l, w) →
  length l ≠ 1%nat →
  (other ← Swap_get_target_args L self source target;
   Swap_do L source target other) w =
    (if bool_decide (l = []) then Done ONone
     else Raised (Known AssertionError), w).
Proof.
  intros Hme Ha He Hl. unfold Swap_get_target_args.
  destruct l as [| x [| y l]]; [| done |].
  - rewrite (wbind_done _ _ w w None); [reflexivity |].
    erewrite wbind_done by by apply instance_done. rewrite Ha.
    erewrite wbind_done by exact He. reflexivity.
  - rewrite (wbind_raised _ _ w w (Known AssertionError)); [reflexivity |].
    erewrite wbind_done by by apply instance_done. rewrite Ha.
    erewrite wbind_done by exact He. reflexivity.
Qed.

(** The damage at instance 8 has instance 1 as its callback. *)
Lemma trigger_target_queues_callbacks_witness :
  ∃ rs w',
    trigger_target Demo.plain Damage_method_get_target_args
      (Damage_method_do (base Demo.plain)) 8%positive hero1 minion4
      Demo.crowd = (Done (OVal (VInt 0) :: rs), w') ∧
    calls w' =
      [Recorded (EvHit minion4 0);
       CallQueue hero1 (VAct 1%positive)
         [OVal (VEnt minion4); OVal (VInt 0)]].
Proof.
  destruct (trigger_target_queues_callbacks Demo.plain
              Damage_method_get_target_args
              (Damage_method_do (base Demo.plain)) 8%positive hero1 minion4
              (set_callback [VAct 1%positive]
                 (construct Damage [VEnt minion4] ∅))
              (TList [OVal (VInt 0)]) (OVal (VInt 0)) Demo.crowd
              (Damage_method_get_target_args 8%positive hero1 minion4
                 Demo.crowd).2
              (Damage_method_do (base Demo.plain) 8%positive hero1 minion4
                 [OVal (VInt 0)]
                 (Damage_method_get_target_args 8%positive hero1 minion4
                    Demo.crowd).2).2)
    as (rs & w' & Hrun & _ & Hcalls).
  - vm_compute. reflexivity.
  - vm_compute. reflexivity.
  - vm_compute. reflexivity.
  - exists rs, w'. split; [exact Hrun |]. rewrite Hcalls. vm_compute.
    reflexivity.
Defined.

(** The steal at instance 9, from the hero of player 1. *)
Lemma Steal_defaults_to_the_controller_of_the_source_witness :
  ∃ w',
    (c ← Steal_get_target_args Demo.plain 9%positive hero1 minion3;
     Steal_do Demo.plain hero1 minion3 c) Demo.crowd = (Done ONone, w') ∧
    controller (ent (sc_game (scene w')) minion3) = player1.
Proof.
  destruct (Steal_defaults_to_the_controller_of_the_source Demo.plain
              plain_setter_assigns 9%positive hero1 minion3
              (construct Steal [VEnt minion3] ∅) (VEnt minion3) Demo.crowd)
    as (w' & Hrun & Hc & _).
  - vm_compute. reflexivity.
  - reflexivity.
  - exists w'. split; [exact Hrun | exact Hc].
Defined.

(** The swap at instance 10 is with what selector 1 selects: nothing. *)
Lemma Swap_needs_one_other_witness :
  (other ← Swap_get_target_args Demo.plain 10%positive hero1 minion3;
   Swap_do Demo.plain hero1 minion3 other) Demo.crowd
    = (Done ONone, Demo.crowd).
Proof.
  apply (Swap_needs_one_other Demo.plain 10%positive hero1 minion3
           (construct Swap [VEnt minion3; VSel 1] ∅) (VEnt minion3)
           (VSel 1) [] [] Demo.crowd).
  - vm_compute. reflexivity.
  - reflexivity.
  - reflexivity.
  - simpl. lia.
Defined.

(** ** Runs on the small scene *)

(** Damage to minion 4 is broadcast to minions 3 and 4: of the three
    listeners of minion 4, the one on damage to itself fires. *)
Example broadcast_fires_sample :
  (Action_broadcast_all Demo.listeners (λ _, [minion3; minion4]) (λ _, [])
     (λ _, sel) (λ _ _ _ _ g, g) Damage hero1 ON
     [VEnt minion4; VInt 2; VEnt hero1] (table, [])).2.2 =
  [mkFiring minion4 hero1 (on (construct Damage [VSel 0] ∅) [])
     [VEnt minion4; VInt 2; VEnt hero1]].
Proof. vm_compute. reflexivity. Qed.

(** The listener of minion 4 on plays fires when card 5 is played, and
    does not when minion 4 itself is. *)
Example broadcast_own_play_sample :
  (Action_broadcast_all Demo.listeners (λ _, [minion3; minion4]) (λ _, [])
     (λ _, sel) (λ _ _ _ _ g, g) Play player1 ON
     [VEnt player1; VEnt card5; VNone] (table, [])).2.2 =
  [mkFiring minion4 player1 (on (construct Play [VNone; VNone] ∅) [])
     [VEnt player1; VEnt card5; VNone]] ∧
  (Action_broadcast_all Demo.listeners (λ _, [minion3; minion4]) (λ _, [])
     (λ _, sel) (λ _ _ _ _ g, g) Play player1 ON
     [VEnt player1; VEnt minion4; VNone] (table, [])).2.2 = [].
Proof. split; vm_compute; reflexivity. Qed.

(** Where a listener counters the card when its play is announced, the
    play has no battlecry and is not announced as over. *)
Example Play_countered_by_listener_sample :
  (calls (Play_do Demo.countering 3%positive hero1 player1 card5
            VNone VNone VNone Demo.world).2) =
  [CallMethod player1 "pay_mana" [VInt 0];
   Recorded (EvZone card5 PLAY);
   Recorded (EvBroadcast Play player1 ON [VEnt player1; VEnt card5; VNone]);
   Recorded (EvBroadcast Summon player1 ON [VEnt player1; VEnt card5]);
   CallMethod 100%positive "refresh_auras" []].
Proof. vm_compute. reflexivity. Qed.

(** A heal of minion 4 through the whole loop: the event is broadcast
    when the loop is over, with the amount healed. *)
Example Heal_through_trigger_sample :
  calls (TargetedAction_trigger Demo.plain
           (TargetedAction_method_get_target_args Demo.plain)
           (λ self source target args,
              match args with
              | [OVal (VInt amount)] =>
                  Heal_do Demo.plain self source target amount
              | _ => wraise (Known TypeError)
              end)
           4%positive hero1 Demo.wounded).2 =
  [Recorded (EvAction Heal hero1 (Some [minion4]) [VInt 3]);
   Recorded (EvActionEnd Heal hero1 (Some [minion4])
               [VEnt minion4; VInt 3]);
   Recorded (EvBroadcast Heal hero1 ON [VEnt minion4; VInt 2])].
Proof. vm_compute. reflexivity. Qed.

(** ** Battlecry and Activate *)

Section ScriptedProperties.

Variable L : Layer.
Variable K : Scripts.

(** X23: a card that needs a target and is given none has no battlecry
    at all: [Battlecry.do] returns at once, nothing is queued, and the
    deaths are not processed. *)
Theorem Battlecry_without_target_does_nothing (source card : ref)
    (target : value) (w : World) :
  has_target K card (scene w) = true →
  present target = false →
  Battlecry_do L K source card target w = (Done ONone, w).
Proof.
  intros Hn Ht. unfold Battlecry_do. unfold_w. by rewrite Hn, Ht.
Qed.

(** X24: otherwise [Battlecry.do] queues the actions of the card, those
    of its combo when the card has one and the combo of its controller is
    on, from the source and once, or twice when the controller has extra
    battlecries and the card a battlecry; then the deaths are processed,
    exactly once and also when the card has no action; and last the
    overload that the card has once the deaths are processed, if it is
    not 0, is queued from the card, for the player who controlled the
    card at the start. *)
Theorem Battlecry_queues_then_processes_deaths (source card : ref)
    (target : value) (w : World) :
  let player := controller (ent (sc_game (scene w)) card) in
  let script :=
    if truthy (sc_ints (scene w) card "has_combo")
       && truthy (sc_ints (scene w) player "combo")
    then "combo"%string else "play"%string in
  let actions := some_actions (get_actions K card script (scene w)) in
  let x1 :=
    (on_queue L source actions (set_obj source "target" target (scene w))).2 in
  let n :=
    match actions with
    | [] => 0%nat
    | _ => if truthy (sc_ints x1 player "extra_battlecries")
              && truthy (sc_ints x1 card "has_battlecry")
           then 2%nat else 1%nat
    end in
  let x2 :=
    match n with
    | 0%nat => scene w
    | 1%nat => x1
    | _ => (on_queue L source actions x1).2
    end in
  let overload := sc_ints (deaths K x2) card "overload" in
  has_target K card (scene w) && negb (present target) = false →
  ∃ w',
    Battlecry_do L K source card target w = (Done ONone, w') ∧
    calls w' = calls w ++
      replicate n (Recorded (EvQueue source actions)) ++
      [Recorded EvProcessDeaths] ++
      (if truthy overload
       then [Recorded (EvQueue card
                         [construct Overload [VEnt player; VInt overload] ∅])]
       else []).
Proof.
  intros player script actions x1 n x2 overload Hgo.
  unfold Battlecry_do.
  rewrite (wbind_done _ _ w w player) by reflexivity.
  rewrite (wbind_done _ _ w w (has_target K card (scene w))) by reflexivity.
  rewrite Hgo.
  rewrite (wbind_done _ _ w w (sc_ints (scene w) card "has_combo"))
    by reflexivity.
  rewrite (wbind_done _ _ w w (sc_ints (scene w) player "combo"))
    by reflexivity.
  rewrite (wbind_done _ _ w w (get_actions K card script (scene w)))
    by (subst script; by destruct (_ && _)).
  fold actions. subst overload x2 n x1.
  unfold wprocess_deaths. unfold_w.
  destruct actions as [| a l] eqn:Ea; simpl.
  - destruct (truthy (sc_ints (deaths K (scene w)) card "overload")) eqn:Ho.
    + destruct (on_queue L card _ _) as [r x] eqn:Hq. simpl.
      eexists. split; [reflexivity |]. simpl.
      by rewrite <- app_assoc.
    + eexists. split; [reflexivity |]. done.
  - destruct (on_queue L source (a :: l) _) as [r x] eqn:Hq. simpl.
    destruct (truthy (sc_ints x player "extra_battlecries")
              && truthy (sc_ints x card "has_battlecry")); simpl.
    + destruct (on_queue L source (a :: l) x) as [r2 x2] eqn:Hq2. simpl.
      destruct (truthy (sc_ints (deaths K x2) card "overload")) eqn:Ho.
      * destruct (on_queue L card _ _) as [r3 x3] eqn:Hq3. simpl.
        eexists. split; [reflexivity |]. simpl.
        by rewrite <- !app_assoc.
      * eexists. split; [reflexivity |]. simpl.
        by rewrite <- !app_assoc.
    + destruct (truthy (sc_ints (deaths K x) card "overload")) eqn:Ho.
      * destruct (on_queue L card _ _) as [r3 x3] eqn:Hq3. simpl.
        eexists. split; [reflexivity |]. simpl.
        by rewrite <- !app_assoc.
      * eexists. split; [reflexivity |]. simpl.
        by rewrite <- !app_assoc.
Qed.

End ScriptedProperties.

Section ActivateProperties.

Variable L : Layer.
Variable K : Scripts.

(** The scripts of the minions and the minions with inspire do not change
    while the hero power is activated. *)
Variable script : ref → option (list ActionObj).
Variable minions : ref → list ref.
Hypothesis static_scripts : ∀ m x, get_actions K m "inspire" x = script m.
Hypothesis static_field : ∀ p x, inspiring K p x = minions p.

Lemma inspire_loop_all (ms : list ref) :
  ∀ w,
    Forall (λ m, is_Some (script m)) ms →
    ∃ rs w',
      inspire_loop L K ms w = (Done rs, w') ∧
      acts w' = acts w ∧
      calls w' = calls w ++ concat (inspired script <$> ms).
Proof.
  induction ms as [| m rest IH]; intros w Hall.
  - exists [], w. simpl. by rewrite app_nil_r.
  - inversion Hall as [| ? ? [acts Hm] Hrest]; subst.
    cbn [inspire_loop]. unfold_w. rewrite static_scripts, Hm.
    cbn [fmap list_fmap concat]. unfold inspired at 1. rewrite Hm.
    destruct acts as [| a l].
    + destruct (IH w Hrest) as (rs & w' & Hrun & Ha & Hc).
      exists rs, w'. by rewrite Hrun.
    + destruct (on_queue L m (a :: l) (scene w)) as [r x] eqn:Hq.
      set (w1 := mkWorld x _ _).
      destruct (IH w1 Hrest) as (rs & w' & Hrun & Ha & Hc).
      exists (r ++ rs), w'. rewrite Hrun.
      split; [done |]. split; [done |].
      rewrite Hc. simpl. by rewrite <- app_assoc.
Qed.

Lemma inspire_loop_missing (pre post : list ref) (bad : ref) :
  ∀ w,
    Forall (λ m, is_Some (script m)) pre →
    script bad = None →
    ∃ w',
      inspire_loop L K (pre ++ bad :: post) w
        = (Raised NotImplementedError, w') ∧
      acts w' = acts w ∧
      calls w' = calls w ++ concat (inspired script <$> pre).
Proof.
  induction pre as [| m rest IH]; intros w Hall Hbad.
  - exists w. simpl. unfold_w. rewrite static_scripts, Hbad.
    by rewrite app_nil_r.
  - inversion Hall as [| ? ? [acts Hm] Hrest]; subst.
    cbn [app inspire_loop]. unfold_w. rewrite static_scripts, Hm.
    cbn [fmap list_fmap concat]. unfold inspired at 1. rewrite Hm.
    destruct acts as [| a l].
    + destruct (IH w Hrest Hbad) as (w' & Hrun & Ha & Hc).
      exists w'. by rewrite Hrun.
    + destruct (on_queue L m (a :: l) (scene w)) as [r x] eqn:Hq.
      set (w1 := mkWorld x _ _).
      destruct (IH w1 Hrest Hbad) as (w' & Hrun & Ha & Hc).
      exists w'. rewrite Hrun.
      split; [done |]. split; [done |].
      rewrite Hc. simpl. by rewrite <- app_assoc.
Qed.

(** X25: when a minion with inspire has no inspire script, [Activate.do]
    fails with [NotImplementedError], but not before the activation has
    been broadcast, the actions of the hero power queued, and the inspire
    actions of the minions before it queued, each from its minion. *)
Theorem Activate_fails_late_on_missing_inspire (self : aref)
    (source player heropower : ref) (target : value)
    (pre post : list ref) (bad : ref) (me : ActionObj) (w : World) :
  acts w !! self = Some me →
  minions player = pre ++ bad :: post →
  Forall (λ m, is_Some (script m)) pre →
  script bad = None →
  let x1 := on_broadcast L (cls me) source ON
              [VEnt player; VEnt heropower; target] (scene w) in
  let actions := some_actions (get_actions K heropower "activate" x1) in
  ∃ w',
    Activate_do L K self source player heropower target w
      = (Raised NotImplementedError, w') ∧
    calls w' = calls w ++
      [Recorded (EvBroadcast (cls me) source ON
                   [VEnt player; VEnt heropower; target])] ++
      (match actions with
       | [] => []
       | _ => [Recorded (EvQueue heropower actions)]
       end) ++
      concat (inspired script <$> pre).
Proof.
  intros Hme Hms Hall Hbad x1 actions. unfold Activate_do.
  erewrite wbind_done by by apply instance_done.
  erewrite wbind_done by reflexivity.
  erewrite wbind_done by reflexivity.
  cbn [scene]. fold x1. fold actions.
  destruct actions as [| a l] eqn:Ea.
  - erewrite wbind_done by reflexivity.
    erewrite wbind_done by reflexivity.
    cbn [scene]. rewrite static_field, Hms.
    set (w1 := mkWorld _ _ _).
    destruct (inspire_loop_missing pre post bad w1 Hall Hbad)
      as (w' & Hrun & _ & Hc).
    exists w'. erewrite wbind_raised by exact Hrun.
    split; [done |]. rewrite Hc. simpl. by rewrite <- app_assoc.
  - unfold wqueue_actions, wcall. cbn [scene].
    destruct (on_queue L heropower (a :: l) x1) as [r x] eqn:Hq.
    erewrite wbind_done by (cbn [scene]; rewrite Hq; reflexivity).
    erewrite wbind_done by reflexivity.
    cbn [scene]. rewrite static_field, Hms.
    set (w1 := mkWorld _ _ _).
    destruct (inspire_loop_missing pre post bad w1 Hall Hbad)
      as (w' & Hrun & _ & Hc).
    exists w'. erewrite wbind_raised by exact Hrun.
    split; [done |]. rewrite Hc. simpl. by rewrite <- !app_assoc.
Qed.

(** X26: when every minion with inspire has a script, [Activate.do]
    broadcasts the activation, queues the actions of the hero power from
    the hero power, then the inspire actions of each minion from that
    minion, in the order of the field, skipping empty scripts. *)
Theorem Activate_queues_power_then_inspires (self : aref)
    (source player heropower : ref) (target : value)
    (me : ActionObj) (w : World) :
  acts w !! self = Some me →
  Forall (λ m, is_Some (script m)) (minions player) →
  let x1 := on_broadcast L (cls me) source ON
              [VEnt player; VEnt heropower; target] (scene w) in
  let actions := some_actions (get_actions K heropower "activate" x1) in
  ∃ rs w',
    Activate_do L K self source player heropower target w = (Done rs, w') ∧
    calls w' = calls w ++
      [Recorded (EvBroadcast (cls me) source ON
                   [VEnt player; VEnt heropower; target])] ++
      (match actions with
       | [] => []
       | _ => [Recorded (EvQueue heropower actions)]
       end) ++
      concat (inspired script <$> minions player).
Proof.
  intros Hme Hall x1 actions. unfold Activate_do.
  erewrite wbind_done by by apply instance_done.
  erewrite wbind_done by reflexivity.
  erewrite wbind_done by reflexivity.
  cbn [scene]. fold x1. fold actions.
  destruct actions as [| a l] eqn:Ea.
  - erewrite wbind_done by reflexivity.
    erewrite wbind_done by reflexivity.
    cbn [scene]. rewrite static_field.
    set (w1 := mkWorld _ _ _).
    destruct (inspire_loop_all (minions player) w1 Hall)
      as (rs & w' & Hrun & _ & Hc).
    erewrite wbind_done by exact Hrun.
    unfold_w. eexists _, _. split; [reflexivity |]. simpl.
    rewrite Hc. simpl. by rewrite <- app_assoc.
  - unfold wqueue_actions, wcall. cbn [scene].
    destruct (on_queue L heropower (a :: l) x1) as [r x] eqn:Hq.
    erewrite wbind_done by (cbn [scene]; rewrite Hq; reflexivity).
    erewrite wbind_done by reflexivity.
    cbn [scene]. rewrite static_field.
    set (w1 := mkWorld _ _ _).
    destruct (inspire_loop_all (minions player) w1 Hall)
      as (rs & w' & Hrun & _ & Hc).
    erewrite wbind_done by exact Hrun.
    unfold_w. eexists _, _. split; [reflexivity |]. simpl.
    rewrite Hc. simpl. by rewrite <- !app_assoc.
Qed.

End ActivateProperties.

(** ** Morph, Shuffle and Retarget *)

Section PlaceProperties.

Variable L : Layer.
Hypothesis setter : setter_assigns L.

(** X27: [Morph.do] puts the card where the target was and sets the
    target aside: the card ends in the zone the target had once its buffs
    were cleared, whether it had to be moved there or was there already,
    the target ends set aside, and the target remembers the card as what
    it has morphed into. *)
Theorem Morph_puts_card_in_place_of_target (source target card : ref)
    (w : World) :
  let x0 := (method L target "clear_buffs" [] (scene w)).2 in
  let z := zone (ent (sc_game x0) target) in
  ∃ w',
    Morph_do L source target card w = (Done (OVal (VEnt card)), w') ∧
    zone (ent (sc_game (scene w')) card) = z ∧
    (card ≠ target → zone (ent (sc_game (scene w')) target) = SETASIDE) ∧
    sc_objs (scene w') target "morphed" = VEnt card.
Proof.
  intros x0 z. unfold Morph_do. unfold_w.
  destruct (method L target "clear_buffs" [] (scene w)) as [v x] eqn:Hm.
  simpl in x0. subst x0. simpl. fold z.
  destruct (setter target SETASIDE x) as (Hz1 & Hoth1 & _ & _).
  set (x1 := on_zone L target SETASIDE x) in *.
  destruct (decide (zone (ent (sc_game x1) card) = z)) as [He | Hne].
  - rewrite (bool_decide_eq_false_2 (_ ≠ z)) by (intros H; by apply H).
    simpl. eexists. split; [reflexivity |]. simpl.
    rewrite bool_decide_eq_true_2 by done. done.
  - rewrite (bool_decide_eq_true_2 (_ ≠ z)) by done.
    simpl. eexists. split; [reflexivity |]. simpl.
    rewrite bool_decide_eq_true_2 by done.
    destruct (setter card z x1) as (Hz2 & Hoth2 & _ & _).
    split; [done |]. split; [| done].
    intros Hct. rewrite Hoth2 by done. done.
Qed.

End PlaceProperties.

Section ShuffleProperties.

Variable L : Layer.
Hypothesis setter : setter_assigns L.
Hypothesis methods : methods_keep_places L.

Lemma Shuffle_loop_places (target : ref) (cards : list ref) :
  ∀ w,
    ∃ w',
      Shuffle_loop L target cards w = (Done tt, w') ∧
      calls w' = calls w ++
        concat ((λ c, [Recorded (EvZone c DECK);
                       CallMethod target "shuffle_deck" []]) <$> cards) ∧
      (∀ c, c ∈ cards →
         zone (ent (sc_game (scene w')) c) = DECK ∧
         controller (ent (sc_game (scene w')) c) = target) ∧
      (∀ r, r ∉ cards →
         zone (ent (sc_game (scene w')) r) = zone (ent (sc_game (scene w)) r) ∧
         controller (ent (sc_game (scene w')) r) =
           controller (ent (sc_game (scene w)) r)).
Proof.
  induction cards as [| card rest IH]; intros w.
  - exists w. simpl. rewrite app_nil_r. split; [done |]. split; [done |].
    split; [intros c Hc; by apply elem_of_nil in Hc | done].
  - cbn [Shuffle_loop].
    (* the state after the step for [card] *)
    set (x0 := if bool_decide (controller (ent (sc_game (scene w)) card)
                               ≠ target)
               then set_ent card (with_controller target) (scene w)
               else scene w).
    assert (Hx0c : controller (ent (sc_game x0) card) = target).
    { subst x0. destruct (decide (controller (ent (sc_game (scene w)) card)
                                  = target)) as [He | Hne].
      - rewrite bool_decide_eq_false_2 by (intros H; by apply H). done.
      - rewrite bool_decide_eq_true_2 by done. simpl.
        by rewrite fn_lookup_alter. }
    assert (Hx0o : ∀ r, r ≠ card →
              ent (sc_game x0) r = ent (sc_game (scene w)) r).
    { intros r Hr. subst x0. destruct (bool_decide _); [| done].
      simpl. by rewrite fn_lookup_alter_ne. }
    assert (Hx0z : ∀ r, zone (ent (sc_game x0) r)
                        = zone (ent (sc_game (scene w)) r)).
    { intros r. subst x0. destruct (bool_decide _); [| done]. simpl.
      destruct (decide (r = card)) as [-> |];
        [by rewrite fn_lookup_alter | by rewrite fn_lookup_alter_ne]. }
    set (x1 := on_zone L card DECK x0).
    destruct (setter card DECK x0) as (Hz & Hzo & Hc & _). fold x1 in Hz, Hzo, Hc.
    destruct (method L target "shuffle_deck" [] x1) as [v x2] eqn:Hm.
    assert (Hk : ∀ r, zone (ent (sc_game x2) r) = zone (ent (sc_game x1) r) ∧
                      controller (ent (sc_game x2) r) =
                        controller (ent (sc_game x1) r)).
    { intros r. destruct (methods target "shuffle_deck" [] x1 r) as [H1 H2].
      rewrite Hm in H1, H2. done. }
    set (w2 := mkWorld x2 (acts w)
                 (calls w ++ [Recorded (EvZone card DECK)] ++
                    [CallMethod target "shuffle_deck" []])).
    assert (Hstep :
      (c ← wattr card controller;
       (if bool_decide (c ≠ target)
        then wmodify (set_ent card (with_controller target))
        else wret tt);;
       wset_zone L card DECK;;
       call_method L target "shuffle_deck" [];;
       Shuffle_loop L target rest) w = Shuffle_loop L target rest w2).
    { unfold_w. simpl. subst w2 x1 x0.
      destruct (bool_decide (controller _ ≠ target)); simpl;
        rewrite Hm; simpl; by rewrite <- app_assoc. }
    rewrite Hstep.
    destruct (IH w2) as (w' & Hrun & Hcalls & Hin & Hout).
    exists w'. split; [done |]. split.
    { rewrite Hcalls. simpl. by rewrite <- app_assoc. }
    split.
    + intros c Hc'. destruct (decide (c ∈ rest)) as [Hr | Hr].
      * by apply Hin.
      * apply elem_of_cons in Hc' as [-> | Hc']; [| done].
        destruct (Hout card Hr) as [Ho1 Ho2]. simpl in Ho1, Ho2.
        destruct (Hk card) as [Hk1 Hk2].
        split; [by rewrite Ho1, Hk1 | by rewrite Ho2, Hk2, Hc].
    + intros r Hr. apply not_elem_of_cons in Hr as [Hrc Hrr].
      destruct (Hout r Hrr) as [Ho1 Ho2]. simpl in Ho1, Ho2.
      destruct (Hk r) as [Hk1 Hk2].
      split.
      * by rewrite Ho1, Hk1, Hzo, Hx0z.
      * by rewrite Ho2, Hk2, Hc, Hx0o.
Qed.

(** X28: [Shuffle.do] puts every card given in the deck of the target:
    provided the zone setter only assigns the zone and the methods of the
    entities move nothing, each card ends in the deck zone, controlled by
    the target, and no other entity changes zone or controller.  The deck
    is shuffled once for each card, right after the card has gone in. *)
Theorem Shuffle_puts_cards_in_deck (source target : ref)
    (cards : list ref) (w : World) :
  ∃ w',
    Shuffle_do L source target cards w = (Done ONone, w') ∧
    calls w' = calls w ++
      concat ((λ c, [Recorded (EvZone c DECK);
                     CallMethod target "shuffle_deck" []]) <$> cards) ∧
    (∀ c, c ∈ cards →
       zone (ent (sc_game (scene w')) c) = DECK ∧
       controller (ent (sc_game (scene w')) c) = target) ∧
    (∀ r, r ∉ cards →
       zone (ent (sc_game (scene w')) r) = zone (ent (sc_game (scene w)) r) ∧
       controller (ent (sc_game (scene w')) r) =
         controller (ent (sc_game (scene w)) r)).
Proof.
  destruct (Shuffle_loop_places target cards w) as (w' & Hrun & H).
  exists w'. unfold Shuffle_do. by erewrite wbind_done by exact Hrun.
Qed.

End ShuffleProperties.

Lemma Retarget_do_attacking (source target new_target d : ref)
    (w : World) :
  type (ent (sc_game (scene w)) target) = HERO ∨
    type (ent (sc_game (scene w)) target) = MINION →
  sc_ints (scene w) target "attacking" ≠ 0 →
  proposed_defender (sc_game (scene w)) = Some d →
  Retarget_do source target [new_target] w =
    (Done (OVal (VEnt new_target)),
     mkWorld
       (mkScene
          (set_proposed_defender (Some new_target)
             (upd d (with_defending false) (sc_game (scene w))))
          (sc_ints (scene w)) (sc_objs (scene w)))
       (acts w) (calls w)).
Proof.
  intros Ht Ha Hd. unfold Retarget_do, wset_game. unfold_w. simpl.
  assert (Hc : bool_decide (type (ent (sc_game (scene w)) target) = HERO)
               || bool_decide (type (ent (sc_game (scene w)) target) = MINION)
               = true).
  { destruct Ht as [-> | ->]; reflexivity. }
  rewrite Hc. unfold truthy. rewrite (bool_decide_eq_true_2 _ Ha). simpl.
  by rewrite Hd.
Qed.

(** X29: [Retarget.do] on a hero or minion that is attacking redirects
    the attack: the new target becomes the proposed defender of the game
    and the former one is no longer defending.  The new defender is not
    marked as defending, the attacker stays proposed, the [target] of the
    attacker is not touched, and nothing is called. *)
Theorem Retarget_redirects_the_attack
    (source target new_target d : ref) (w : World) :
  type (ent (sc_game (scene w)) target) = HERO ∨
    type (ent (sc_game (scene w)) target) = MINION →
  sc_ints (scene w) target "attacking" ≠ 0 →
  proposed_defender (sc_game (scene w)) = Some d →
  ∃ w',
    Retarget_do source target [new_target] w
      = (Done (OVal (VEnt new_target)), w') ∧
    proposed_defender (sc_game (scene w')) = Some new_target ∧
    proposed_attacker (sc_game (scene w')) =
      proposed_attacker (sc_game (scene w)) ∧
    defending (ent (sc_game (scene w')) d) = false ∧
    (∀ r, r ≠ d → ent (sc_game (scene w')) r = ent (sc_game (scene w)) r) ∧
    sc_objs (scene w') = sc_objs (scene w) ∧
    calls w' = calls w.
Proof.
  intros Ht Ha Hd. rewrite (Retarget_do_attacking _ _ _ d) by done.
  eexists. split; [reflexivity |]. simpl.
  split; [done |]. split; [done |].
  split; [by rewrite fn_lookup_alter |].
  split; [| done]. intros r Hr. by rewrite fn_lookup_alter_ne.
Qed.

(** On anything else, [Retarget.do] only changes the [target] of the
    target; with no new target it does nothing, and with several it fails
    on the assertion. *)
Lemma Retarget_other_cases (source target : ref)
    (new_target : list ref) (w : World) :
  (new_target = [] →
     Retarget_do source target new_target w = (Done ONone, w)) ∧
  ((1 < length new_target)%nat →
     Retarget_do source target new_target w
       = (Raised (Known AssertionError), w)) ∧
  (∀ n, new_target = [n] →
     sc_ints (scene w) target "attacking" = 0 →
     Retarget_do source target new_target w =
       (Done (OVal (VEnt n)),
        mkWorld (set_obj target "target" (VEnt n) (scene w))
          (acts w) (calls w))).
Proof.
  split; [by intros -> |]. split.
  - destruct new_target as [| ? [| ? ?]]; simpl; try lia. done.
  - intros n -> Ha. unfold Retarget_do. unfold_w. simpl. rewrite Ha.
    by rewrite andb_false_r.
Qed.

(** ** The scripted actions on the small scene *)

Lemma plain_methods_keep_places : methods_keep_places Demo.plain.
Proof. by intros o n args x r. Qed.

(** X30: when a listener answers the announcement of an attack with a
    [Retarget] of the attacker, the attack goes on against the new
    target: the [Hit] that the attacker queues is on the new target, with
    the attack of the attacker, and not on the defender that was
    attacked. *)
Theorem Attack_hits_the_retargeted_defender (C : Collab)
    (source x y n : ref) (s : State) (w : World) :
  sc_game (scene w) = proposed x y (game s) →
  type (ent (game s) x) = HERO ∨ type (ent (game s) x) = MINION →
  sc_ints (scene w) x "attacking" ≠ 0 →
  dispatch C Attack source ON [VEnt x; VEnt y] (proposed x y (game s)) =
    sc_game (scene (Retarget_do source x [n] w).2) →
  should_exit_combat (ent (game s) x) = false →
  x ≠ n →
  ∃ s',
    (Attack_do C source x y s).2 = s' ∧
    take 2 (drop (length (trace s)) (trace s')) =
      [EvBroadcast Attack source ON [VEnt x; VEnt y];
       EvQueue x [construct Hit [VEnt n; VInt (atk (ent (game s) x))] ∅]].
Proof.
  intros Hw Ht Ha Hd Hexit Hne.
  assert (Ht' : type (ent (sc_game (scene w)) x) = HERO ∨
                type (ent (sc_game (scene w)) x) = MINION).
  { rewrite Hw. unfold proposed. simpl.
    destruct (decide (x = y)) as [<- |].
    - rewrite !fn_lookup_alter. simpl. done.
    - rewrite fn_lookup_alter_ne, fn_lookup_alter by done. done. }
  rewrite (Retarget_do_attacking source x n y w Ht' Ha) in Hd
    by by rewrite Hw.
  simpl in Hd. rewrite Hw in Hd.
  eexists. split; [reflexivity |].
  unfold Attack_do. unfold_m. simpl.
  fold (proposed x y (game s)). rewrite Hd. simpl.
  set (e := alter (with_defending false) y
              (alter (with_defending true) y
                 (alter (with_attack_target (Some y)) x (ent (game s)))) x).
  assert (He : should_exit_combat e = should_exit_combat (ent (game s) x) ∧
               atk e = atk (ent (game s) x)).
  { subst e. destruct (decide (x = y)) as [<- |].
    - by rewrite !fn_lookup_alter.
    - by rewrite !fn_lookup_alter_ne, fn_lookup_alter by done. }
  destruct He as [He1 He2]. rewrite He1, Hexit.
  rewrite bool_decide_eq_false_2 by congruence. simpl. fold e. rewrite He2.
  destruct (queued C x _ _) as [r1 g2] eqn:Hq1. simpl.
  match goal with |- context [bool_decide ?P] => destruct (bool_decide P) end;
    simpl.
  - destruct (queued C n _ _) as [r2 g3] eqn:Hq2. simpl.
    by rewrite <- !app_assoc, drop_app_length.
  - by rewrite <- !app_assoc, drop_app_length.
Qed.

(** Card 6 needs a target and has none. *)
Lemma Battlecry_without_target_does_nothing_witness :
  Battlecry_do Demo.plain (Demo.scripts []) card6 card6 VNone Demo.world
    = (Done ONone, Demo.world).
Proof.
  apply (Battlecry_without_target_does_nothing Demo.plain (Demo.scripts [])
           card6 card6 VNone Demo.world); reflexivity.
Defined.

(** Card 5 hits minion 4 when it is played. *)
Lemma Battlecry_queues_then_processes_deaths_witness :
  ∃ w',
    Battlecry_do Demo.plain (Demo.scripts []) card5 card5 VNone Demo.world
      = (Done ONone, w') ∧
    calls w' =
      [Recorded (EvQueue card5 [construct Hit [VEnt minion4; VInt 1] ∅]);
       Recorded EvProcessDeaths].
Proof.
  destruct (Battlecry_queues_then_processes_deaths Demo.plain
              (Demo.scripts []) card5 card5 VNone Demo.world)
    as (w' & Hrun & Hcalls).
  - reflexivity.
  - exists w'. split; [exact Hrun |]. rewrite Hcalls. reflexivity.
Defined.

(** Minions 3 and 4 have inspire, and minion 4 has no script. *)
Lemma Activate_fails_late_on_missing_inspire_witness :
  ∃ w',
    Activate_do Demo.plain (Demo.scripts [minion3; minion4]) 11%positive
      hero1 player1 card7 VNone Demo.crowd
      = (Raised NotImplementedError, w') ∧
    calls w' =
      [Recorded (EvBroadcast Activate hero1 ON
                   [VEnt player1; VEnt card7; VNone]);
       Recorded (EvQueue minion3 [construct Draw [VEnt player1] ∅])].
Proof.
  destruct (Activate_fails_late_on_missing_inspire Demo.plain
              (Demo.scripts [minion3; minion4])
              (λ m, get_actions (Demo.scripts []) m "inspire" Demo.stage)
              (λ _, [minion3; minion4])
              (λ _ _, eq_refl) (λ _ _, eq_refl)
              11%positive hero1 player1 card7 VNone [minion3] [] minion4
              (construct Activate [VEnt card7; VNone] ∅) Demo.crowd)
    as (w' & Hrun & Hcalls).
  - vm_compute. reflexivity.
  - reflexivity.
  - repeat constructor. vm_compute. eexists. reflexivity.
  - reflexivity.
  - exists w'. split; [exact Hrun |]. rewrite Hcalls. reflexivity.
Defined.

(** Minion 3 alone has inspire. *)
Lemma Activate_queues_power_then_inspires_witness :
  ∃ rs w',
    Activate_do Demo.plain (Demo.scripts [minion3]) 11%positive
      hero1 player1 card7 VNone Demo.crowd = (Done rs, w') ∧
    calls w' =
      [Recorded (EvBroadcast Activate hero1 ON
                   [VEnt player1; VEnt card7; VNone]);
       Recorded (EvQueue minion3 [construct Draw [VEnt player1] ∅])].
Proof.
  destruct (Activate_queues_power_then_inspires Demo.plain
              (Demo.scripts [minion3])
              (λ m, get_actions (Demo.scripts []) m "inspire" Demo.stage)
              (λ _, [minion3])
              (λ _ _, eq_refl) (λ _ _, eq_refl)
              11%positive hero1 player1 card7 VNone
              (construct Activate [VEnt card7; VNone] ∅) Demo.crowd)
    as (rs & w' & Hrun & Hcalls).
  - vm_compute. reflexivity.
  - repeat constructor. vm_compute. eexists. reflexivity.
  - exists rs, w'. split; [exact Hrun |]. rewrite Hcalls. reflexivity.
Defined.

(** Minion 3, in play, is morphed into card 5. *)
Lemma Morph_puts_card_in_place_of_target_witness :
  ∃ w',
    Morph_do Demo.plain hero1 minion3 card5 Demo.world
      = (Done (OVal (VEnt card5)), w') ∧
    zone (ent (sc_game (scene w')) card5) = PLAY ∧
    zone (ent (sc_game (scene w')) minion3) = SETASIDE.
Proof.
  destruct (Morph_puts_card_in_place_of_target Demo.plain
              plain_setter_assigns hero1 minion3 card5 Demo.world)
    as (w' & Hrun & Hz & Ht & _).
  exists w'. split; [exact Hrun |]. split; [exact Hz |].
  apply Ht. discriminate.
Defined.

(** Cards 5 and 6 are shuffled into the deck of player 1. *)
Lemma Shuffle_puts_cards_in_deck_witness :
  ∃ w',
    Shuffle_do Demo.plain hero1 player1 [card5; card6] Demo.world
      = (Done ONone, w') ∧
    calls w' =
      [Recorded (EvZone card5 DECK); CallMethod player1 "shuffle_deck" [];
       Recorded (EvZone card6 DECK); CallMethod player1 "shuffle_deck" []] ∧
    zone (ent (sc_game (scene w')) card6) = DECK.
Proof.
  destruct (Shuffle_puts_cards_in_deck Demo.plain plain_setter_assigns
              plain_methods_keep_places hero1 player1 [card5; card6]
              Demo.world)
    as (w' & Hrun & Hcalls & Hin & _).
  exists w'. split; [exact Hrun |]. split; [exact Hcalls |].
  apply Hin. apply elem_of_cons. right. apply elem_of_cons. by left.
Defined.

(** Minion 3 attacks minion 4 and is retargeted to hero 1. *)
Lemma Retarget_redirects_the_attack_witness :
  ∃ w',
    Retarget_do hero1 minion3 [hero1]
      (Demo.attacking_in minion3 (proposed minion3 minion4 table))
      = (Done (OVal (VEnt hero1)), w') ∧
    proposed_defender (sc_game (scene w')) = Some hero1 ∧
    defending (ent (sc_game (scene w')) minion4) = false.
Proof.
  destruct (Retarget_redirects_the_attack hero1 minion3 hero1 minion4
              (Demo.attacking_in minion3 (proposed minion3 minion4 table)))
    as (w' & Hrun & Hp & _ & Hd & _).
  - right. reflexivity.
  - vm_compute. discriminate.
  - reflexivity.
  - exists w'. split; [exact Hrun |]. split; [exact Hp | exact Hd].
Defined.

(** Minion 3 attacks minion 4 where a listener retargets attacks to
    hero 1. *)
Lemma Attack_hits_the_retargeted_defender_witness :
  take 2 (trace (Attack_do Demo.redirecting hero1 minion3 minion4
                   (mkState table [])).2) =
    [EvBroadcast Attack hero1 ON [VEnt minion3; VEnt minion4];
     EvQueue minion3 [construct Hit [VEnt hero1; VInt 3] ∅]].
Proof.
  destruct (Attack_hits_the_retargeted_defender Demo.redirecting
              hero1 minion3 minion4 hero1 (mkState table [])
              (Demo.attacking_in minion3 (proposed minion3 minion4 table)))
    as (s' & Hrun & Htrace).
  - reflexivity.
  - right. reflexivity.
  - vm_compute. discriminate.
  - reflexivity.
  - reflexivity.
  - discriminate.
  - rewrite Hrun. exact Htrace.
Defined.

(** A swap with nothing goes through the whole loop when no callback is
    attached; with one attached it fails on the sum of a list and a
    tuple, after the action has been announced and before it is
    closed. *)
Example Swap_with_callback_fails_sample :
  let run self :=
    TargetedAction_trigger Demo.plain
      (Swap_method_get_target_args Demo.plain)
      (Swap_method_do Demo.plain) self hero1 Demo.crowd in
  (run 10%positive).1 = Done [ONone] ∧
  (run 12%positive).1 = Raised (Known TypeError) ∧
  calls (run 12%positive).2 =
    [Recorded (EvAction Swap hero1 (Some [minion3]) [VSel 1])].
Proof. vm_compute. done. Qed.
